(** * The framed transport of the DTM daemon (dtmd/src/server.c)

    A shallow embedding of the stream layer of [server.c]: the per-connection
    input and output buffers, the reply builder
    ([stream_message_start] / [stream_message_append] / [stream_message_finish]),
    [stream_flush], the deframing loop of [server_stream_handle], the channel
    table ([stream_get_client]) and the reaping of bad streams.

    The first part follows one stream, and the callbacks of the upper
    layer as far as they act on that stream. The module [Server] has the
    stream records in a memory, where a callback may act on the clients of
    any connection, and on it the loop of [server_loop]: the events of
    epoll, [server_close_bad_streams] and [server_flush] over the chains.
    The section [Confined] relates the two.

    Conventions.
    - C integers are [Z] with their conversions written out: [to_int] for
      [int] (32 bits, two's complement), [to_uint] for [unsigned int]
      (32 bits) and [to_size_t] for [size_t] (64 bits, the LP64 Linux
      targets of the epoll branch).
    - A [char *] buffer is a [list Byte.byte]; a pointer into it is an offset.
    - [assert] is compiled in: a failed assertion aborts the daemon, which is
      the outcome [AssertFail]. An access outside an object is [Undefined].
    - The kernel side of a socket is a script of the values its next calls
      return, carried next to the descriptor. *)

From stdpp Require Import base numbers list option.
From Stdlib Require Import ZArith Lia.
From Stdlib.Strings Require Import Byte.

Local Open Scope Z_scope.

(** ** Outcomes of a C function *)

Inductive res (A : Type) : Type :=
| Ok (a : A)        (* the function returned *)
| AssertFail        (* an assert() failed: the process is aborted *)
| Undefined         (* a read or write outside an object *)
| OutOfFuel.        (* the loop did not finish within the given fuel *)

Arguments Ok {A} a.
Arguments AssertFail {A}.
Arguments Undefined {A}.
Arguments OutOfFuel {A}.

Definition res_bind {A B : Type} (f : A → res B) (m : res A) : res B :=
  match m with
  | Ok a => f a
  | AssertFail => AssertFail
  | Undefined => Undefined
  | OutOfFuel => OutOfFuel
  end.

#[global] Instance res_mbind : MBind res := @res_bind.
#[global] Instance res_mret : MRet res := @Ok.

(** The function did not stop for want of fuel. *)
Definition terminates {A : Type} (r : res A) : Prop := r ≠ OutOfFuel.

(** [assert(c)] *)
Definition assert (c : bool) : res unit := if c then Ok tt else AssertFail.

(** A memory access that may fall outside its object. *)
Definition access {A : Type} (o : option A) : res A :=
  match o with Some a => Ok a | None => Undefined end.

(** ** Machine integers *)

Definition to_uint (z : Z) : Z := z mod 2 ^ 32.
Definition to_int (z : Z) : Z := (z + 2 ^ 31) mod 2 ^ 32 - 2 ^ 31.
Definition to_size_t (z : Z) : Z := z mod 2 ^ 64.
Definition INT_MAX : Z := 2 ^ 31 - 1.

(** ** Bytes and buffers *)

Definition byte_to_Z (b : byte) : Z := Z.of_N (Byte.to_N b).
Definition byte_of_Z (z : Z) : byte :=
  default x00 (Byte.of_N (Z.to_N (z mod 256))).

(** Host-order (little-endian) integers of 4 and 8 bytes. *)
Definition le32 (z : Z) : list byte :=
  [byte_of_Z z; byte_of_Z (z / 2 ^ 8); byte_of_Z (z / 2 ^ 16); byte_of_Z (z / 2 ^ 24)].

Definition un_le32 (bs : list byte) : Z :=
  match bs with
  | [b0; b1; b2; b3] =>
      byte_to_Z b0 + byte_to_Z b1 * 2 ^ 8 + byte_to_Z b2 * 2 ^ 16 + byte_to_Z b3 * 2 ^ 24
  | _ => 0
  end.

Definition le64 (z : Z) : list byte := le32 z ++ le32 (z / 2 ^ 32).

(** [load mem off n]: the [n] bytes at offset [off], when they lie inside. *)
Definition load (mem : list byte) (off n : Z) : option (list byte) :=
  if bool_decide (0 ≤ off ∧ 0 ≤ n ∧ off + n ≤ Z.of_nat (length mem))
  then Some (take (Z.to_nat n) (drop (Z.to_nat off) mem))
  else None.

(** [store mem off bs]: [mem] with [bs] written at offset [off]. *)
Definition store (mem : list byte) (off : Z) (bs : list byte) : option (list byte) :=
  if bool_decide (0 ≤ off ∧ off + Z.of_nat (length bs) ≤ Z.of_nat (length mem))
  then Some (take (Z.to_nat off) mem ++ bs ++ drop (Z.to_nat off + length bs) mem)
  else None.

(** ** The message header *)

(** Modelled from the spec: [ShubMessageHdr] is declared in sockhub.h, which
    is not among the sources. The frame layout of the specification is used:
    [size] (u32) at offset 0, [code] (u8) at offset 4, [chan] (u32) at
    offset 5, payload at offset 9, fields in host byte order. *)
Record ShubMessageHdr : Type := mkHdr { msg_size : Z; msg_code : Z; msg_chan : Z }.

(** [sizeof(ShubMessageHdr)] *)
Definition HDR : Z := 9.

Definition encode_hdr (h : ShubMessageHdr) : list byte :=
  le32 (msg_size h) ++ [byte_of_Z (msg_code h)] ++ le32 (msg_chan h).

Definition decode_hdr (bs : list byte) : ShubMessageHdr :=
  {| msg_size := un_le32 (take 4 bs);
     msg_code := un_le32 (take 1 (drop 4 bs) ++ [x00; x00; x00]);
     msg_chan := un_le32 (take 4 (drop 5 bs)) |}.

(** The header a [ShubMessageHdr] pointer at [mem + off] designates. *)
Definition read_hdr (mem : list byte) (off : Z) : res ShubMessageHdr :=
  access (decode_hdr <$> load mem off HDR).

(** The code every reply carries: ['r']. *)
Definition CODE_R : Z := 114.

(** ** Sockets *)

Inductive recv_t : Type :=
| RecvError                   (* recv() = -1 *)
| RecvEof                     (* recv() = 0 *)
| RecvData (bs : list byte).  (* recv() > 0 *)

Record socket_t : Type := mkSocket {
  sock_fd : Z;               (* the descriptor *)
  sock_in : list recv_t;     (* what the next calls of recv() deliver *)
  sock_out : list Z;         (* what the next calls of send() return *)
  wire : list byte;          (* the bytes handed to the kernel so far *)
  closed : bool              (* close() was called *)
}.

(** [send(fd, buf, len, 0)]: the next scripted value, -1 for an error,
    otherwise the number of bytes taken, never more than offered. A socket
    whose script is exhausted fails. *)
Definition send (sk : socket_t) (buf : list byte) : Z * socket_t :=
  match sock_out sk with
  | [] => (-1, sk)
  | r :: rest =>
      if bool_decide (r < 0)
      then (-1, mkSocket (sock_fd sk) (sock_in sk) rest (wire sk) (closed sk))
      else
        let n := Z.min r (Z.of_nat (length buf)) in
        (n, mkSocket (sock_fd sk) (sock_in sk) rest
                     (wire sk ++ take (Z.to_nat n) buf) (closed sk))
  end.

(** [recv(fd, buf, avail, 0)]: the next scripted delivery; what exceeds
    [avail] stays queued for the next call. *)
Definition recv (sk : socket_t) (avail : Z) : recv_t * socket_t :=
  match sock_in sk with
  | [] => (RecvEof, sk)
  | RecvData bs :: rest =>
      let now := take (Z.to_nat avail) bs in
      let later := drop (Z.to_nat avail) bs in
      let queue := match later with [] => rest | _ => RecvData later :: rest end in
      (match now with [] => RecvEof | _ => RecvData now end,
       mkSocket (sock_fd sk) queue (sock_out sk) (wire sk) (closed sk))
  | r :: rest =>
      (r, mkSocket (sock_fd sk) rest (sock_out sk) (wire sk) (closed sk))
  end.

Definition close (sk : socket_t) : socket_t :=
  mkSocket (sock_fd sk) (sock_in sk) (sock_out sk) (wire sk) true.

(** ** Streams *)

Record buffer_t : Type := mkBuffer {
  ready : Z;                 (* number of bytes ready to be sent/processed *)
  curmessage : option Z;     (* offset of the unfinished message, None: NULL *)
  data : list byte           (* the allocated buffer; [] once freed *)
}.

Record client_data_t : Type := mkClient {
  stream : bool;             (* false: client->stream is NULL, the slot is empty *)
  userdata : Z;              (* void *userdata; 0 is NULL *)
  chan : Z
}.

Record stream_data_t : Type := mkStream {
  fd : socket_t;
  good : bool;               (* false: stop serving and disconnect when possible *)
  input : buffer_t;
  output : buffer_t;
  clients : list client_data_t   (* the channel table; [] once freed *)
}.

Definition set_fd (sk : socket_t) (s : stream_data_t) : stream_data_t :=
  mkStream sk (good s) (input s) (output s) (clients s).
Definition set_good (b : bool) (s : stream_data_t) : stream_data_t :=
  mkStream (fd s) b (input s) (output s) (clients s).
Definition set_input (i : buffer_t) (s : stream_data_t) : stream_data_t :=
  mkStream (fd s) (good s) i (output s) (clients s).
Definition set_output (o : buffer_t) (s : stream_data_t) : stream_data_t :=
  mkStream (fd s) (good s) (input s) o (clients s).
Definition set_clients (c : list client_data_t) (s : stream_data_t) : stream_data_t :=
  mkStream (fd s) (good s) (input s) (output s) c.

(** ** The upper layer *)

(** The upper layer is reached through the three callbacks of [server_init];
    a callback acts on a stream through the client interface only. Seen
    from one stream, a callback is a program of client calls, each on a
    slot of the channel table of this stream, that ends with the new state
    of the upper layer: this is an upper layer that answers on the
    connection it is called on. The calls a callback makes on the clients
    of other connections are in [Server.cb]. *)
Inductive api_call : Type :=
| CallSetUserdata (v : Z)                       (* client_set_userdata *)
| CallGetUserdata                               (* client_get_userdata *)
| CallMessageStart                              (* client_message_start *)
| CallMessageAppend (len : Z) (src : list byte) (* client_message_append *)
| CallMessageFinish                             (* client_message_finish *)
| CallMessageShortcut (arg : Z).                (* client_message_shortcut *)

Inductive cb (U : Type) : Type :=
| Return (u : U)
| Call (client : Z) (c : api_call) (k : Z → cb U).

Arguments Return {U} u.
Arguments Call {U} client c k.

Inductive event : Type :=
| EvConnect (chan userdata : Z)     (* onconnect(client), with client->userdata *)
| EvDisconnect (chan userdata : Z)  (* ondisconnect(client), with client->userdata *)
| EvMessage (chan userdata len : Z) (payload : list byte).
                                    (* onmessage(client, len, data) *)



Section Dtmd.

(** Modelled from the spec: limits.h and sockhub.h are not among the sources;
    the capacity of a buffer, the size of the channel table and the reserved
    disconnect code are parameters. *)
Variable BUFFER_SIZE : Z.
Variable MAX_TRANSACTIONS : Z.
Variable MSG_DISCONNECT : Z.

(** The send loop of [stream_flush]: one iteration per unit of fuel. *)
Fixpoint send_loop (fuel : nat) (sk : socket_t) (mem : list byte) (cursor tosend : Z)
  : res (bool * socket_t) :=
  if bool_decide (tosend > 0) then
    match fuel with
    | O => OutOfFuel
    | S fuel' =>
        buf ← access (load mem cursor tosend);
        let '(sent, sk') := send sk buf in
        if bool_decide (sent = -1) then Ok (false, sk')
        else
          let tosend' := to_int (tosend - sent) in
          _ ← assert (bool_decide (tosend' >= 0));
          send_loop fuel' sk' mem (cursor + sent) tosend'
    end
  else Ok (true, sk).

Definition stream_flush (s : stream_data_t) : res (bool * stream_data_t) :=
  let tosend := ready (output s) in
  if bool_decide (tosend = 0) then Ok (true, s)
  else
    '(sent_all, sk) ← send_loop (S (length (sock_out (fd s)))) (fd s)
                                 (data (output s)) 0 tosend;
    if negb sent_all then Ok (false, set_good false (set_fd sk s))
    else
      let s := set_fd sk s in
      match curmessage (output s) with
      | None => Ok (true, set_output (mkBuffer 0 None (data (output s))) s)
      | Some msg =>
          (* move the unfinished message to the start of the buffer *)
          h ← read_hdr (data (output s)) msg;
          m ← access (load (data (output s)) msg (msg_size h + HDR));
          d ← access (store (data (output s)) 0 m);
          Ok (true, set_output (mkBuffer 0 (Some 0) d) s)
      end.

(** The buffers come from [malloc]; their bytes, which nothing reads before
    writing, are taken to be zero. *)
Definition stream_init (sk : socket_t) : stream_data_t :=
  {| fd := sk;
     good := true;
     input := mkBuffer 0 None (replicate (Z.to_nat BUFFER_SIZE) x00);
     output := mkBuffer 0 None (replicate (Z.to_nat BUFFER_SIZE) x00);
     clients := replicate (Z.to_nat MAX_TRANSACTIONS) (mkClient false 0 0) |}.

Definition stream_message_start (s : stream_data_t) (chan : Z)
  : res (bool * stream_data_t) :=
  match curmessage (output s) with
  | Some _ => Ok (false, set_good false s)
  | None =>
      '(flushed, s) ←
        (if bool_decide (to_size_t (to_int (BUFFER_SIZE - ready (output s))) < HDR)
         then stream_flush s
         else Ok (true, s));
      if negb flushed then Ok (false, set_good false s)
      else
        let msg := ready (output s) in
        d ← access (store (data (output s)) msg
                      (encode_hdr (mkHdr 0 CODE_R (to_uint chan))));
        Ok (true, set_output (mkBuffer (ready (output s)) (Some msg) d) s)
  end.

(** [int newsize = curmessage->size + sizeof(ShubMessageHdr) + len] *)
Definition append_newsize (size len : Z) : Z :=
  to_int (size + HDR + len).

Definition stream_message_append (s : stream_data_t) (len : Z) (src : list byte)
  : res (bool * stream_data_t) :=
  match curmessage (output s) with
  | None => Ok (false, set_good false s)
  | Some msg =>
      h ← read_hdr (data (output s)) msg;
      let newsize := append_newsize (msg_size h) len in
      if bool_decide (newsize > BUFFER_SIZE) then
        (* the flushing will not help here *)
        Ok (false, set_good false s)
      else
        '(flushed, s) ←
          (if bool_decide (to_int (ready (output s) + newsize) > BUFFER_SIZE)
           then stream_flush s
           else Ok (true, s));
        if negb flushed then Ok (false, set_good false s)
        else
          match curmessage (output s) with
          | None => Undefined
          | Some msg =>
              h ← read_hdr (data (output s)) msg;
              bytes ← access (load src 0 len);
              d ← access (store (data (output s)) (msg + msg_size h + HDR) bytes);
              d ← access (store d msg (le32 (to_uint (msg_size h + len))));
              Ok (true, set_output (mkBuffer (ready (output s)) (Some msg) d) s)
          end
  end.

Definition stream_message_finish (s : stream_data_t) : res (bool * stream_data_t) :=
  match curmessage (output s) with
  | None => Ok (false, set_good false s)
  | Some msg =>
      h ← read_hdr (data (output s)) msg;
      let r := to_int (ready (output s) + msg_size h) in
      let r := to_int (r + HDR) in
      _ ← assert (bool_decide (r ≤ BUFFER_SIZE));
      Ok (true, set_output (mkBuffer r None (data (output s))) s)
  end.

(** ** The callbacks *)

Variable U : Type.
Variable onconnect : U → Z → cb U.
Variable ondisconnect : U → Z → cb U.
Variable onmessage : U → Z → Z → list byte → cb U.

Record world : Type := mkWorld {
  upper : U;               (* the state of the upper layer *)
  trace : list event       (* the callbacks invoked so far *)
}.

Definition client_set_userdata (s : stream_data_t) (client : Z) (v : Z)
  : res stream_data_t :=
  cl ← access (clients s !! Z.to_nat client);
  Ok (set_clients (<[Z.to_nat client := mkClient (stream cl) v (chan cl)]> (clients s)) s).

Definition client_get_userdata (s : stream_data_t) (client : Z) : res Z :=
  cl ← access (clients s !! Z.to_nat client);
  Ok (userdata cl).

(** [client->stream], which must not be NULL to be used. *)
Definition client_stream (s : stream_data_t) (client : Z) : res client_data_t :=
  cl ← access (clients s !! Z.to_nat client);
  if stream cl then Ok cl else Undefined.

Definition client_message_start (s : stream_data_t) (client : Z)
  : res (bool * stream_data_t) :=
  cl ← client_stream s client;
  stream_message_start s (chan cl).

Definition client_message_append (s : stream_data_t) (client : Z) (len : Z)
    (src : list byte) : res (bool * stream_data_t) :=
  _ ← client_stream s client;
  stream_message_append s len src.

Definition client_message_finish (s : stream_data_t) (client : Z)
  : res (bool * stream_data_t) :=
  _ ← client_stream s client;
  stream_message_finish s.

Definition client_message_shortcut (s : stream_data_t) (client : Z) (arg : Z)
  : res (bool * stream_data_t) :=
  cl ← client_stream s client;
  '(ok, s) ← stream_message_start s (chan cl);
  if negb ok then Ok (false, s)
  else
    '(ok, s) ← stream_message_append s 8 (le64 arg);
    if negb ok then Ok (false, s)
    else
      '(ok, s) ← stream_message_finish s;
      if negb ok then Ok (false, s) else Ok (true, s).

Definition Z_of_bool (b : bool) : Z := if b then 1 else 0.

Definition do_call (c : api_call) (client : Z) (s : stream_data_t)
  : res (Z * stream_data_t) :=
  match c with
  | CallSetUserdata v => s ← client_set_userdata s client v; Ok (0, s)
  | CallGetUserdata => v ← client_get_userdata s client; Ok (v, s)
  | CallMessageStart =>
      '(ok, s) ← client_message_start s client; Ok (Z_of_bool ok, s)
  | CallMessageAppend len src =>
      '(ok, s) ← client_message_append s client len src; Ok (Z_of_bool ok, s)
  | CallMessageFinish =>
      '(ok, s) ← client_message_finish s client; Ok (Z_of_bool ok, s)
  | CallMessageShortcut arg =>
      '(ok, s) ← client_message_shortcut s client arg; Ok (Z_of_bool ok, s)
  end.

Fixpoint run_cb (p : cb U) (s : stream_data_t) : res (U * stream_data_t) :=
  match p with
  | Return u => Ok (u, s)
  | Call client c k => '(r, s) ← do_call c client s; run_cb (k r) s
  end.

(** The call of a callback: it is recorded, then its program runs. *)
Definition invoke (ev : event) (p : cb U) (w : world) (s : stream_data_t)
  : res (world * stream_data_t) :=
  '(u, s) ← run_cb p s;
  Ok (mkWorld u (trace w ++ [ev]), s).

(** ** The read path *)

Definition stream_get_client (s : stream_data_t) (channel : Z)
  : res (bool * stream_data_t) :=
  _ ← assert (bool_decide (channel < MAX_TRANSACTIONS));
  client ← access (clients s !! Z.to_nat channel);
  if stream client then
    (* collisions should not happen *)
    _ ← assert (bool_decide (chan client = channel));
    Ok (false, s)
  else
    (* client is new *)
    Ok (true, set_clients
                (<[Z.to_nat channel := mkClient true 0 channel]> (clients s)) s).

(** The payload handed to [onmessage]: the bytes behind the header [msg]
    found at offset [cursor], as far as the frame reaches. *)
Definition payload_at (s : stream_data_t) (cursor : Z) (msg : ShubMessageHdr)
  : list byte :=
  take (Z.to_nat (msg_size msg)) (drop (Z.to_nat (cursor + HDR)) (data (input s))).

(** The "handle message" block of [server_stream_handle], for the header
    [msg] found at offset [cursor] of the input buffer. *)
Definition handle_message (w : world) (s : stream_data_t) (cursor : Z)
    (msg : ShubMessageHdr) : res (world * stream_data_t) :=
  let client := msg_chan msg in
  '(isnew, s) ← stream_get_client s client;
  '(w, s) ←
    (if isnew : bool then
       ud ← client_get_userdata s client;
       invoke (EvConnect client ud) (onconnect (upper w) client) w s
     else Ok (w, s));
  if bool_decide (msg_code msg = MSG_DISCONNECT) then
    ud ← client_get_userdata s client;
    '(w, s) ← invoke (EvDisconnect client ud) (ondisconnect (upper w) client) w s;
    cl ← access (clients s !! Z.to_nat client);
    Ok (w, set_clients
             (<[Z.to_nat client := mkClient false (userdata cl) (chan cl)]> (clients s)) s)
  else
    let payload := payload_at s cursor msg in
    ud ← client_get_userdata s client;
    invoke (EvMessage client ud (msg_size msg) payload)
           (onmessage (upper w) client (msg_size msg) payload) w s.

(** The deframing loop. It yields the cursor and the count of unprocessed
    bytes at its exit, or nothing when the function returns false from
    inside the loop. *)
Fixpoint handle_loop (fuel : nat) (w : world) (s : stream_data_t) (cursor toprocess : Z)
  : res (world * stream_data_t * option (Z * Z)) :=
  if bool_decide (to_size_t toprocess >= HDR) then
    match fuel with
    | O => OutOfFuel
    | S fuel' =>
        msg ← read_hdr (data (input s)) cursor;
        let header_and_data := to_int (HDR + msg_size msg) in
        if bool_decide (header_and_data ≤ toprocess) then
          '(w, s) ← handle_message w s cursor msg;
          handle_loop fuel' w s (cursor + header_and_data)
                      (to_int (toprocess - header_and_data))
        else if bool_decide (header_and_data > BUFFER_SIZE) then
          Ok (w, set_good false s, None)
        else Ok (w, s, Some (cursor, toprocess))
    end
  else Ok (w, s, Some (cursor, toprocess)).

(** [server_stream_handle] from the point where the received bytes are in
    the input buffer. *)
Definition process_input (fuel : nat) (w : world) (s : stream_data_t)
  : res (bool * world * stream_data_t) :=
  '(w, s, exit) ← handle_loop fuel w s 0 (ready (input s));
  match exit with
  | None => Ok (false, w, s)
  | Some (cursor, toprocess) =>
      _ ← assert (bool_decide (toprocess >= 0));
      d ← (if bool_decide (toprocess > 0) then
             m ← access (load (data (input s)) cursor toprocess);
             access (store (data (input s)) 0 m)
           else Ok (data (input s)));
      Ok (true, w, set_input (mkBuffer toprocess (curmessage (input s)) d) s)
  end.

Definition server_stream_handle (fuel : nat) (w : world) (s : stream_data_t)
  : res (bool * world * stream_data_t) :=
  let avail := to_int (BUFFER_SIZE - ready (input s)) in
  _ ← assert (bool_decide (avail > 0));
  let '(r, sk) := recv (fd s) avail in
  let s := set_fd sk s in
  match r with
  | RecvError | RecvEof => Ok (false, w, set_good false s)
  | RecvData bs =>
      d ← access (store (data (input s)) (ready (input s)) bs);
      let recved := Z.of_nat (length bs) in
      let s := set_input (mkBuffer (to_int (ready (input s) + recved))
                                   (curmessage (input s)) d) s in
      process_input fuel w s
  end.

(** ** Destruction, accepting and the flush pass *)

Fixpoint disconnect_all (n : nat) (c : Z) (w : world) (s : stream_data_t)
  : res (world * stream_data_t) :=
  match n with
  | O => Ok (w, s)
  | S n' =>
      client ← access (clients s !! Z.to_nat c);
      '(w, s) ←
        (if stream client then
           invoke (EvDisconnect c (userdata client)) (ondisconnect (upper w) c) w s
         else Ok (w, s));
      disconnect_all n' (c + 1) w s
  end.

Definition server_stream_destroy (w : world) (s : stream_data_t)
  : res (world * stream_data_t) :=
  '(w, s) ← disconnect_all (Z.to_nat MAX_TRANSACTIONS) 0 w s;
  Ok (w, {| fd := close (fd s);
            good := good s;
            input := mkBuffer (ready (input s)) (curmessage (input s)) [];
            output := mkBuffer (ready (output s)) (curmessage (output s)) [];
            clients := [] |}).

Record server_data_t : Type := mkServer {
  used_chain : list stream_data_t;
  free_chain : list stream_data_t
}.

Fixpoint flush_chain (chain : list stream_data_t) : res (list stream_data_t) :=
  match chain with
  | [] => Ok []
  | s :: next =>
      '(_, s') ← stream_flush s;
      next' ← flush_chain next;
      Ok (s' :: next')
  end.

Definition server_flush (server : server_data_t) : res server_data_t :=
  used ← flush_chain (used_chain server);
  Ok (mkServer used (free_chain server)).

(** What [accept] hands back: a new socket, or nothing for -1. The stream
    record is taken from the free chain when there is one. *)
Definition server_accept (accepted : option socket_t) (server : server_data_t)
  : server_data_t :=
  match accepted with
  | None => server
  | Some sk => mkServer (stream_init sk :: used_chain server) (tail (free_chain server))
  end.

(** ** The state of the reply builder *)

(** The committed region of the output buffer: what a flush sends. *)
Definition committed (s : stream_data_t) : list byte :=
  take (Z.to_nat (ready (output s))) (data (output s)).

(** No reply is under construction. *)
Definition idle (s : stream_data_t) : Prop :=
  Z.of_nat (length (data (output s))) = BUFFER_SIZE ∧
  0 ≤ ready (output s) ≤ BUFFER_SIZE ∧
  curmessage (output s) = None.

(** A reply on channel [c] with the payload [p] appended so far is under
    construction, right behind the committed region. *)
Definition building (s : stream_data_t) (c : Z) (p : list byte) : Prop :=
  Z.of_nat (length (data (output s))) = BUFFER_SIZE ∧
  0 ≤ ready (output s) ∧
  curmessage (output s) = Some (ready (output s)) ∧
  load (data (output s)) (ready (output s)) (HDR + Z.of_nat (length p)) =
    Some (encode_hdr (mkHdr (Z.of_nat (length p)) CODE_R c) ++ p).

Definition out_inv (s : stream_data_t) : Prop :=
  idle s ∨ ∃ c p, building s c p.

(** The size, header included, of the reply under construction. *)
Definition inprogress (s : stream_data_t) : Z :=
  match curmessage (output s) with
  | None => 0
  | Some msg =>
      match read_hdr (data (output s)) msg with
      | Ok h => HDR + msg_size h
      | _ => 0
      end
  end.

(** The operations on the output side of a stream. *)
Inductive out_op : Type :=
| OpStart (chan : Z)
| OpAppend (len : Z) (src : list byte)
| OpFinish
| OpFlush.

Definition run_op (o : out_op) (s : stream_data_t) : res (bool * stream_data_t) :=
  match o with
  | OpStart c => stream_message_start s c
  | OpAppend len src => stream_message_append s len src
  | OpFinish => stream_message_finish s
  | OpFlush => stream_flush s
  end.

(** A sequence of operations each of which succeeds. *)
Fixpoint run_ops (os : list out_op) (s : stream_data_t) : option stream_data_t :=
  match os with
  | [] => Some s
  | o :: os' =>
      match run_op o s with
      | Ok (true, s') => run_ops os' s'
      | _ => None
      end
  end.

(** What the output side of a stream never touches. *)
Definition same_frame (s s' : stream_data_t) : Prop :=
  input s' = input s ∧ clients s' = clients s ∧
  sock_fd (fd s') = sock_fd (fd s) ∧ sock_in (fd s') = sock_in (fd s) ∧
  closed (fd s') = closed (fd s).

(** The operations allowed between start and finish. *)
Definition mid_op (o : out_op) : Prop :=
  match o with
  | OpAppend _ _ | OpFlush => True
  | _ => False
  end.

(** The payload a sequence of appends accumulates. *)
Fixpoint payload_of (os : list out_op) : list byte :=
  match os with
  | [] => []
  | OpAppend len src :: os' => take (Z.to_nat len) src ++ payload_of os'
  | _ :: os' => payload_of os'
  end.

(** Which slots of the channel table are occupied, and by which channel. *)
Definition slots (s : stream_data_t) : list (bool * Z) :=
  (λ cl, (stream cl, chan cl)) <$> clients s.

(** What a callback cannot change: the input buffer and the occupancy of
    the channel table. *)
Definition keeps (s s' : stream_data_t) : Prop :=
  input s' = input s ∧ slots s' = slots s.

(** The callback a frame is delivered to, when its slot holds [ud]. *)
Definition delivery (c ud : Z) (msg : ShubMessageHdr) (payload : list byte) : event :=
  if bool_decide (msg_code msg = MSG_DISCONNECT)
  then EvDisconnect c ud
  else EvMessage c ud (msg_size msg) payload.

(** ** The frames of a byte sequence, as the specification words them *)

(** A frame is a header followed by [size] bytes of payload; [size] does
    not count the header. [deframe] peels the complete frames off the front
    of [bs] and yields them with the partial tail. *)
Fixpoint deframe (fuel : nat) (bs : list byte)
  : list (ShubMessageHdr * list byte) * list byte :=
  match fuel with
  | O => ([], bs)
  | S fuel' =>
      if bool_decide (HDR ≤ Z.of_nat (length bs)) then
        let h := decode_hdr (take (Z.to_nat HDR) bs) in
        if bool_decide (HDR + msg_size h ≤ Z.of_nat (length bs)) then
          let '(fs, tl) := deframe fuel' (drop (Z.to_nat (HDR + msg_size h)) bs) in
          ((h, take (Z.to_nat (msg_size h)) (drop (Z.to_nat HDR) bs)) :: fs, tl)
        else ([], bs)
      else ([], bs)
  end.

Definition frames (bs : list byte) : list (ShubMessageHdr * list byte) :=
  fst (deframe (length bs) bs).

Definition leftover (bs : list byte) : list byte :=
  snd (deframe (length bs) bs).

(** The tail starts with the header of a frame that can never fit. *)
Definition oversize (tl : list byte) : Prop :=
  HDR ≤ Z.of_nat (length tl) ∧
  BUFFER_SIZE < HDR + msg_size (decode_hdr (take (Z.to_nat HDR) tl)).

(** The length the tail announces, header included, is in the range of [int]. *)
Definition fits_int (tl : list byte) : Prop :=
  HDR ≤ Z.of_nat (length tl) →
  HDR + msg_size (decode_hdr (take (Z.to_nat HDR) tl)) ≤ INT_MAX.

(** What the upper layer is handed, the opaque user state left out. *)
Inductive dispatch : Type :=
| Message (chan len : Z) (payload : list byte)
| Disconnect (chan : Z).

Definition dispatch_of_event (e : event) : option dispatch :=
  match e with
  | EvConnect _ _ => None
  | EvDisconnect c _ => Some (Disconnect c)
  | EvMessage c _ len p => Some (Message c len p)
  end.

Definition dispatched (t : list event) : list dispatch := omap dispatch_of_event t.

Definition dispatch_of_frame (f : ShubMessageHdr * list byte) : dispatch :=
  if bool_decide (msg_code (fst f) = MSG_DISCONNECT)
  then Disconnect (msg_chan (fst f))
  else Message (msg_chan (fst f)) (msg_size (fst f)) (snd f).

(** The channels of the occupied slots, in table order from index [c]. *)
Fixpoint occupied_in (ss : list (bool * Z)) (c : Z) : list Z :=
  match ss with
  | [] => []
  | (occ, _) :: ss' => (if occ : bool then [c] else []) ++ occupied_in ss' (c + 1)
  end.

Definition occupied (s : stream_data_t) : list Z := occupied_in (slots s) 0.

(** The state [server_stream_destroy] leaves a stream record in. *)
Definition destroyed (s : stream_data_t) : Prop :=
  closed (fd s) = true ∧ clients s = [] ∧
  data (input s) = [] ∧ data (output s) = [].

(** ** The state of the read path and of the channel table *)

(** The bytes received and not yet processed. *)
Definition buffered (s : stream_data_t) : list byte :=
  take (Z.to_nat (ready (input s))) (data (input s)).

(** The input buffer as a receive must find it: allocated, with room left. *)
Definition in_inv (s : stream_data_t) : Prop :=
  Z.of_nat (length (data (input s))) = BUFFER_SIZE ∧
  0 ≤ ready (input s) < BUFFER_SIZE.

(** The channel table is allocated and every occupied slot holds the
    channel of its index. *)
Definition table_ok (s : stream_data_t) : Prop :=
  Z.of_nat (length (clients s)) = MAX_TRANSACTIONS ∧
  ∀ i cl, clients s !! i = Some cl → stream cl = true → chan cl = Z.of_nat i.

(** A stream the event loop can serve. *)
Definition live_ok (s : stream_data_t) : Prop := out_inv s ∧ table_ok s.

(** A frame laid out in memory: the header, then the payload. *)
Definition enframe (f : ShubMessageHdr * list byte) : list byte :=
  encode_hdr (fst f) ++ snd f.

(** The header counts the payload, and its fields are within their widths. *)
Definition well_framed (f : ShubMessageHdr * list byte) : Prop :=
  msg_size (fst f) = Z.of_nat (length (snd f)) ∧
  0 ≤ msg_size (fst f) < 2 ^ 32 ∧
  0 ≤ msg_code (fst f) < 256 ∧
  0 ≤ msg_chan (fst f) < 2 ^ 32.

(** The bytes of the replies finished by a sequence of operations each of
    which succeeds, with the reply left under construction: its channel and
    the payload appended so far. *)
Fixpoint replies (os : list out_op) (cur : option (Z * list byte))
  : list byte * option (Z * list byte) :=
  match os with
  | [] => ([], cur)
  | o :: os' =>
      match o, cur with
      | OpStart c, _ => replies os' (Some (to_uint c, []))
      | OpAppend len src, Some (c, p) =>
          replies os' (Some (c, p ++ take (Z.to_nat len) src))
      | OpFinish, Some (c, p) =>
          let '(bs, cur') := replies os' None in
          (encode_hdr (mkHdr (Z.of_nat (length p)) CODE_R c) ++ p ++ bs, cur')
      | _, _ => replies os' cur
      end
  end.

(** The builder is in the state [cur] describes. *)
Definition tracks (cur : option (Z * list byte)) (s : stream_data_t) : Prop :=
  match cur with
  | None => idle s
  | Some (c, p) => building s c p
  end.

(** * Machine integers and bytes *)

Lemma to_int_id z : - 2 ^ 31 ≤ z ≤ INT_MAX → to_int z = z.
Proof. unfold to_int, INT_MAX. intros H. rewrite Z.mod_small; lia. Qed.

Lemma to_uint_id z : 0 ≤ z < 2 ^ 32 → to_uint z = z.
Proof. unfold to_uint. intros H. apply Z.mod_small; lia. Qed.

Lemma to_uint_range z : 0 ≤ to_uint z < 2 ^ 32.
Proof. unfold to_uint. apply Z.mod_pos_bound. lia. Qed.

Lemma to_size_t_id z : 0 ≤ z < 2 ^ 64 → to_size_t z = z.
Proof. unfold to_size_t. intros H. apply Z.mod_small; lia. Qed.

Lemma byte_to_Z_range b : 0 ≤ byte_to_Z b < 256.
Proof. unfold byte_to_Z. pose proof (Byte.to_N_bounded b). lia. Qed.

Lemma byte_to_of_Z z : byte_to_Z (byte_of_Z z) = z mod 256.
Proof.
  unfold byte_to_Z, byte_of_Z.
  assert (Hr : 0 ≤ z mod 256 < 256) by (apply Z.mod_pos_bound; lia).
  destruct (Byte.of_N (Z.to_N (z mod 256))) as [b|] eqn:E.
  - simpl. apply Byte.to_of_N in E. rewrite E. lia.
  - apply Byte.of_N_None_iff in E. lia.
Qed.

Lemma byte_of_to_Z b : byte_of_Z (byte_to_Z b) = b.
Proof.
  unfold byte_of_Z, byte_to_Z. pose proof (Byte.to_N_bounded b).
  rewrite Z.mod_small by lia. rewrite N2Z.id, Byte.of_to_N. reflexivity.
Qed.

Lemma length_le32 z : length (le32 z) = 4%nat.
Proof. reflexivity. Qed.

Lemma un_le32_le32 z : un_le32 (le32 z) = z mod 2 ^ 32.
Proof.
  unfold le32, un_le32. rewrite !byte_to_of_Z.
  change (2 ^ 8) with 256. change (2 ^ 16) with (256 * 256).
  change (2 ^ 24) with (256 * 256 * 256). change (2 ^ 32) with (256 * (256 * (256 * 256))).
  rewrite <- !Z.div_div by lia.
  rewrite !Z.rem_mul_r by lia. lia.
Qed.

Lemma un_le32_range bs : 0 ≤ un_le32 bs < 2 ^ 32.
Proof.
  unfold un_le32.
  destruct bs as [|b0 [|b1 [|b2 [|b3 [|? ?]]]]]; try lia.
  pose proof (byte_to_Z_range b0). pose proof (byte_to_Z_range b1).
  pose proof (byte_to_Z_range b2). pose proof (byte_to_Z_range b3). lia.
Qed.

Lemma length_encode_hdr h : Z.of_nat (length (encode_hdr h)) = HDR.
Proof. reflexivity. Qed.

Lemma decode_encode_hdr h p :
  decode_hdr (encode_hdr h ++ p) =
  mkHdr (to_uint (msg_size h)) (msg_code h mod 256) (to_uint (msg_chan h)).
Proof.
  unfold decode_hdr, encode_hdr. cbn [le32 app take drop].
  f_equal.
  - apply (un_le32_le32 (msg_size h)).
  - unfold un_le32. rewrite byte_to_of_Z. change (byte_to_Z x00) with 0. lia.
  - apply (un_le32_le32 (msg_chan h)).
Qed.

Lemma decode_hdr_size_range bs : 0 ≤ msg_size (decode_hdr bs) < 2 ^ 32.
Proof. apply un_le32_range. Qed.

Lemma decode_hdr_chan_range bs : 0 ≤ msg_chan (decode_hdr bs) < 2 ^ 32.
Proof. apply un_le32_range. Qed.

(** * Loads and stores *)

Lemma load_Some mem off n bs :
  load mem off n = Some bs ↔
  0 ≤ off ∧ 0 ≤ n ∧ off + n ≤ Z.of_nat (length mem) ∧
  bs = take (Z.to_nat n) (drop (Z.to_nat off) mem).
Proof.
  unfold load. case_bool_decide as Hc.
  - split; [intros [= <-]; tauto | intros (? & ? & ? & ->); reflexivity].
  - split; [discriminate | intros (? & ? & ? & _); lia].
Qed.

Lemma load_length mem off n bs :
  load mem off n = Some bs → Z.of_nat (length bs) = n.
Proof.
  rewrite load_Some. intros (? & ? & ? & ->).
  rewrite length_take, length_drop. lia.
Qed.

Lemma load_is_Some mem off n :
  0 ≤ off → 0 ≤ n → off + n ≤ Z.of_nat (length mem) → is_Some (load mem off n).
Proof. intros. unfold load. rewrite bool_decide_true by lia. eauto. Qed.

Lemma store_Some mem off bs mem' :
  store mem off bs = Some mem' ↔
  0 ≤ off ∧ off + Z.of_nat (length bs) ≤ Z.of_nat (length mem) ∧
  mem' = take (Z.to_nat off) mem ++ bs ++ drop (Z.to_nat off + length bs) mem.
Proof.
  unfold store. case_bool_decide as Hc.
  - split; [intros [= <-]; tauto | intros (? & ? & ->); reflexivity].
  - split; [discriminate | intros (? & ? & _); lia].
Qed.

Lemma store_is_Some mem off bs :
  0 ≤ off → off + Z.of_nat (length bs) ≤ Z.of_nat (length mem) →
  is_Some (store mem off bs).
Proof. intros. unfold store. rewrite bool_decide_true by lia. eauto. Qed.

Lemma store_length mem off bs mem' :
  store mem off bs = Some mem' → length mem' = length mem.
Proof.
  rewrite store_Some. intros (? & ? & ->).
  rewrite !length_app, length_take, length_drop. lia.
Qed.

Lemma load_store_same mem off bs mem' :
  store mem off bs = Some mem' → load mem' off (Z.of_nat (length bs)) = Some bs.
Proof.
  intros Hs. pose proof (store_length _ _ _ _ Hs) as Hl.
  apply store_Some in Hs as (? & ? & ->).
  apply load_Some. repeat split; try lia.
  rewrite drop_app_length'; [|rewrite length_take; lia].
  rewrite Nat2Z.id, take_app_length. reflexivity.
Qed.

Lemma load_store_before mem off bs mem' off' n :
  store mem off bs = Some mem' → off' + n ≤ off →
  load mem' off' n = load mem off' n.
Proof.
  intros Hs Hle. pose proof (store_length _ _ _ _ Hs) as Hl.
  apply store_Some in Hs as (? & ? & ->).
  unfold load. rewrite Hl.
  case_bool_decide as Hc; [|reflexivity]. f_equal.
  rewrite !take_drop_commute. f_equal.
  rewrite take_app_le by (rewrite length_take; lia).
  rewrite take_take, Nat.min_l by lia. reflexivity.
Qed.

Lemma load_store_after mem off bs mem' off' n :
  store mem off bs = Some mem' → off + Z.of_nat (length bs) ≤ off' →
  load mem' off' n = load mem off' n.
Proof.
  intros Hs Hle. pose proof (store_length _ _ _ _ Hs) as Hl.
  apply store_Some in Hs as (? & ? & ->).
  unfold load. rewrite Hl.
  case_bool_decide as Hc; [|reflexivity]. f_equal. f_equal.
  rewrite app_assoc.
  rewrite drop_app_ge; [|rewrite length_app, length_take; lia].
  rewrite length_app, length_take, drop_drop. f_equal. lia.
Qed.

Lemma load_app mem off n1 n2 a b :
  load mem off n1 = Some a → load mem (off + n1) n2 = Some b →
  load mem off (n1 + n2) = Some (a ++ b).
Proof.
  rewrite !load_Some. intros (? & ? & ? & ->) (? & ? & ? & ->).
  repeat split; try lia.
  replace (Z.to_nat (n1 + n2)) with (Z.to_nat n1 + Z.to_nat n2)%nat by lia.
  rewrite <- take_take_drop, drop_drop.
  replace (Z.to_nat (off + n1)) with (Z.to_nat off + Z.to_nat n1)%nat by lia.
  reflexivity.
Qed.

Lemma load_split mem off n1 n2 bs :
  0 ≤ n1 → 0 ≤ n2 → load mem off (n1 + n2) = Some bs →
  load mem off n1 = Some (take (Z.to_nat n1) bs) ∧
  load mem (off + n1) n2 = Some (drop (Z.to_nat n1) bs).
Proof.
  intros ? ?. rewrite !load_Some. intros (? & ? & ? & ->).
  replace (Z.to_nat (n1 + n2)) with (Z.to_nat n1 + Z.to_nat n2)%nat by lia.
  replace (Z.to_nat (off + n1)) with (Z.to_nat off + Z.to_nat n1)%nat by lia.
  rewrite <- take_take_drop, drop_drop.
  split; repeat split; try lia.
  - rewrite take_app_le by (rewrite length_take, length_drop; lia).
    rewrite take_idemp. reflexivity.
  - rewrite drop_app_length' by (rewrite length_take, length_drop; lia).
    reflexivity.
Qed.

Lemma load_zero mem off :
  0 ≤ off ≤ Z.of_nat (length mem) → load mem off 0 = Some [].
Proof. intros. apply load_Some. repeat split; try lia. Qed.

(** * The monad *)

Lemma bind_Ok {A B} (m : res A) (f : A → res B) b :
  m ≫= f = Ok b ↔ ∃ a, m = Ok a ∧ f a = Ok b.
Proof.
  destruct m; cbn; split; try (intros (? & ? & ?)); try discriminate; eauto.
  congruence.
Qed.

Lemma access_Ok {A} (o : option A) a : access o = Ok a ↔ o = Some a.
Proof. destruct o; cbn; split; congruence. Qed.

Lemma assert_Ok c u : assert c = Ok u ↔ c = true.
Proof. destruct c, u; cbn; split; congruence. Qed.

Lemma read_hdr_Ok mem off h :
  read_hdr mem off = Ok h ↔ ∃ bs, load mem off HDR = Some bs ∧ h = decode_hdr bs.
Proof.
  unfold read_hdr. rewrite access_Ok.
  destruct (load mem off HDR); cbn; split.
  - intros [= <-]. eauto.
  - intros (? & [= <-] & ->). reflexivity.
  - discriminate.
  - intros (? & ? & _). discriminate.
Qed.

Lemma read_hdr_load mem off bs :
  load mem off HDR = Some bs → read_hdr mem off = Ok (decode_hdr bs).
Proof. intros H. apply read_hdr_Ok. eauto. Qed.

(** * Parameters *)

Hypothesis BUFFER_SIZE_lo : HDR ≤ BUFFER_SIZE.
Hypothesis BUFFER_SIZE_hi : BUFFER_SIZE ≤ INT_MAX.

(** * Flushing *)

Lemma send_wire sk buf n sk' :
  send sk buf = (n, sk') →
  sock_fd sk' = sock_fd sk ∧ sock_in sk' = sock_in sk ∧ closed sk' = closed sk ∧
  (length (sock_out sk') ≤ length (sock_out sk))%nat ∧
  ((n = -1 ∧ wire sk' = wire sk) ∨
   (0 ≤ n ≤ Z.of_nat (length buf) ∧ wire sk' = wire sk ++ take (Z.to_nat n) buf ∧
    (length (sock_out sk') < length (sock_out sk))%nat)).
Proof.
  unfold send. destruct (sock_out sk) as [|r rest] eqn:E.
  - intros [= <- <-]. rewrite E. cbn. repeat split; auto.
  - case_bool_decide; intros [= <- <-]; cbn; repeat split; auto; try lia.
    right. repeat split; try lia.
Qed.

Lemma send_loop_wire fuel : ∀ sk mem cursor tosend b sk',
  0 ≤ cursor → tosend ≤ INT_MAX →
  send_loop fuel sk mem cursor tosend = Ok (b, sk') →
  sock_fd sk' = sock_fd sk ∧ sock_in sk' = sock_in sk ∧ closed sk' = closed sk ∧
  ∃ k, 0 ≤ k ≤ Z.max 0 tosend ∧ (b = true → k = Z.max 0 tosend) ∧
       wire sk' = wire sk ++ take (Z.to_nat k) (drop (Z.to_nat cursor) mem).
Proof.
  induction fuel as [|fuel IH]; intros sk mem cursor tosend b sk' Hc Ht; cbn.
  - case_bool_decide; [discriminate|]. intros [= <- <-].
    repeat split; auto. exists 0. rewrite Z.max_l by lia. cbn.
    rewrite app_nil_r. repeat split; auto; lia.
  - case_bool_decide as Hpos.
    2:{ intros [= <- <-]. repeat split; auto. exists 0. rewrite Z.max_l by lia.
        cbn. rewrite app_nil_r. repeat split; auto; lia. }
    intros H. apply bind_Ok in H as (buf & Hbuf & H). apply access_Ok in Hbuf.
    pose proof (load_length _ _ _ _ Hbuf) as Hlen.
    apply load_Some in Hbuf as (_ & _ & Hin & ->).
    destruct (send sk _) as [sent sk1] eqn:Es.
    apply send_wire in Es as (Hfd & Hin' & Hcl & _ & Hw).
    case_bool_decide as Hs.
    + injection H as <- <-. repeat split; auto.
      destruct Hw as [[_ Hw]|[? _]]; [|lia].
      exists 0. cbn. rewrite app_nil_r. split; [lia|]. split; [discriminate|auto].
    + destruct Hw as [[? _]|(Hr & Hw & _)]; [lia|].
      rewrite Hlen in Hr.
      rewrite to_int_id in H by (unfold INT_MAX in *; lia).
      apply bind_Ok in H as (_ & _ & H).
      apply IH in H as (Hfd2 & Hin2 & Hcl2 & k & Hk & Hb & Hw2); [|lia|lia].
      repeat split; try congruence.
      exists (sent + k). split; [lia|]. split; [intros Hbt; specialize (Hb Hbt); lia|].
      rewrite Hw2, Hw, <- app_assoc. f_equal.
      rewrite take_take, Nat.min_l by lia.
      replace (Z.to_nat (sent + k)) with (Z.to_nat sent + Z.to_nat k)%nat by lia.
      rewrite <- take_take_drop, drop_drop.
      replace (Z.to_nat (cursor + sent)) with (Z.to_nat cursor + Z.to_nat sent)%nat by lia.
      reflexivity.
Qed.

Lemma send_loop_total fuel : ∀ sk mem cursor tosend,
  (length (sock_out sk) < fuel)%nat →
  0 ≤ cursor → cursor + tosend ≤ Z.of_nat (length mem) → tosend ≤ INT_MAX →
  ∃ b sk', send_loop fuel sk mem cursor tosend = Ok (b, sk').
Proof.
  induction fuel as [|fuel IH]; intros sk mem cursor tosend Hf Hc Hin Ht; [lia|].
  cbn. case_bool_decide as Hpos; [|eauto].
  destruct (load_is_Some mem cursor tosend) as [buf Hbuf]; try lia.
  rewrite Hbuf. cbn. pose proof (load_length _ _ _ _ Hbuf) as Hlen.
  destruct (send sk buf) as [sent sk1] eqn:Es.
  apply send_wire in Es as (_ & _ & _ & Hle & Hw).
  case_bool_decide as Hs; [eauto|].
  destruct Hw as [[? _]|(Hr & _ & Hlt)]; [lia|].
  rewrite to_int_id by (unfold INT_MAX in *; lia).
  rewrite bool_decide_true by lia. cbn.
  apply IH; lia.
Qed.

Lemma same_frame_refl s : same_frame s s.
Proof. repeat split. Qed.

Lemma same_frame_trans s1 s2 s3 :
  same_frame s1 s2 → same_frame s2 s3 → same_frame s1 s3.
Proof. unfold same_frame. intuition congruence. Qed.

Lemma committed_load s :
  0 ≤ ready (output s) ≤ Z.of_nat (length (data (output s))) →
  load (data (output s)) 0 (ready (output s)) = Some (committed s).
Proof. intros H. apply load_Some. repeat split; try lia. Qed.

Lemma stream_flush_spec s b s' :
  0 ≤ ready (output s) ≤ Z.of_nat (length (data (output s))) →
  Z.of_nat (length (data (output s))) ≤ INT_MAX →
  stream_flush s = Ok (b, s') →
  same_frame s s' ∧
  if b then
    good s' = good s ∧ wire (fd s') = wire (fd s) ++ committed s ∧
    ((s' = s ∧ ready (output s) = 0) ∨
     (ready (output s) ≠ 0 ∧
      match curmessage (output s) with
      | None => output s' = mkBuffer 0 None (data (output s))
      | Some msg => ∃ h m d,
          read_hdr (data (output s)) msg = Ok h ∧
          load (data (output s)) msg (msg_size h + HDR) = Some m ∧
          store (data (output s)) 0 m = Some d ∧
          output s' = mkBuffer 0 (Some 0) d
      end))
  else
    good s' = false ∧ output s' = output s ∧
    ∃ k, wire (fd s') = wire (fd s) ++ take k (committed s).
Proof.
  intros Hr Hmax. unfold stream_flush.
  case_bool_decide as Hz.
  { intros [= <- <-]. split; [apply same_frame_refl|].
    split; [reflexivity|]. split; [|left; auto].
    unfold committed. rewrite Hz. cbn. rewrite app_nil_r. reflexivity. }
  intros H. apply bind_Ok in H as ([sent_all sk] & Hloop & H).
  apply send_loop_wire in Hloop as (Hfd & Hin & Hcl & k & Hk & Hb & Hw); [|lia|lia].
  rewrite drop_0 in Hw.
  destruct sent_all; cbn in H.
  - specialize (Hb eq_refl). rewrite Z.max_r in Hb by lia. subst k.
    destruct (curmessage (output s)) as [msg|] eqn:Ecur.
    + apply bind_Ok in H as (h & Hh & H). apply bind_Ok in H as (m & Hm & H).
      apply bind_Ok in H as (d & Hd & H). apply access_Ok in Hm, Hd.
      injection H as <- <-. cbn. repeat split; auto.
      right. split; [auto|]. exists h, m, d. auto.
    + injection H as <- <-. cbn. repeat split; auto.
  - injection H as <- <-. cbn. repeat split; auto.
    exists (Z.to_nat k). rewrite Hw. f_equal. unfold committed.
    rewrite take_take, Nat.min_l by lia. reflexivity.
Qed.

Lemma stream_flush_total s :
  0 ≤ ready (output s) ≤ Z.of_nat (length (data (output s))) →
  Z.of_nat (length (data (output s))) ≤ INT_MAX →
  curmessage (output s) = None →
  ∃ b s', stream_flush s = Ok (b, s').
Proof.
  intros Hr Hmax Hcur. unfold stream_flush.
  case_bool_decide; [eauto|].
  destruct (send_loop_total (S (length (sock_out (fd s)))) (fd s)
              (data (output s)) 0 (ready (output s))) as (b & sk & ->); try lia.
  cbn. destruct b; cbn; [|eauto]. rewrite Hcur. eauto.
Qed.

Lemma building_bounds s c p :
  building s c p →
  0 ≤ ready (output s) ∧
  ready (output s) + HDR + Z.of_nat (length p) ≤ BUFFER_SIZE ∧
  Z.of_nat (length (data (output s))) = BUFFER_SIZE.
Proof.
  intros (Hlen & Hr & _ & Hl). apply load_Some in Hl as (_ & _ & Hl & _). lia.
Qed.

Lemma building_read_hdr s c p :
  building s c p →
  read_hdr (data (output s)) (ready (output s)) =
    Ok (mkHdr (Z.of_nat (length p)) CODE_R (to_uint c)).
Proof.
  intros Hb. pose proof (building_bounds _ _ _ Hb) as (? & ? & ?).
  destruct Hb as (_ & _ & _ & Hl).
  apply load_split in Hl as [Hl _]; [|unfold HDR; lia|lia].
  rewrite (read_hdr_load _ _ _ Hl).
  rewrite take_app_length' by reflexivity.
  rewrite <- (app_nil_r (encode_hdr _)), decode_encode_hdr.
  cbn [msg_size msg_code msg_chan].
  rewrite to_uint_id by (unfold INT_MAX, HDR in *; lia). reflexivity.
Qed.

Lemma building_inprogress s c p :
  building s c p → inprogress s = HDR + Z.of_nat (length p).
Proof.
  intros Hb. unfold inprogress. pose proof (building_read_hdr _ _ _ Hb) as Hh.
  destruct Hb as (_ & _ & -> & _). rewrite Hh. reflexivity.
Qed.

Lemma idle_inprogress s : idle s → inprogress s = 0.
Proof. intros (_ & _ & Hc). unfold inprogress. rewrite Hc. reflexivity. Qed.

(** A successful flush keeps the builder's state and empties the committed
    region onto the wire. *)
Lemma stream_flush_idle s b s' :
  idle s → stream_flush s = Ok (b, s') →
  same_frame s s' ∧
  if b then idle s' ∧ ready (output s') = 0 ∧ good s' = good s ∧
            wire (fd s') = wire (fd s) ++ committed s
  else good s' = false ∧ output s' = output s ∧
       ∃ k, wire (fd s') = wire (fd s) ++ take k (committed s).
Proof.
  intros (Hlen & Hr & Hcur) H.
  apply stream_flush_spec in H as [Hf H]; [|lia|lia]. split; [exact Hf|].
  destruct b; [|exact H].
  destruct H as (Hg & Hw & [[-> Hz]|[Hnz H]]).
  - repeat split; auto; lia.
  - rewrite Hcur in H. unfold idle. rewrite H. cbn. repeat split; auto; lia.
Qed.

Lemma stream_flush_building s c p b s' :
  building s c p → stream_flush s = Ok (b, s') →
  same_frame s s' ∧
  if b then building s' c p ∧ ready (output s') = 0 ∧ good s' = good s ∧
            wire (fd s') = wire (fd s) ++ committed s
  else good s' = false ∧ output s' = output s ∧
       ∃ k, wire (fd s') = wire (fd s) ++ take k (committed s).
Proof.
  intros Hb H. pose proof (building_bounds _ _ _ Hb) as (Hr & Hfit & Hlen).
  pose proof (building_read_hdr _ _ _ Hb) as Hh.
  apply stream_flush_spec in H as [Hf H]; [|unfold HDR in *; lia|lia].
  split; [exact Hf|]. destruct b; [|exact H].
  destruct H as (Hg & Hw & [[-> Hz]|[Hnz H]]).
  - split; [exact Hb|auto].
  - destruct Hb as (_ & _ & Hcur & Hl). rewrite Hcur in H.
    destruct H as (h & m & d & Hh' & Hm & Hd & Ho).
    rewrite Hh in Hh'. injection Hh' as <-. cbn in Hm.
    rewrite Z.add_comm, Hl in Hm. injection Hm as <-.
    unfold building. rewrite Ho. cbn [ready curmessage data]. split; [|auto].
    pose proof (store_length _ _ _ _ Hd) as Hdl.
    pose proof (load_length _ _ _ _ Hl) as Hll.
    repeat split; cbn; try lia.
    rewrite <- Hll. eapply load_store_same. exact Hd.
Qed.

(** * The reply builder *)

Lemma committed_store s s' off bs d :
  store (data (output s)) off bs = Some d →
  ready (output s) ≤ off → 0 ≤ ready (output s) →
  ready (output s') = ready (output s) → data (output s') = d →
  committed s' = committed s.
Proof.
  intros Hd Hoff Hr Hr' Hd'.
  pose proof (store_length _ _ _ _ Hd) as Hlen.
  pose proof Hd as Hd2. apply store_Some in Hd2 as (? & ? & _).
  assert (Some (committed s') = Some (committed s)) as [= ->]; [|reflexivity].
  rewrite <- !committed_load by (rewrite ?Hr', ?Hd', ?Hlen; lia).
  rewrite Hr', Hd'. eapply load_store_before; [exact Hd|lia].
Qed.

Lemma stream_message_start_spec s c b s' :
  idle s → stream_message_start s c = Ok (b, s') →
  same_frame s s' ∧
  if b then building s' (to_uint c) [] ∧ good s' = good s ∧
            wire (fd s') ++ committed s' = wire (fd s) ++ committed s
  else good s' = false ∧ output s' = output s ∧
       ∃ k, wire (fd s') = wire (fd s) ++ take k (committed s).
Proof.
  intros Hi H. pose proof Hi as (Hlen & Hr & Hcur).
  unfold stream_message_start in H. rewrite Hcur in H.
  apply bind_Ok in H as ([flushed s1] & Hfl & H).
  assert (Hs1 : same_frame s s1 ∧
            if flushed then idle s1 ∧ ready (output s1) + HDR ≤ BUFFER_SIZE ∧
                            good s1 = good s ∧
                            wire (fd s1) ++ committed s1 = wire (fd s) ++ committed s
            else good s1 = false ∧ output s1 = output s ∧
                 ∃ k, wire (fd s1) = wire (fd s) ++ take k (committed s)).
  { rewrite to_int_id, to_size_t_id in Hfl by (unfold INT_MAX, HDR in *; lia).
    case_bool_decide as Hc.
    - apply stream_flush_idle in Hfl as [Hf Hfl]; [|exact Hi].
      split; [exact Hf|]. destruct flushed; [|exact Hfl].
      destruct Hfl as (Hi1 & Hz & Hg & Hw). repeat split; try apply Hi1; auto; try lia.
      assert (committed s1 = []) as -> by (unfold committed; rewrite Hz; reflexivity).
      rewrite Hw, app_nil_r. reflexivity.
    - injection Hfl as <- <-. split; [apply same_frame_refl|].
      repeat split; auto; lia. }
  destruct Hs1 as [Hf Hs1]. destruct flushed; cbn in H.
  - destruct Hs1 as ((Hlen1 & Hr1 & Hcur1) & Hfit & Hg & Hw).
    apply bind_Ok in H as (d & Hd & H). apply access_Ok in Hd.
    injection H as <- <-. split; [exact Hf|]. cbn.
    pose proof (store_length _ _ _ _ Hd) as Hdl.
    split; [|split; [exact Hg|]].
    + unfold building. cbn [output set_output ready curmessage data].
      repeat split; try lia.
      rewrite app_nil_r. change (HDR + Z.of_nat (length [])) with HDR.
      rewrite <- (length_encode_hdr (mkHdr 0 CODE_R (to_uint c))).
      eapply load_store_same. exact Hd.
    + rewrite <- Hw. f_equal.
      eapply committed_store; [exact Hd|..]; cbn; auto; lia.
  - injection H as <- <-. split; [exact Hf|]. cbn. split; [reflexivity|apply Hs1].
Qed.

Lemma stream_message_start_busy s c msg :
  curmessage (output s) = Some msg →
  stream_message_start s c = Ok (false, set_good false s).
Proof. intros H. unfold stream_message_start. rewrite H. reflexivity. Qed.

Lemma stream_message_append_none s len src :
  curmessage (output s) = None →
  stream_message_append s len src = Ok (false, set_good false s).
Proof. intros H. unfold stream_message_append. rewrite H. reflexivity. Qed.

Lemma stream_message_finish_none s :
  curmessage (output s) = None →
  stream_message_finish s = Ok (false, set_good false s).
Proof. intros H. unfold stream_message_finish. rewrite H. reflexivity. Qed.

Lemma encode_hdr_size n c :
  encode_hdr (mkHdr n CODE_R c) = le32 n ++ (byte_of_Z CODE_R :: le32 c).
Proof. reflexivity. Qed.

Lemma stream_message_append_spec s c p len src b s' :
  building s c p → stream_message_append s len src = Ok (b, s') →
  same_frame s s' ∧
  if b then
    ∃ bytes, load src 0 len = Some bytes ∧ building s' c (p ++ bytes) ∧
             good s' = good s ∧
             wire (fd s') ++ committed s' = wire (fd s) ++ committed s
  else good s' = false ∧ output s' = output s ∧
       ∃ k, wire (fd s') = wire (fd s) ++ take k (committed s).
Proof.
  intros Hb H. pose proof (building_bounds _ _ _ Hb) as (Hr & Hfit & Hlen).
  pose proof (building_read_hdr _ _ _ Hb) as Hh.
  pose proof Hb as (_ & _ & Hcur & _).
  unfold stream_message_append in H. rewrite Hcur in H.
  apply bind_Ok in H as (h & Hh' & H). rewrite Hh in Hh'. injection Hh' as <-.
  cbn [msg_size] in H.
  case_bool_decide as Hbig.
  { injection H as <- <-. split; [repeat split|]. cbn. repeat split; auto.
    exists 0%nat. cbn. rewrite app_nil_r. reflexivity. }
  apply bind_Ok in H as ([flushed s1] & Hfl & H).
  assert (Hs1 : same_frame s s1 ∧
            if flushed then building s1 c p ∧ good s1 = good s ∧
                            wire (fd s1) ++ committed s1 = wire (fd s) ++ committed s
            else good s1 = false ∧ output s1 = output s ∧
                 ∃ k, wire (fd s1) = wire (fd s) ++ take k (committed s)).
  { case_bool_decide as Hc.
    - apply stream_flush_building with (c := c) (p := p) in Hfl as [Hf Hfl];
        [|exact Hb].
      split; [exact Hf|]. destruct flushed; [|exact Hfl].
      destruct Hfl as (Hb1 & Hz & Hg & Hw). repeat split; try apply Hb1; auto.
      assert (committed s1 = []) as -> by (unfold committed; rewrite Hz; reflexivity).
      rewrite Hw, app_nil_r. reflexivity.
    - injection Hfl as <- <-. split; [apply same_frame_refl|]. auto. }
  clear Hfl. destruct Hs1 as [Hf Hs1]. destruct flushed; cbn in H.
  2:{ injection H as <- <-. split; [exact Hf|]. cbn. split; [reflexivity|apply Hs1]. }
  destruct Hs1 as (Hb1 & Hg & Hw).
  pose proof (building_bounds _ _ _ Hb1) as (Hr1 & Hfit1 & Hlen1).
  pose proof (building_read_hdr _ _ _ Hb1) as Hh1.
  destruct Hb1 as (_ & _ & Hcur1 & Hl1).
  rewrite Hcur1 in H.
  apply bind_Ok in H as (h & Hh' & H). rewrite Hh1 in Hh'. injection Hh' as <-.
  cbn [msg_size] in H.
  apply bind_Ok in H as (bytes & Hbytes & H). apply access_Ok in Hbytes.
  apply bind_Ok in H as (d & Hd & H). apply access_Ok in Hd.
  apply bind_Ok in H as (d2 & Hd2 & H). apply access_Ok in Hd2.
  injection H as <- <-. split; [exact Hf|]. cbn [output set_output].
  exists bytes. split; [exact Hbytes|].
  pose proof (load_length _ _ _ _ Hbytes) as Hbl.
  pose proof (store_length _ _ _ _ Hd) as Hdl.
  pose proof (store_length _ _ _ _ Hd2) as Hd2l.
  pose proof Hd as Hd'. apply store_Some in Hd' as (_ & Hdfit & _).
  set (r := ready (output s1)) in *. set (n := Z.of_nat (length p)) in *.
  split; [|split; [exact Hg|]].
  - unfold building. cbn [output set_output ready curmessage data].
    split; [lia|]. split; [lia|]. split; [reflexivity|].
    rewrite length_app, Nat2Z.inj_add. fold n. rewrite Hbl.
    rewrite to_uint_id in Hd2 by (unfold INT_MAX, HDR in *; lia).
    rewrite encode_hdr_size, <- !app_assoc.
    rewrite encode_hdr_size, <- app_assoc in Hl1.
    replace (HDR + (n + len)) with (4 + ((HDR - 4 + n) + len)) by lia.
    replace (HDR + n) with (4 + (HDR - 4 + n)) in Hl1 by lia.
    apply load_split in Hl1 as [_ Hl1]; [|lia|unfold HDR; lia].
    rewrite drop_app_length' in Hl1 by reflexivity.
    apply load_app; [apply (load_store_same _ _ _ _ Hd2)|].
    rewrite app_assoc. apply load_app.
    + rewrite (load_store_after _ _ _ _ _ _ Hd2) by (cbn; lia).
      rewrite (load_store_before _ _ _ _ _ _ Hd) by lia. exact Hl1.
    + rewrite (load_store_after _ _ _ _ _ _ Hd2) by (cbn; unfold HDR; lia).
      replace (r + 4 + (HDR - 4 + n)) with (r + n + HDR) by lia.
      rewrite <- Hbl. apply (load_store_same _ _ _ _ Hd).
  - rewrite <- Hw. f_equal.
    assert (Hc1 : committed (set_output (mkBuffer r (Some r) d) s1) = committed s1).
    { eapply committed_store; [exact Hd|..]; cbn; auto; fold r; unfold HDR in *; lia. }
    rewrite <- Hc1.
    eapply (committed_store (set_output (mkBuffer r (Some r) d) s1)); cbn;
      [exact Hd2|..]; auto; lia.
Qed.

Lemma stream_message_finish_spec s c p :
  building s c p →
  ∃ s', stream_message_finish s = Ok (true, s') ∧
        same_frame s s' ∧ idle s' ∧ good s' = good s ∧ fd s' = fd s ∧
        ready (output s') = ready (output s) + HDR + Z.of_nat (length p) ∧
        committed s' =
          committed s ++ encode_hdr (mkHdr (Z.of_nat (length p)) CODE_R c) ++ p.
Proof.
  intros Hb. pose proof (building_bounds _ _ _ Hb) as (Hr & Hfit & Hlen).
  pose proof (building_read_hdr _ _ _ Hb) as Hh.
  destruct Hb as (_ & _ & Hcur & Hl).
  unfold stream_message_finish. rewrite Hcur, Hh. cbn [mbind res_mbind res_bind msg_size].
  rewrite !to_int_id by (rewrite ?to_int_id; unfold INT_MAX, HDR in *; lia).
  rewrite bool_decide_true by lia. cbn [assert res_bind].
  eexists. split; [reflexivity|].
  split; [repeat split|].
  split; [unfold idle; cbn [output set_output ready curmessage data];
          repeat split; unfold HDR in *; lia|].
  split; [reflexivity|]. split; [reflexivity|].
  split; [cbn [output set_output ready]; lia|].
  unfold committed. cbn [output set_output ready data].
  assert (Hc : load (data (output s)) 0 (ready (output s)) =
               Some (take (Z.to_nat (ready (output s))) (data (output s)))).
  { apply load_Some. repeat split; unfold HDR in *; try lia. }
  pose proof (load_app _ _ _ _ _ _ Hc Hl) as Hall.
  apply load_Some in Hall as (_ & _ & _ & Hall). rewrite drop_0 in Hall.
  rewrite Hall. f_equal. lia.
Qed.

Lemma stream_init_idle sk : idle (stream_init sk).
Proof.
  unfold idle, stream_init. cbn. rewrite length_replicate.
  unfold HDR in *. repeat split; lia.
Qed.

Lemma out_inv_same_output s s' : output s' = output s → out_inv s → out_inv s'.
Proof. unfold out_inv, idle, building. intros ->. auto. Qed.

(** An operation that returns, whether it succeeds or fails, keeps the
    invariant of the builder. *)
Lemma run_op_out_inv o s b s' :
  out_inv s → run_op o s = Ok (b, s') → out_inv s'.
Proof.
  intros Hinv H.
  assert (Hfail : output s' = output s → out_inv s')
    by (intros Ho; exact (out_inv_same_output _ _ Ho Hinv)).
  destruct Hinv as [Hi|(c & p & Hb)]; destruct o as [c'|len src| |]; cbn in H.
  - apply stream_message_start_spec in H as [_ H]; [|exact Hi].
    destruct b; [right; exists (to_uint c'), []; apply H|apply Hfail, H].
  - rewrite stream_message_append_none in H by apply Hi.
    injection H as <- <-. apply Hfail. reflexivity.
  - rewrite stream_message_finish_none in H by apply Hi.
    injection H as <- <-. apply Hfail. reflexivity.
  - apply stream_flush_idle in H as [_ H]; [|exact Hi].
    destruct b; [left; apply H|apply Hfail, H].
  - erewrite stream_message_start_busy in H by apply Hb.
    injection H as <- <-. apply Hfail. reflexivity.
  - eapply stream_message_append_spec in H as [_ H]; [|exact Hb].
    destruct b; [|apply Hfail, H].
    destruct H as (bytes & _ & Hb' & _). right. eauto.
  - destruct (stream_message_finish_spec _ _ _ Hb) as (s3 & Hfin & _ & Hi & _).
    rewrite Hfin in H. injection H as <- <-. left. exact Hi.
  - eapply stream_flush_building in H as [_ H]; [|exact Hb].
    destruct b; [right; exists c, p; apply H|apply Hfail, H].
Qed.

Lemma run_ops_out_inv os : ∀ s s',
  out_inv s → run_ops os s = Some s' → out_inv s'.
Proof.
  induction os as [|o os IH]; intros s s' Hinv H; cbn in H.
  - injection H as <-. exact Hinv.
  - destruct (run_op o s) as [[[] s1]| | |] eqn:E; try discriminate.
    eapply IH; [|exact H]. eapply run_op_out_inv; eauto.
Qed.

Lemma out_inv_capacity s :
  out_inv s →
  0 ≤ ready (output s) ∧ 0 ≤ inprogress s ∧
  ready (output s) + inprogress s ≤ BUFFER_SIZE.
Proof.
  intros [Hi|(c & p & Hb)].
  - rewrite (idle_inprogress _ Hi). destruct Hi as (_ & ? & _). lia.
  - rewrite (building_inprogress _ _ _ Hb).
    apply building_bounds in Hb. unfold HDR in *. lia.
Qed.

(** Between start and finish the builder stays in the building state and
    the bytes on the wire followed by the committed bytes do not change. *)
Lemma run_mid_ops os : ∀ s c p s',
  Forall mid_op os → building s c p → run_ops os s = Some s' →
  building s' c (p ++ payload_of os) ∧ good s' = good s ∧ same_frame s s' ∧
  wire (fd s') ++ committed s' = wire (fd s) ++ committed s.
Proof.
  induction os as [|o os IH]; intros s c p s' Hmid Hb H; cbn in H.
  - injection H as <-. cbn. rewrite app_nil_r.
    split; [exact Hb|]. split; [reflexivity|]. split; [apply same_frame_refl|reflexivity].
  - inversion Hmid as [|o' os' Ho Hmid']; subst o' os'. clear Hmid.
    rename Hmid' into Hmid.
    destruct (run_op o s) as [[[] s1]| | |] eqn:E; try discriminate.
    destruct o as [c'|len src| |]; cbn in Ho, E; try contradiction.
    + eapply stream_message_append_spec in E as [Hf (bytes & Hbytes & Hb1 & Hg & Hw)];
        [|exact Hb].
      destruct (IH _ _ _ _ Hmid Hb1 H) as (Hb' & Hg' & Hf' & Hw').
      apply load_Some in Hbytes as (_ & _ & _ & Hbytes). rewrite drop_0 in Hbytes.
      cbn [payload_of]. rewrite app_assoc, <- Hbytes.
      split; [exact Hb'|]. split; [congruence|].
      split; [eapply same_frame_trans; eauto|congruence].
    + eapply stream_flush_building in E as [Hf (Hb1 & Hz & Hg & Hw)]; [|exact Hb].
      destruct (IH _ _ _ _ Hmid Hb1 H) as (Hb' & Hg' & Hf' & Hw').
      cbn [payload_of]. split; [exact Hb'|]. split; [congruence|].
      split; [eapply same_frame_trans; eauto|].
      rewrite Hw', Hw.
      assert (committed s1 = []) as -> by (unfold committed; rewrite Hz; reflexivity).
      rewrite app_nil_r. reflexivity.
Qed.

(** The whole protocol: start, appends and flushes, finish. *)
Lemma reply_built s c os s1 s2 :
  idle s → stream_message_start s c = Ok (true, s1) →
  Forall mid_op os → run_ops os s1 = Some s2 →
  building s2 (to_uint c) (payload_of os) ∧ good s2 = good s ∧
  wire (fd s2) ++ committed s2 = wire (fd s) ++ committed s ∧
  ∃ s3, stream_message_finish s2 = Ok (true, s3) ∧
        idle s3 ∧ good s3 = good s ∧ fd s3 = fd s2 ∧
        ready (output s3) =
          ready (output s2) + HDR + Z.of_nat (length (payload_of os)) ∧
        committed s3 =
          committed s2 ++
          encode_hdr (mkHdr (Z.of_nat (length (payload_of os))) CODE_R (to_uint c)) ++
          payload_of os.
Proof.
  intros Hi Hst Hmid Hrun.
  apply stream_message_start_spec in Hst as [_ (Hb & Hg & Hw)]; [|exact Hi].
  destruct (run_mid_ops _ _ _ _ _ Hmid Hb Hrun) as (Hb2 & Hg2 & _ & Hw2).
  cbn [app] in Hb2.
  split; [exact Hb2|]. split; [congruence|]. split; [congruence|].
  destruct (stream_message_finish_spec _ _ _ Hb2) as (s3 & Hfin & _ & Hi3 & Hg3 & Hfd & Hr & Hc).
  exists s3. repeat split; try apply Hi3; auto; congruence.
Qed.

(** The size check of [stream_message_append] compares the truncated
    [newsize]; when that passes although the payload does not fit, the
    copy runs past the buffer. *)
Lemma stream_message_append_unchecked s c p len src :
  building s c p →
  append_newsize (Z.of_nat (length p)) len ≤ BUFFER_SIZE →
  to_int (ready (output s) + append_newsize (Z.of_nat (length p)) len) ≤ BUFFER_SIZE →
  BUFFER_SIZE < ready (output s) + Z.of_nat (length p) + HDR + len →
  stream_message_append s len src = Undefined.
Proof.
  intros Hb Hn Hf Hover. pose proof (building_bounds _ _ _ Hb) as (Hr & Hfit & Hlen).
  pose proof (building_read_hdr _ _ _ Hb) as Hh.
  destruct Hb as (_ & _ & Hcur & _).
  unfold stream_message_append. rewrite Hcur, Hh.
  cbn [mbind res_mbind res_bind msg_size].
  rewrite !bool_decide_false by lia.
  cbn [mbind res_mbind res_bind negb]. rewrite Hcur, Hh.
  cbn [mbind res_mbind res_bind msg_size].
  destruct (load src 0 len) as [bytes|] eqn:E; [|reflexivity].
  apply load_length in E. cbn [access]. cbn [mbind res_mbind res_bind].
  destruct (store (data (output s)) _ bytes) as [d|] eqn:Es; [|reflexivity].
  apply store_Some in Es as (_ & Es & _). lia.
Qed.

(** Within the range of [int] the size check is exact. *)
Lemma stream_message_append_oversize s c p len src :
  building s c p → 0 ≤ len →
  BUFFER_SIZE < Z.of_nat (length p) + HDR + len ≤ INT_MAX →
  stream_message_append s len src = Ok (false, set_good false s).
Proof.
  intros Hb Hlen0 Hover. pose proof (building_read_hdr _ _ _ Hb) as Hh.
  destruct Hb as (_ & _ & Hcur & _).
  unfold stream_message_append. rewrite Hcur, Hh.
  cbn [mbind res_mbind res_bind msg_size]. unfold append_newsize.
  rewrite to_int_id by (unfold INT_MAX, HDR in *; lia).
  rewrite bool_decide_true by lia. reflexivity.
Qed.

(** * The claims on the write path *)

(** C9. A misuse of the reply builder is rejected atomically. Starting a
    message while the previous one is unfinished, and appending to or
    finishing a message that was not started, return false and mark the
    stream bad; the output buffer, and with it the committed byte count
    [output.ready], is left as it was. *)
Theorem misuse_rejected (s : stream_data_t) (c len : Z) (src : list byte) :
  (is_Some (curmessage (output s)) →
   ∃ s', stream_message_start s c = Ok (false, s') ∧
         good s' = false ∧ output s' = output s ∧
         ready (output s') = ready (output s)) ∧
  (curmessage (output s) = None →
   (∃ s', stream_message_append s len src = Ok (false, s') ∧
          good s' = false ∧ output s' = output s ∧
          ready (output s') = ready (output s)) ∧
   (∃ s', stream_message_finish s = Ok (false, s') ∧
          good s' = false ∧ output s' = output s ∧
          ready (output s') = ready (output s))).
Proof.
  split.
  - intros [msg Hmsg]. exists (set_good false s).
    split; [eapply stream_message_start_busy; exact Hmsg|]. cbn. auto.
  - intros Hnone. split; exists (set_good false s).
    + split; [apply stream_message_append_none; exact Hnone|]. cbn. auto.
    + split; [apply stream_message_finish_none; exact Hnone|]. cbn. auto.
Qed.

(** C3. For a reply built by start, any appends and flushes, then finish:
    up to the finish the message sits at offset [output.ready], behind the
    committed region, and the bytes sent followed by the bytes committed
    are those of before the start; a flush at that point, whether it
    succeeds or fails, sends bytes of the committed region only, so no flush
    sends any byte of the unfinished frame. The finish succeeds, clears the
    current-message cursor and moves [output.ready] forward by exactly the
    header size plus the accumulated payload size, committing the frame. *)
Theorem reply_committed_at_finish (s : stream_data_t) (c : Z) (os : list out_op)
    (s1 s2 : stream_data_t) :
  idle s → stream_message_start s c = Ok (true, s1) →
  Forall mid_op os → run_ops os s1 = Some s2 →
  curmessage (output s2) = Some (ready (output s2)) ∧
  wire (fd s2) ++ committed s2 = wire (fd s) ++ committed s ∧
  (∀ b s4, stream_flush s2 = Ok (b, s4) →
           ∃ k, wire (fd s4) = wire (fd s2) ++ take k (committed s2)) ∧
  ∃ s3, stream_message_finish s2 = Ok (true, s3) ∧
        curmessage (output s3) = None ∧
        wire (fd s3) = wire (fd s2) ∧
        ready (output s3) =
          ready (output s2) + HDR + Z.of_nat (length (payload_of os)) ∧
        committed s3 =
          committed s2 ++
          encode_hdr (mkHdr (Z.of_nat (length (payload_of os))) CODE_R (to_uint c)) ++
          payload_of os.
Proof.
  intros Hi Hst Hmid Hrun.
  destruct (reply_built _ _ _ _ _ Hi Hst Hmid Hrun)
    as (Hb & _ & Hw & s3 & Hfin & Hi3 & _ & Hfd & Hr & Hc).
  split; [apply Hb|]. split; [exact Hw|]. split.
  { intros b s4 Hfl. eapply stream_flush_building in Hfl as [_ Hfl]; [|exact Hb].
    destruct b.
    - destruct Hfl as (_ & _ & _ & Hw4). exists (length (committed s2)).
      rewrite firstn_all. exact Hw4.
    - destruct Hfl as (_ & _ & k & Hw4). exists k. exact Hw4. }
  exists s3. split; [exact Hfin|]. split; [apply Hi3|].
  split; [rewrite Hfd; reflexivity|]. split; [exact Hr|exact Hc].
Qed.

(** C8, as the code has it. Every reply frame, an error reply included,
    carries the code byte ['r'] (0x72): [stream_message_start] writes it and
    nothing changes it. The frame carries the channel of the request and
    the payload the upper layer appended, and building and committing it
    leaves the [good] flag of the connection as it was. *)
Theorem reply_frame_code (s : stream_data_t) (c : Z) (os : list out_op)
    (s1 s2 s3 : stream_data_t) :
  idle s → stream_message_start s c = Ok (true, s1) →
  Forall mid_op os → run_ops os s1 = Some s2 →
  stream_message_finish s2 = Ok (true, s3) →
  ∃ frame,
    committed s3 = committed s2 ++ frame ∧
    msg_code (decode_hdr frame) = CODE_R ∧
    msg_chan (decode_hdr frame) = to_uint c ∧
    msg_size (decode_hdr frame) = Z.of_nat (length (payload_of os)) ∧
    drop (Z.to_nat HDR) frame = payload_of os ∧
    good s3 = good s.
Proof.
  intros Hi Hst Hmid Hrun Hfin.
  destruct (reply_built _ _ _ _ _ Hi Hst Hmid Hrun)
    as (Hb & _ & _ & s3' & Hfin' & _ & Hg & _ & _ & Hc).
  rewrite Hfin in Hfin'. injection Hfin' as <-.
  apply building_bounds in Hb as (Hr0 & Hfit & _).
  eexists. split; [exact Hc|]. rewrite decode_encode_hdr. cbn [msg_code msg_chan msg_size].
  split; [reflexivity|]. split; [unfold to_uint; apply Z.mod_mod; lia|].
  split; [apply to_uint_id; unfold INT_MAX, HDR in *; lia|].
  split; [apply drop_app_length'; reflexivity|exact Hg].
Qed.

(** * What the client interface leaves alone *)

Lemma keeps_refl s : keeps s s.
Proof. split; reflexivity. Qed.

Lemma keeps_trans s1 s2 s3 : keeps s1 s2 → keeps s2 s3 → keeps s1 s3.
Proof. unfold keeps. intuition congruence. Qed.

Lemma keeps_same s s' : input s' = input s → clients s' = clients s → keeps s s'.
Proof. intros Hi Hc. split; [exact Hi|]. unfold slots. rewrite Hc. reflexivity. Qed.

Lemma stream_flush_keeps s b s' :
  stream_flush s = Ok (b, s') → input s' = input s ∧ clients s' = clients s.
Proof.
  unfold stream_flush. case_bool_decide as Hdec; [intros [= <- <-]; auto|].
  intros H. apply bind_Ok in H as ([ok sk] & _ & H).
  destruct ok; cbn in H.
  - destruct (curmessage (output s)).
    + apply bind_Ok in H as (h & _ & H). apply bind_Ok in H as (m & _ & H).
      apply bind_Ok in H as (d & _ & H). injection H as <- <-. auto.
    + injection H as <- <-. auto.
  - injection H as <- <-. auto.
Qed.

Lemma stream_message_start_keeps s c b s' :
  stream_message_start s c = Ok (b, s') →
  input s' = input s ∧ clients s' = clients s.
Proof.
  unfold stream_message_start. destruct (curmessage (output s)).
  { intros [= <- <-]. auto. }
  intros H. apply bind_Ok in H as ([flushed s1] & Hfl & H).
  assert (input s1 = input s ∧ clients s1 = clients s) as [Hi Hc].
  { case_bool_decide as Hdec; [eapply stream_flush_keeps; eauto|].
    injection Hfl as <- <-. auto. }
  destruct flushed; cbn in H.
  - apply bind_Ok in H as (d & _ & H). injection H as <- <-. auto.
  - injection H as <- <-. auto.
Qed.

Lemma stream_message_append_keeps s len src b s' :
  stream_message_append s len src = Ok (b, s') →
  input s' = input s ∧ clients s' = clients s.
Proof.
  unfold stream_message_append. destruct (curmessage (output s)).
  2:{ intros [= <- <-]. auto. }
  intros H. apply bind_Ok in H as (h & _ & H).
  case_bool_decide as Hbig; [injection H as <- <-; auto|].
  apply bind_Ok in H as ([flushed s1] & Hfl & H).
  assert (input s1 = input s ∧ clients s1 = clients s) as [Hi Hc].
  { case_bool_decide as Hdec; [eapply stream_flush_keeps; eauto|].
    injection Hfl as <- <-. auto. }
  destruct flushed; cbn in H.
  - destruct (curmessage (output s1)); [|discriminate].
    apply bind_Ok in H as (h1 & _ & H). apply bind_Ok in H as (bytes & _ & H).
    apply bind_Ok in H as (d & _ & H). apply bind_Ok in H as (d2 & _ & H).
    injection H as <- <-. auto.
  - injection H as <- <-. auto.
Qed.

Lemma stream_message_finish_keeps s b s' :
  stream_message_finish s = Ok (b, s') →
  input s' = input s ∧ clients s' = clients s.
Proof.
  unfold stream_message_finish. destruct (curmessage (output s)).
  2:{ intros [= <- <-]. auto. }
  intros H. apply bind_Ok in H as (h & _ & H). apply bind_Ok in H as (u & _ & H).
  injection H as <- <-. auto.
Qed.

Lemma client_message_shortcut_keeps s client arg b s' :
  client_message_shortcut s client arg = Ok (b, s') →
  input s' = input s ∧ clients s' = clients s.
Proof.
  unfold client_message_shortcut. intros H.
  apply bind_Ok in H as (cl & _ & H).
  apply bind_Ok in H as ([ok1 s1] & H1 & H).
  apply stream_message_start_keeps in H1 as [Hi1 Hc1].
  destruct ok1; cbn in H; [|injection H as <- <-; auto].
  apply bind_Ok in H as ([ok2 s2] & H2 & H).
  apply stream_message_append_keeps in H2 as [Hi2 Hc2].
  destruct ok2; cbn in H; [|injection H as <- <-; split; congruence].
  apply bind_Ok in H as ([ok3 s3] & H3 & H).
  apply stream_message_finish_keeps in H3 as [Hi3 Hc3].
  destruct ok3; cbn in H; injection H as <- <-; split; congruence.
Qed.

Lemma slots_insert_userdata (cs : list client_data_t) i cl v :
  cs !! i = Some cl →
  (λ cl, (stream cl, chan cl)) <$> <[i := mkClient (stream cl) v (chan cl)]> cs =
  (λ cl, (stream cl, chan cl)) <$> cs.
Proof.
  intros H. rewrite list_fmap_insert. cbn. apply list_insert_id.
  rewrite list_lookup_fmap, H. reflexivity.
Qed.

Lemma do_call_keeps c client s r s' :
  do_call c client s = Ok (r, s') → keeps s s'.
Proof.
  destruct c; cbn; intros H.
  - apply bind_Ok in H as (s1 & H1 & H). injection H as _ <-.
    unfold client_set_userdata in H1. apply bind_Ok in H1 as (cl & Hcl & H1).
    apply access_Ok in Hcl. injection H1 as <-.
    split; [reflexivity|]. unfold slots. cbn. apply slots_insert_userdata. exact Hcl.
  - apply bind_Ok in H as (v & _ & H). injection H as _ <-. apply keeps_refl.
  - apply bind_Ok in H as ([ok s1] & H1 & H). injection H as _ <-.
    unfold client_message_start in H1. apply bind_Ok in H1 as (cl & _ & H1).
    apply stream_message_start_keeps in H1 as [? ?]. apply keeps_same; auto.
  - apply bind_Ok in H as ([ok s1] & H1 & H). injection H as _ <-.
    unfold client_message_append in H1. apply bind_Ok in H1 as (cl & _ & H1).
    apply stream_message_append_keeps in H1 as [? ?]. apply keeps_same; auto.
  - apply bind_Ok in H as ([ok s1] & H1 & H). injection H as _ <-.
    unfold client_message_finish in H1. apply bind_Ok in H1 as (cl & _ & H1).
    apply stream_message_finish_keeps in H1 as [? ?]. apply keeps_same; auto.
  - apply bind_Ok in H as ([ok s1] & H1 & H). injection H as _ <-.
    apply client_message_shortcut_keeps in H1 as [? ?]. apply keeps_same; auto.
Qed.

Lemma run_cb_keeps p : ∀ s u s', run_cb p s = Ok (u, s') → keeps s s'.
Proof.
  induction p as [u0|client c k IH]; intros s u s' H; cbn in H.
  - injection H as _ <-. apply keeps_refl.
  - apply bind_Ok in H as ([r s1] & H1 & H).
    eapply keeps_trans; [eapply do_call_keeps; exact H1|eapply IH; exact H].
Qed.

Lemma invoke_spec ev p w s w' s' :
  invoke ev p w s = Ok (w', s') → trace w' = trace w ++ [ev] ∧ keeps s s'.
Proof.
  unfold invoke. intros H. apply bind_Ok in H as ([u s1] & H1 & H).
  injection H as <- <-. split; [reflexivity|]. eapply run_cb_keeps; exact H1.
Qed.

Lemma keeps_lookup s s' i cl :
  keeps s s' → clients s !! i = Some cl →
  ∃ cl', clients s' !! i = Some cl' ∧ stream cl' = stream cl ∧ chan cl' = chan cl.
Proof.
  intros [_ Hs] Hcl. unfold slots in Hs.
  assert (H : ((λ cl, (stream cl, chan cl)) <$> clients s') !! i =
              Some (stream cl, chan cl)).
  { rewrite Hs, list_lookup_fmap, Hcl. reflexivity. }
  rewrite list_lookup_fmap in H. destruct (clients s' !! i) as [cl'|]; [|discriminate].
  injection H as H1 H2. eauto.
Qed.

Lemma keeps_length s s' : keeps s s' → length (clients s') = length (clients s).
Proof.
  intros [_ Hs]. unfold slots in Hs.
  rewrite <- (length_fmap (λ cl, (stream cl, chan cl)) (clients s')), Hs.
  apply length_fmap.
Qed.

(** * The descriptor of a stream *)

Lemma send_loop_fd fuel : ∀ sk mem cursor tosend b sk',
  send_loop fuel sk mem cursor tosend = Ok (b, sk') → sock_fd sk' = sock_fd sk.
Proof.
  induction fuel as [|fuel IH]; intros sk mem cursor tosend b sk'; cbn.
  - case_bool_decide as Hpos; [discriminate|]. intros [= <- <-]. reflexivity.
  - case_bool_decide as Hpos; [|intros [= <- <-]; reflexivity].
    intros H. apply bind_Ok in H as (buf & _ & H).
    destruct (send sk buf) as [sent sk1] eqn:Es.
    apply send_wire in Es as (Hfd & _).
    case_bool_decide as Hs; [injection H as <- <-; exact Hfd|].
    apply bind_Ok in H as (u & _ & H). apply IH in H. congruence.
Qed.

Lemma stream_flush_fd s b s' :
  stream_flush s = Ok (b, s') → sock_fd (fd s') = sock_fd (fd s).
Proof.
  unfold stream_flush. case_bool_decide as Hdec; [intros [= <- <-]; auto|].
  intros H. apply bind_Ok in H as ([ok sk] & Hl & H). apply send_loop_fd in Hl.
  destruct ok; cbn in H.
  - destruct (curmessage (output s)).
    + apply bind_Ok in H as (h & _ & H). apply bind_Ok in H as (m & _ & H).
      apply bind_Ok in H as (d & _ & H). injection H as <- <-. exact Hl.
    + injection H as <- <-. exact Hl.
  - injection H as <- <-. exact Hl.
Qed.

Lemma stream_message_start_fd s c b s' :
  stream_message_start s c = Ok (b, s') → sock_fd (fd s') = sock_fd (fd s).
Proof.
  unfold stream_message_start. destruct (curmessage (output s)).
  { intros [= <- <-]. auto. }
  intros H. apply bind_Ok in H as ([flushed s1] & Hfl & H).
  assert (Hfd : sock_fd (fd s1) = sock_fd (fd s)).
  { case_bool_decide as Hdec; [eapply stream_flush_fd; eauto|].
    injection Hfl as <- <-. auto. }
  destruct flushed; cbn in H.
  - apply bind_Ok in H as (d & _ & H). injection H as <- <-. exact Hfd.
  - injection H as <- <-. exact Hfd.
Qed.

Lemma stream_message_append_fd s len src b s' :
  stream_message_append s len src = Ok (b, s') → sock_fd (fd s') = sock_fd (fd s).
Proof.
  unfold stream_message_append. destruct (curmessage (output s)).
  2:{ intros [= <- <-]. auto. }
  intros H. apply bind_Ok in H as (h & _ & H).
  case_bool_decide as Hbig; [injection H as <- <-; auto|].
  apply bind_Ok in H as ([flushed s1] & Hfl & H).
  assert (Hfd : sock_fd (fd s1) = sock_fd (fd s)).
  { case_bool_decide as Hdec; [eapply stream_flush_fd; eauto|].
    injection Hfl as <- <-. auto. }
  destruct flushed; cbn in H.
  - destruct (curmessage (output s1)); [|discriminate].
    apply bind_Ok in H as (h1 & _ & H). apply bind_Ok in H as (bytes & _ & H).
    apply bind_Ok in H as (d & _ & H). apply bind_Ok in H as (d2 & _ & H).
    injection H as <- <-. exact Hfd.
  - injection H as <- <-. exact Hfd.
Qed.

Lemma stream_message_finish_fd s b s' :
  stream_message_finish s = Ok (b, s') → sock_fd (fd s') = sock_fd (fd s).
Proof.
  unfold stream_message_finish. destruct (curmessage (output s)).
  2:{ intros [= <- <-]. auto. }
  intros H. apply bind_Ok in H as (h & _ & H). apply bind_Ok in H as (u & _ & H).
  injection H as <- <-. auto.
Qed.

Lemma do_call_fd c client s r s' :
  do_call c client s = Ok (r, s') → sock_fd (fd s') = sock_fd (fd s).
Proof.
  destruct c; cbn; intros H.
  - apply bind_Ok in H as (s1 & H1 & H). injection H as _ <-.
    unfold client_set_userdata in H1. apply bind_Ok in H1 as (cl & _ & H1).
    injection H1 as <-. reflexivity.
  - apply bind_Ok in H as (v & _ & H). injection H as _ <-. reflexivity.
  - apply bind_Ok in H as ([ok s1] & H1 & H). injection H as _ <-.
    unfold client_message_start in H1. apply bind_Ok in H1 as (cl & _ & H1).
    eapply stream_message_start_fd; exact H1.
  - apply bind_Ok in H as ([ok s1] & H1 & H). injection H as _ <-.
    unfold client_message_append in H1. apply bind_Ok in H1 as (cl & _ & H1).
    eapply stream_message_append_fd; exact H1.
  - apply bind_Ok in H as ([ok s1] & H1 & H). injection H as _ <-.
    unfold client_message_finish in H1. apply bind_Ok in H1 as (cl & _ & H1).
    eapply stream_message_finish_fd; exact H1.
  - apply bind_Ok in H as ([ok s1] & H1 & H). injection H as _ <-.
    unfold client_message_shortcut in H1.
    apply bind_Ok in H1 as (cl & _ & H1).
    apply bind_Ok in H1 as ([ok1 s2] & H2 & H1).
    apply stream_message_start_fd in H2.
    destruct ok1; cbn in H1; [|injection H1 as <- <-; exact H2].
    apply bind_Ok in H1 as ([ok2 s3] & H3 & H1).
    apply stream_message_append_fd in H3.
    destruct ok2; cbn in H1; [|injection H1 as <- <-; congruence].
    apply bind_Ok in H1 as ([ok3 s4] & H4 & H1).
    apply stream_message_finish_fd in H4.
    destruct ok3; cbn in H1; injection H1 as <- <-; congruence.
Qed.

Lemma run_cb_fd p : ∀ s u s',
  run_cb p s = Ok (u, s') → sock_fd (fd s') = sock_fd (fd s).
Proof.
  induction p as [u0|client c k IH]; intros s u s' H; cbn in H.
  - injection H as _ <-. reflexivity.
  - apply bind_Ok in H as ([r s1] & H1 & H).
    apply do_call_fd in H1. apply IH in H. congruence.
Qed.

Lemma disconnect_all_fd n : ∀ c w s w' s',
  disconnect_all n c w s = Ok (w', s') → sock_fd (fd s') = sock_fd (fd s).
Proof.
  induction n as [|n IH]; intros c w s w' s' H; cbn [disconnect_all] in H.
  - injection H as <- <-. reflexivity.
  - apply bind_Ok in H as (cl & _ & H). apply bind_Ok in H as ([w1 s1] & H1 & H).
    apply IH in H. rewrite H. destruct (stream cl).
    + unfold invoke in H1. apply bind_Ok in H1 as ([u s2] & H2 & H1).
      injection H1 as <- <-. eapply run_cb_fd; exact H2.
    + injection H1 as <- <-. reflexivity.
Qed.

(** * The channel table *)

Lemma stream_get_client_spec s c isnew s1 :
  stream_get_client s c = Ok (isnew, s1) →
  c < MAX_TRANSACTIONS ∧
  ∃ cl, clients s !! Z.to_nat c = Some cl ∧ isnew = negb (stream cl) ∧
        if stream cl then chan cl = c ∧ s1 = s
        else s1 = set_clients (<[Z.to_nat c := mkClient true 0 c]> (clients s)) s.
Proof.
  unfold stream_get_client. intros H.
  apply bind_Ok in H as (u & Ha & H). apply assert_Ok, bool_decide_eq_true in Ha.
  apply bind_Ok in H as (cl & Hcl & H). apply access_Ok in Hcl.
  split; [exact Ha|]. exists cl. split; [exact Hcl|].
  destruct (stream cl).
  - apply bind_Ok in H as (u' & Hb & H). apply assert_Ok, bool_decide_eq_true in Hb.
    injection H as <- <-. auto.
  - injection H as <- <-. auto.
Qed.

Lemma client_get_userdata_Ok s c v :
  client_get_userdata s c = Ok v ↔
  ∃ cl, clients s !! Z.to_nat c = Some cl ∧ v = userdata cl.
Proof.
  unfold client_get_userdata. split.
  - intros H. apply bind_Ok in H as (cl & Hcl & H). apply access_Ok in Hcl.
    injection H as <-. eauto.
  - intros (cl & -> & ->). reflexivity.
Qed.

(** The delivery of a frame to the callback of its code. *)
Lemma deliver_spec w s cursor msg w' s' :
  (if bool_decide (msg_code msg = MSG_DISCONNECT) then
     ud ← client_get_userdata s (msg_chan msg);
     '(w, s) ← invoke (EvDisconnect (msg_chan msg) ud)
                       (ondisconnect (upper w) (msg_chan msg)) w s;
     cl ← access (clients s !! Z.to_nat (msg_chan msg));
     Ok (w, set_clients
              (<[Z.to_nat (msg_chan msg) := mkClient false (userdata cl) (chan cl)]>
                 (clients s)) s)
   else
     ud ← client_get_userdata s (msg_chan msg);
     invoke (EvMessage (msg_chan msg) ud (msg_size msg) (payload_at s cursor msg))
            (onmessage (upper w) (msg_chan msg) (msg_size msg) (payload_at s cursor msg))
            w s) = Ok (w', s') →
  ∃ cl cl',
    clients s !! Z.to_nat (msg_chan msg) = Some cl ∧
    trace w' = trace w ++
      [delivery (msg_chan msg) (userdata cl) msg (payload_at s cursor msg)] ∧
    input s' = input s ∧
    length (clients s') = length (clients s) ∧
    clients s' !! Z.to_nat (msg_chan msg) = Some cl' ∧
    chan cl' = chan cl ∧
    stream cl' =
      (if bool_decide (msg_code msg = MSG_DISCONNECT) then false else stream cl) ∧
    ∀ i, i ≠ Z.to_nat (msg_chan msg) →
         slots s' !! i = slots s !! i.
Proof.
  unfold delivery. case_bool_decide as Hcode; intros H.
  - apply bind_Ok in H as (ud & Hud & H).
    apply client_get_userdata_Ok in Hud as (cl & Hcl & ->).
    apply bind_Ok in H as ([w1 s1] & Hinv & H).
    apply invoke_spec in Hinv as [Htr Hk].
    apply bind_Ok in H as (cl1 & Hcl1 & H). apply access_Ok in Hcl1.
    injection H as <- <-.
    destruct (keeps_lookup _ _ _ _ Hk Hcl) as (cl1' & Hcl1' & Hst & Hch).
    rewrite Hcl1 in Hcl1'. injection Hcl1' as <-.
    exists cl. eexists. split; [exact Hcl|]. split; [exact Htr|].
    split; [apply Hk|]. cbn [clients set_clients].
    split; [rewrite length_insert; apply keeps_length; exact Hk|].
    split; [apply list_lookup_insert_eq; eapply lookup_lt_Some; exact Hcl1|].
    split; [exact Hch|]. split; [reflexivity|].
    intros i Hi. unfold slots. cbn [clients set_clients].
    rewrite list_fmap_insert, list_lookup_insert_ne by auto.
    destruct Hk as [_ Hk]. unfold slots in Hk. rewrite Hk. reflexivity.
  - apply bind_Ok in H as (ud & Hud & H).
    apply client_get_userdata_Ok in Hud as (cl & Hcl & ->).
    apply invoke_spec in H as [Htr Hk].
    destruct (keeps_lookup _ _ _ _ Hk Hcl) as (cl' & Hcl' & Hst & Hch).
    exists cl, cl'. split; [exact Hcl|]. split; [exact Htr|].
    split; [apply Hk|]. split; [apply keeps_length; exact Hk|].
    split; [exact Hcl'|]. split; [exact Hch|]. split; [exact Hst|].
    intros i _. destruct Hk as [_ Hk]. rewrite Hk. reflexivity.
Qed.

(** What the handling of one frame does, when it returns. *)
Lemma handle_message_spec w s cursor msg w' s' :
  handle_message w s cursor msg = Ok (w', s') →
  msg_chan msg < MAX_TRANSACTIONS ∧
  ∃ cl ud cl',
    clients s !! Z.to_nat (msg_chan msg) = Some cl ∧
    (stream cl = true → chan cl = msg_chan msg ∧ ud = userdata cl) ∧
    trace w' = trace w ++
      (if stream cl then [] else [EvConnect (msg_chan msg) 0]) ++
      [delivery (msg_chan msg) ud msg (payload_at s cursor msg)] ∧
    input s' = input s ∧
    length (clients s') = length (clients s) ∧
    clients s' !! Z.to_nat (msg_chan msg) = Some cl' ∧
    chan cl' = msg_chan msg ∧
    stream cl' = negb (bool_decide (msg_code msg = MSG_DISCONNECT)) ∧
    ∀ i, i ≠ Z.to_nat (msg_chan msg) → slots s' !! i = slots s !! i.
Proof.
  unfold handle_message. intros H.
  apply bind_Ok in H as ([isnew s1] & Hget & H).
  apply stream_get_client_spec in Hget as (Hlt & cl & Hcl & -> & Hs1).
  split; [exact Hlt|].
  apply bind_Ok in H as ([w2 s2] & Hconn & H).
  fold (payload_at s2 cursor msg) in H.
  apply deliver_spec in H
    as (cl2 & cl' & Hcl2 & Htr & Hin & Hlen & Hcl' & Hch & Hst & Hoth).
  destruct (stream cl) eqn:Eocc; cbn [negb] in Hconn.
  - destruct Hs1 as [Hchan ->]. injection Hconn as <- <-.
    rewrite Hcl in Hcl2. injection Hcl2 as <-.
    exists cl, (userdata cl), cl'. rewrite Eocc in Hst. rewrite Eocc.
    split; [exact Hcl|]. split; [auto|]. split; [exact Htr|].
    split; [exact Hin|]. split; [exact Hlen|]. split; [exact Hcl'|].
    split; [congruence|]. split; [destruct (bool_decide _); auto|exact Hoth].
  - subst s1.
    assert (Hlt' : (Z.to_nat (msg_chan msg) < length (clients s))%nat)
      by (eapply lookup_lt_Some; exact Hcl).
    apply bind_Ok in Hconn as (ud0 & Hud0 & Hconn).
    apply client_get_userdata_Ok in Hud0 as (cl0 & Hcl0 & ->).
    cbn [clients set_clients] in Hcl0.
    rewrite list_lookup_insert_eq in Hcl0 by exact Hlt'. injection Hcl0 as <-.
    cbn [userdata] in Hconn.
    apply invoke_spec in Hconn as [Htr1 Hk].
    destruct (keeps_lookup _ _ (Z.to_nat (msg_chan msg)) (mkClient true 0 (msg_chan msg)) Hk)
      as (cl2' & Hcl2' & Hst2 & Hch2).
    { cbn [clients set_clients]. apply list_lookup_insert_eq. exact Hlt'. }
    rewrite Hcl2 in Hcl2'. injection Hcl2' as <-. cbn in Hst2, Hch2.
    exists cl, (userdata cl2), cl'. rewrite Hst2 in Hst. rewrite Eocc.
    split; [exact Hcl|]. split; [discriminate|].
    destruct Hk as [Hki Hks]. cbn [input set_clients] in Hki.
    split.
    { rewrite Htr, Htr1, <- app_assoc. cbn [app].
      unfold payload_at. rewrite Hki. reflexivity. }
    split; [rewrite Hin, Hki; reflexivity|].
    split.
    { rewrite Hlen. unfold slots in Hks.
      rewrite <- (length_fmap (λ cl, (stream cl, chan cl)) (clients s2)), Hks.
      rewrite length_fmap. cbn [clients set_clients]. apply length_insert. }
    split; [exact Hcl'|]. split; [congruence|].
    split; [destruct (bool_decide _); auto|].
    intros i Hi. rewrite (Hoth i Hi), Hks. unfold slots. cbn [clients set_clients].
    rewrite list_fmap_insert, list_lookup_insert_ne by auto. reflexivity.
Qed.

(** * No function but a loop short of fuel runs out of fuel *)

Lemma bind_terminates {A B} (m : res A) (f : A → res B) :
  terminates m → (∀ a, m = Ok a → terminates (f a)) → terminates (m ≫= f).
Proof.
  intros Hm Hf. destruct m; cbn.
  - apply Hf. reflexivity.
  - discriminate.
  - discriminate.
  - exfalso. apply Hm. reflexivity.
Qed.

Lemma access_terminates {A} (o : option A) : terminates (access o).
Proof. destruct o; discriminate. Qed.

Lemma assert_terminates c : terminates (assert c).
Proof. destruct c; discriminate. Qed.

Lemma read_hdr_terminates mem off : terminates (read_hdr mem off).
Proof. apply access_terminates. Qed.

Lemma Ok_terminates {A} (a : A) : terminates (Ok a).
Proof. discriminate. Qed.

Create HintDb term.

#[local] Hint Resolve access_terminates assert_terminates read_hdr_terminates
  Ok_terminates : term.

Lemma send_loop_terminates fuel : ∀ sk mem cursor tosend,
  (length (sock_out sk) < fuel)%nat → terminates (send_loop fuel sk mem cursor tosend).
Proof.
  induction fuel as [|fuel IH]; intros sk mem cursor tosend Hf; [lia|].
  cbn. case_bool_decide; [|auto with term].
  apply bind_terminates; [auto with term|]. intros buf _.
  destruct (send sk buf) as [sent sk1] eqn:Es.
  apply send_wire in Es as (_ & _ & _ & Hle & Hw).
  case_bool_decide as Hs; [auto with term|].
  apply bind_terminates; [auto with term|]. intros _ _.
  apply IH. destruct Hw as [[? _]|(_ & _ & ?)]; lia.
Qed.

Lemma stream_flush_terminates s : terminates (stream_flush s).
Proof.
  unfold stream_flush. case_bool_decide; [auto with term|].
  apply bind_terminates; [apply send_loop_terminates; lia|].
  intros [ok sk] _. destruct ok; cbn; [|auto with term].
  destruct (curmessage _); [|auto with term].
  repeat (apply bind_terminates; [auto with term|]; intros ? _). auto with term.
Qed.

Lemma stream_message_start_terminates s c : terminates (stream_message_start s c).
Proof.
  unfold stream_message_start. destruct (curmessage _); [auto with term|].
  apply bind_terminates.
  { case_bool_decide; [apply stream_flush_terminates|auto with term]. }
  intros [ok s1] _. destruct ok; cbn; [|auto with term].
  apply bind_terminates; [auto with term|]. intros ? _. auto with term.
Qed.

Lemma stream_message_append_terminates s len src :
  terminates (stream_message_append s len src).
Proof.
  unfold stream_message_append. destruct (curmessage _); [|auto with term].
  apply bind_terminates; [auto with term|]. intros h _.
  case_bool_decide; [auto with term|].
  apply bind_terminates.
  { case_bool_decide; [apply stream_flush_terminates|auto with term]. }
  intros [ok s1] _. destruct ok; cbn; [|auto with term].
  destruct (curmessage _); [|discriminate].
  repeat (apply bind_terminates; [auto with term|]; intros ? _). auto with term.
Qed.

Lemma stream_message_finish_terminates s : terminates (stream_message_finish s).
Proof.
  unfold stream_message_finish. destruct (curmessage _); [|auto with term].
  repeat (apply bind_terminates; [auto with term|]; intros ? _). auto with term.
Qed.

Lemma client_stream_terminates s c : terminates (client_stream s c).
Proof.
  unfold client_stream. apply bind_terminates; [auto with term|]. intros cl _.
  destruct (stream cl); [auto with term|discriminate].
Qed.

Lemma do_call_terminates c client s : terminates (do_call c client s).
Proof.
  destruct c; cbn.
  - apply bind_terminates; [|intros; auto with term].
    unfold client_set_userdata. apply bind_terminates; intros; auto with term.
  - apply bind_terminates; [|intros; auto with term].
    unfold client_get_userdata. apply bind_terminates; intros; auto with term.
  - apply bind_terminates; [|intros [? ?] _; auto with term].
    apply bind_terminates; [apply client_stream_terminates|].
    intros; apply stream_message_start_terminates.
  - apply bind_terminates; [|intros [? ?] _; auto with term].
    apply bind_terminates; [apply client_stream_terminates|].
    intros; apply stream_message_append_terminates.
  - apply bind_terminates; [|intros [? ?] _; auto with term].
    apply bind_terminates; [apply client_stream_terminates|].
    intros; apply stream_message_finish_terminates.
  - apply bind_terminates; [|intros [? ?] _; auto with term].
    unfold client_message_shortcut.
    apply bind_terminates; [apply client_stream_terminates|]. intros cl _.
    apply bind_terminates; [apply stream_message_start_terminates|].
    intros [[] s1] _; cbn; [|auto with term].
    apply bind_terminates; [apply stream_message_append_terminates|].
    intros [[] s2] _; cbn; [|auto with term].
    apply bind_terminates; [apply stream_message_finish_terminates|].
    intros [[] s3] _; cbn; auto with term.
Qed.

Lemma run_cb_terminates p : ∀ s, terminates (run_cb p s).
Proof.
  induction p as [u|client c k IH]; intros s; cbn; [auto with term|].
  apply bind_terminates; [apply do_call_terminates|]. intros [r s1] _. apply IH.
Qed.

Lemma invoke_terminates ev p w s : terminates (invoke ev p w s).
Proof.
  unfold invoke. apply bind_terminates; [apply run_cb_terminates|].
  intros [u s1] _. auto with term.
Qed.

Lemma client_get_userdata_terminates s c : terminates (client_get_userdata s c).
Proof. unfold client_get_userdata. apply bind_terminates; intros; auto with term. Qed.

Lemma handle_message_terminates w s cursor msg :
  terminates (handle_message w s cursor msg).
Proof.
  unfold handle_message.
  apply bind_terminates.
  { unfold stream_get_client. apply bind_terminates; [auto with term|]. intros _ _.
    apply bind_terminates; [auto with term|]. intros cl _.
    destruct (stream cl); [|auto with term].
    apply bind_terminates; intros; auto with term. }
  intros [isnew s1] _. apply bind_terminates.
  { destruct isnew; [|auto with term].
    apply bind_terminates; [apply client_get_userdata_terminates|].
    intros; apply invoke_terminates. }
  intros [w2 s2] _. case_bool_decide.
  - apply bind_terminates; [apply client_get_userdata_terminates|]. intros ud _.
    apply bind_terminates; [apply invoke_terminates|]. intros [w3 s3] _.
    apply bind_terminates; intros; auto with term.
  - apply bind_terminates; [apply client_get_userdata_terminates|].
    intros; apply invoke_terminates.
Qed.

(** * The deframing loop against the frames of the buffered bytes *)

Lemma dispatched_app t1 t2 : dispatched (t1 ++ t2) = dispatched t1 ++ dispatched t2.
Proof. unfold dispatched. apply omap_app. Qed.

Lemma dispatched_delivery c ud msg p :
  dispatched [delivery c ud msg p] =
  [if bool_decide (msg_code msg = MSG_DISCONNECT)
   then Disconnect c else Message c (msg_size msg) p].
Proof. unfold delivery. case_bool_decide; reflexivity. Qed.

Lemma handle_message_dispatched w s cursor msg w' s' :
  handle_message w s cursor msg = Ok (w', s') →
  dispatched (trace w') =
    dispatched (trace w) ++ [dispatch_of_frame (msg, payload_at s cursor msg)] ∧
  input s' = input s.
Proof.
  intros H. apply handle_message_spec in H
    as (_ & cl & ud & cl' & _ & _ & Htr & Hin & _).
  split; [|exact Hin]. rewrite Htr, !dispatched_app, dispatched_delivery.
  unfold dispatch_of_frame. cbn [fst snd]. destruct (stream cl); reflexivity.
Qed.

Lemma deframe_fuel n : ∀ m bs,
  (length bs ≤ n)%nat → (length bs ≤ m)%nat → deframe n bs = deframe m bs.
Proof.
  induction n as [|n IH]; intros m bs Hn Hm.
  - destruct bs; [|cbn in Hn; lia]. destruct m; reflexivity.
  - destruct m as [|m].
    + destruct bs; [|cbn in Hm; lia]. reflexivity.
    + cbn [deframe]. case_bool_decide as H1; [|reflexivity].
      case_bool_decide as H2; [|reflexivity].
      pose proof (decode_hdr_size_range (take (Z.to_nat HDR) bs)) as Hsz.
      rewrite (IH m); [reflexivity| |]; rewrite length_drop; unfold HDR in *; lia.
Qed.

Lemma drop_take_drop_nat {A} (l : list A) (c t k : nat) :
  (k ≤ t)%nat → drop k (take t (drop c l)) = take (t - k) (drop (c + k) l).
Proof.
  intros Hk. rewrite <- drop_drop.
  rewrite (take_drop_commute (drop c l) (t - k) k).
  replace (k + (t - k))%nat with t by lia. reflexivity.
Qed.

Lemma take_drop_take_nat {A} (l : list A) (c t k n : nat) :
  (k + n ≤ t)%nat → take n (drop k (take t (drop c l))) = take n (drop (c + k) l).
Proof.
  intros Hk. rewrite drop_take_drop_nat by lia.
  rewrite take_take, Nat.min_l by lia. reflexivity.
Qed.

Lemma handle_loop_spec fuel : ∀ w s cursor toprocess,
  0 ≤ cursor → 0 ≤ toprocess →
  cursor + toprocess ≤ Z.of_nat (length (data (input s))) →
  Z.of_nat (length (data (input s))) ≤ INT_MAX →
  (Z.to_nat toprocess < fuel)%nat →
  fits_int (snd (deframe fuel
     (take (Z.to_nat toprocess) (drop (Z.to_nat cursor) (data (input s)))))) →
  terminates (handle_loop fuel w s cursor toprocess) ∧
  ∀ w' s' exit,
    handle_loop fuel w s cursor toprocess = Ok (w', s', exit) →
    let d := deframe fuel
      (take (Z.to_nat toprocess) (drop (Z.to_nat cursor) (data (input s)))) in
    dispatched (trace w') = dispatched (trace w) ++ (dispatch_of_frame <$> fst d) ∧
    input s' = input s ∧
    match exit with
    | Some (cursor', toprocess') =>
        0 ≤ cursor' ∧ 0 ≤ toprocess' ∧
        cursor' + toprocess' = cursor + toprocess ∧
        snd d = take (Z.to_nat toprocess') (drop (Z.to_nat cursor') (data (input s))) ∧
        ¬ oversize (snd d)
    | None => good s' = false ∧ oversize (snd d)
    end.
Proof.
  induction fuel as [|fuel IH]; intros w s cursor toprocess Hc Ht Hin Hmax Hfuel Hfit;
    [lia|].
  set (mem := data (input s)) in *.
  set (rest := take (Z.to_nat toprocess) (drop (Z.to_nat cursor) mem)) in *.
  assert (Hrl : Z.of_nat (length rest) = toprocess).
  { unfold rest. rewrite length_take, length_drop. lia. }
  cbn [handle_loop deframe] in *. rewrite Hrl in *.
  rewrite to_size_t_id by (unfold INT_MAX in *; lia).
  case_bool_decide as Hhdr.
  2:{ rewrite bool_decide_false in * by lia. split; [auto with term|].
      intros w' s' exit [= <- <- <-]. cbn [fst snd fmap list_fmap].
      rewrite app_nil_r. split; [reflexivity|]. split; [reflexivity|].
      repeat split; try lia. unfold oversize. lia. }
  rewrite bool_decide_true in * by lia.
  assert (Hload : load mem cursor HDR = Some (take (Z.to_nat HDR) rest)).
  { apply load_Some. repeat split; unfold HDR in *; try lia.
    unfold rest. rewrite take_take, Nat.min_l by lia. reflexivity. }
  fold mem. rewrite (read_hdr_load _ _ _ Hload).
  set (msg := decode_hdr (take (Z.to_nat HDR) rest)) in *.
  pose proof (decode_hdr_size_range (take (Z.to_nat HDR) rest)) as Hsz. fold msg in Hsz.
  cbn [mbind res_mbind res_bind].
  destruct (decide (HDR + msg_size msg ≤ toprocess)) as [Hcomplete|Hpartial].
  - (* a complete frame *)
    rewrite bool_decide_true in * by exact Hcomplete.
    rewrite to_int_id by (unfold INT_MAX, HDR in *; lia).
    rewrite bool_decide_true by exact Hcomplete.
    rewrite to_int_id by (unfold INT_MAX, HDR in *; lia).
    set (rest' := drop (Z.to_nat (HDR + msg_size msg)) rest) in *.
    assert (Hrest' : rest' = take (Z.to_nat (toprocess - (HDR + msg_size msg)))
                      (drop (Z.to_nat (cursor + (HDR + msg_size msg))) mem)).
    { unfold rest', rest. rewrite drop_take_drop_nat by (unfold HDR in *; lia).
      f_equal; [|f_equal]; unfold HDR in *; lia. }
    assert (Hpay : payload_at s cursor msg =
                   take (Z.to_nat (msg_size msg)) (drop (Z.to_nat HDR) rest)).
    { unfold payload_at, rest. fold mem.
      rewrite take_drop_take_nat by (unfold HDR in *; lia).
      do 2 f_equal. unfold HDR. lia. }
    destruct (deframe fuel rest') as [fs tl] eqn:Ed. cbn [fst snd] in *.
    split.
    + apply bind_terminates; [apply handle_message_terminates|].
      intros [w1 s1] H1. apply handle_message_dispatched in H1 as [_ Hin1].
      eapply (IH w1 s1); rewrite ?Hin1; fold mem; unfold HDR in *; try lia.
      rewrite <- Hrest', Ed. exact Hfit.
    + intros w' s' exit H. apply bind_Ok in H as ([w1 s1] & H1 & H).
      apply handle_message_dispatched in H1 as [Htr1 Hin1].
      eapply (IH w1 s1) in H; rewrite ?Hin1; fold mem; unfold HDR in *; try lia.
      2:{ rewrite <- Hrest', Ed. exact Hfit. }
      rewrite Hin1 in H. fold mem in H. rewrite <- Hrest', Ed in H. cbn [fst snd] in H.
      destruct H as (Htr & Hin' & Hexit).
      split; [rewrite Htr, Htr1, Hpay, <- app_assoc; reflexivity|].
      split; [congruence|].
      destruct exit as [[cursor' toprocess']|]; [|exact Hexit].
      destruct Hexit as (? & ? & ? & ? & ?). repeat split; auto; lia.
  - (* the tail *)
    rewrite bool_decide_false in * by exact Hpartial. cbn [fst snd] in *.
    assert (Hint : HDR + msg_size msg ≤ INT_MAX) by (apply Hfit; lia).
    rewrite to_int_id by (unfold INT_MAX, HDR in *; lia).
    rewrite bool_decide_false by exact Hpartial.
    case_bool_decide as Hover.
    + split; [auto with term|]. intros w' s' exit [= <- <- <-].
      cbn [fst snd fmap list_fmap]. rewrite app_nil_r.
      split; [reflexivity|]. split; [reflexivity|]. split; [reflexivity|].
      unfold oversize. rewrite Hrl. fold msg. lia.
    + split; [auto with term|]. intros w' s' exit [= <- <- <-].
      cbn [fst snd fmap list_fmap]. rewrite app_nil_r.
      split; [reflexivity|]. split; [reflexivity|].
      repeat split; try lia. unfold oversize. fold msg. lia.
Qed.

(** * The claims on the read path *)

(** C1, as the code has it. For an input buffer whose partial tail does not
    announce a length beyond the range of [int]: the frames handed to the
    upper layer are exactly the complete frames of the buffered bytes, a
    header followed by [size] payload bytes, in order. When the handler
    returns true, the partial tail has been moved to the start of the
    buffer and [input.ready] is its length. When the tail announces a frame
    that can never fit the buffer, the handler returns false with the stream
    marked bad and leaves the buffer and [input.ready] as they were. With
    fuel beyond the number of buffered bytes the loop does finish. *)
Theorem deframing_on_return (fuel : nat) (w : world) (s : stream_data_t) :
  Z.of_nat (length (data (input s))) = BUFFER_SIZE →
  0 ≤ ready (input s) ≤ BUFFER_SIZE →
  let buffered := take (Z.to_nat (ready (input s))) (data (input s)) in
  fits_int (leftover buffered) →
  (length buffered < fuel)%nat →
  terminates (process_input fuel w s) ∧
  ∀ b w' s',
    process_input fuel w s = Ok (b, w', s') →
    dispatched (trace w') =
      dispatched (trace w) ++ (dispatch_of_frame <$> frames buffered) ∧
    if b then
      ¬ oversize (leftover buffered) ∧
      ready (input s') = Z.of_nat (length (leftover buffered)) ∧
      take (length (leftover buffered)) (data (input s')) = leftover buffered ∧
      length (data (input s')) = length (data (input s))
    else
      oversize (leftover buffered) ∧ good s' = false ∧ input s' = input s.
Proof.
  intros Hlen Hr buffered Hfit Hfuel.
  assert (Hbl : length buffered = Z.to_nat (ready (input s))).
  { unfold buffered. rewrite length_take. lia. }
  assert (Hd : deframe fuel buffered = deframe (length buffered) buffered)
    by (apply deframe_fuel; lia).
  destruct (handle_loop_spec fuel w s 0 (ready (input s))) as [Hterm Hloop];
    try lia.
  { rewrite drop_0. fold buffered. rewrite Hd. exact Hfit. }
  rewrite drop_0 in Hloop. fold buffered in Hloop. rewrite Hd in Hloop.
  cbn zeta in Hloop.
  change (deframe (length buffered) buffered).1 with (frames buffered) in Hloop.
  change (deframe (length buffered) buffered).2 with (leftover buffered) in Hloop.
  unfold process_input. split.
  - apply bind_terminates; [exact Hterm|]. intros [[w1 s1] exit] H1.
    destruct exit as [[cursor toprocess]|]; [|auto with term].
    apply bind_terminates; [auto with term|]. intros _ _.
    apply bind_terminates; [|intros; auto with term].
    case_bool_decide; [|auto with term].
    apply bind_terminates; intros; auto with term.
  - intros b w' s' H. apply bind_Ok in H as ([[w1 s1] exit] & H1 & H).
    apply Hloop in H1 as (Htr & Hin & Hexit).
    destruct exit as [[cursor toprocess]|].
    + destruct Hexit as (Hc & Ht & Hsum & Htl & Hnover).
      apply bind_Ok in H as (u & _ & H). apply bind_Ok in H as (d & Hd' & H).
      injection H as <- <- <-. split; [exact Htr|].
      split; [exact Hnover|]. cbn [input set_input ready data].
      assert (Htll : Z.of_nat (length (leftover buffered)) = toprocess).
      { rewrite Htl, length_take, length_drop. lia. }
      split; [lia|]. rewrite Hin in Hd'.
      case_bool_decide as Hpos.
      * apply bind_Ok in Hd' as (m & Hm & Hd'). apply access_Ok in Hm, Hd'.
        apply load_Some in Hm as (_ & _ & _ & ->). rewrite <- Htl in Hd'.
        pose proof (load_store_same _ _ _ _ Hd') as Hl.
        apply load_Some in Hl as (_ & _ & _ & Hl). rewrite drop_0, Nat2Z.id in Hl.
        split; [symmetry; exact Hl|]. apply (store_length _ _ _ _ Hd').
      * injection Hd' as <-. split; [|reflexivity].
        assert (length (leftover buffered) = 0%nat) as Hz by lia.
        rewrite Hz. destruct (leftover buffered); [reflexivity|discriminate].
    + injection H as <- <- <-. split; [exact Htr|].
      destruct Hexit as [Hg Hover]. auto.
Qed.

(** C4. A frame on a channel whose slot is unoccupied makes the slot
    occupied and invokes [onconnect], which finds the user state of the
    slot zeroed, before the frame is delivered; a frame on an occupied slot
    is delivered without [onconnect] and with the user state the slot held.
    After a frame other than a disconnect the slot is occupied, so the next
    frame on that channel does not invoke [onconnect] again. *)
Theorem onconnect_on_first_sight (w : world) (s : stream_data_t) (cursor : Z)
    (msg : ShubMessageHdr) (w' s' : _) :
  handle_message w s cursor msg = Ok (w', s') →
  ∃ cl ud,
    clients s !! Z.to_nat (msg_chan msg) = Some cl ∧
    (stream cl = false →
     trace w' = trace w ++
       [EvConnect (msg_chan msg) 0;
        delivery (msg_chan msg) ud msg (payload_at s cursor msg)]) ∧
    (stream cl = true →
     trace w' = trace w ++
       [delivery (msg_chan msg) (userdata cl) msg (payload_at s cursor msg)]) ∧
    (msg_code msg ≠ MSG_DISCONNECT →
     ∃ cl', clients s' !! Z.to_nat (msg_chan msg) = Some cl' ∧
            stream cl' = true ∧ chan cl' = msg_chan msg).
Proof.
  intros H. apply handle_message_spec in H
    as (_ & cl & ud & cl' & Hcl & Hocc & Htr & _ & _ & Hcl' & Hch & Hst & _).
  exists cl, ud. split; [exact Hcl|]. split; [|split].
  - intros Hfree. rewrite Hfree in Htr. exact Htr.
  - intros Hbusy. destruct (Hocc Hbusy) as [_ ->]. rewrite Hbusy in Htr. exact Htr.
  - intros Hcode. exists cl'. rewrite bool_decide_false in Hst by exact Hcode. auto.
Qed.

(** * Destruction *)

Lemma slots_lookup s i cl :
  clients s !! i = Some cl → slots s !! i = Some (stream cl, chan cl).
Proof. intros H. unfold slots. rewrite list_lookup_fmap, H. reflexivity. Qed.

Lemma disconnect_all_spec n : ∀ c w s w' s',
  0 ≤ c → disconnect_all n c w s = Ok (w', s') →
  keeps s s' ∧
  ∃ uds,
    length uds = length (occupied_in (take n (drop (Z.to_nat c) (slots s))) c) ∧
    trace w' = trace w ++
      zip_with EvDisconnect (occupied_in (take n (drop (Z.to_nat c) (slots s))) c) uds.
Proof.
  induction n as [|n IH]; intros c w s w' s' Hc H; cbn [disconnect_all] in H.
  - injection H as <- <-. split; [apply keeps_refl|]. exists []. cbn.
    rewrite app_nil_r. auto.
  - apply bind_Ok in H as (cl & Hcl & H). apply access_Ok in Hcl.
    apply bind_Ok in H as ([w1 s1] & H1 & H).
    rewrite (drop_S _ _ _ (slots_lookup _ _ _ Hcl)). cbn [take occupied_in].
    assert (Hk : keeps s s1 ∧
              trace w1 = trace w ++
                (if stream cl then [EvDisconnect c (userdata cl)] else [])).
    { destruct (stream cl).
      - apply invoke_spec in H1 as [? ?]. auto.
      - injection H1 as <- <-. rewrite app_nil_r. split; [apply keeps_refl|auto]. }
    destruct Hk as [Hk Htr1].
    apply IH in H as (Hk' & uds & Hlen & Htr); [|lia].
    replace (Z.to_nat (c + 1)) with (S (Z.to_nat c)) in * by lia.
    destruct Hk as [Hki Hks]. rewrite Hks in *.
    split; [split; [destruct Hk'; congruence|destruct Hk'; congruence]|].
    destruct (stream cl).
    + exists (userdata cl :: uds). cbn. split; [lia|].
      rewrite Htr, Htr1, <- app_assoc. reflexivity.
    + exists uds. cbn. split; [exact Hlen|]. rewrite Htr, Htr1, app_nil_r. reflexivity.
Qed.

Lemma server_stream_destroy_spec w s w' s' :
  Z.of_nat (length (clients s)) = MAX_TRANSACTIONS →
  server_stream_destroy w s = Ok (w', s') →
  (∃ uds, length uds = length (occupied s) ∧
          trace w' = trace w ++ zip_with EvDisconnect (occupied s) uds) ∧
  closed (fd s') = true ∧ clients s' = [] ∧
  data (input s') = [] ∧ data (output s') = [].
Proof.
  intros Hlen H. unfold server_stream_destroy in H.
  apply bind_Ok in H as ([w1 s1] & H1 & H). injection H as <- <-.
  apply disconnect_all_spec in H1 as (_ & uds & Hl & Htr); [|lia].
  rewrite drop_0, take_ge in Hl, Htr
    by (unfold slots; rewrite length_fmap; lia).
  split; [exists uds; auto|]. cbn. auto.
Qed.

(** C5. When the disconnect code arrives on a channel, [ondisconnect] is
    invoked for it, with the user state an occupied slot held, and once the
    callback has returned the slot is unoccupied; the frame is not handed
    to [onmessage]. When the connection dies, [ondisconnect] is invoked for
    every occupied channel, in table order, and afterwards the channel table
    is released with the buffers and the socket is closed, so that no slot
    is occupied. *)
Theorem ondisconnect_then_cleared :
  (∀ w s cursor msg w' s',
     msg_code msg = MSG_DISCONNECT →
     handle_message w s cursor msg = Ok (w', s') →
     ∃ cl ud cl',
       clients s !! Z.to_nat (msg_chan msg) = Some cl ∧
       (stream cl = true → ud = userdata cl) ∧
       trace w' = trace w ++
         (if stream cl then [] else [EvConnect (msg_chan msg) 0]) ++
         [EvDisconnect (msg_chan msg) ud] ∧
       clients s' !! Z.to_nat (msg_chan msg) = Some cl' ∧
       stream cl' = false) ∧
  (∀ w s w' s',
     Z.of_nat (length (clients s)) = MAX_TRANSACTIONS →
     server_stream_destroy w s = Ok (w', s') →
     (∃ uds, length uds = length (occupied s) ∧
             trace w' = trace w ++ zip_with EvDisconnect (occupied s) uds) ∧
     occupied s' = [] ∧ clients s' = [] ∧ closed (fd s') = true).
Proof.
  split.
  - intros w s cursor msg w' s' Hcode H. apply handle_message_spec in H
      as (_ & cl & ud & cl' & Hcl & Hocc & Htr & _ & _ & Hcl' & _ & Hst & _).
    exists cl, ud, cl'. split; [exact Hcl|]. split; [intros Hb; apply Hocc, Hb|].
    unfold delivery in Htr. rewrite bool_decide_true in Htr, Hst by exact Hcode.
    auto.
  - intros w s w' s' Hlen H.
    apply server_stream_destroy_spec in H as (Hev & Hcl & Hcs & _); [|exact Hlen].
    split; [exact Hev|]. split; [unfold occupied, slots; rewrite Hcs; reflexivity|].
    auto.
Qed.

(** * The output side returns *)

Lemma stream_flush_returns s :
  out_inv s → ∃ b s', stream_flush s = Ok (b, s').
Proof.
  intros [Hi|(c & p & Hb)].
  - destruct Hi as (Hlen & Hr & Hcur). apply stream_flush_total; [lia|lia|exact Hcur].
  - pose proof (building_bounds _ _ _ Hb) as (Hr & Hfit & Hlen).
    pose proof (building_read_hdr _ _ _ Hb) as Hh.
    destruct Hb as (_ & _ & Hcur & Hl).
    unfold stream_flush. case_bool_decide as Hz; [eauto|].
    destruct (send_loop_total (S (length (sock_out (fd s)))) (fd s)
                (data (output s)) 0 (ready (output s))) as (b & sk & ->);
      try (unfold HDR in *; lia).
    cbn [mbind res_mbind res_bind]. destruct b; cbn [negb]; [|eauto].
    cbn [output set_fd curmessage data]. rewrite Hcur, Hh.
    cbn [mbind res_mbind res_bind msg_size]. rewrite Z.add_comm, Hl.
    cbn [access]. cbn [mbind res_mbind res_bind].
    pose proof (load_length _ _ _ _ Hl) as Hll.
    destruct (store_is_Some (data (output s)) 0
                (encode_hdr (mkHdr (Z.of_nat (length p)) CODE_R c) ++ p)) as [d ->];
      [lia|unfold HDR in *; lia|].
    cbn [access]. cbn [mbind res_mbind res_bind]. eauto.
Qed.

Lemma stream_message_start_returns s c :
  out_inv s → ∃ r, stream_message_start s c = Ok r.
Proof.
  intros [Hi|(c' & p & Hb)].
  2:{ destruct Hb as (_ & _ & Hcur & _).
      erewrite stream_message_start_busy by exact Hcur. eauto. }
  pose proof Hi as (Hlen & Hr & Hcur).
  unfold stream_message_start. rewrite Hcur.
  rewrite to_int_id, to_size_t_id by (unfold INT_MAX, HDR in *; lia).
  pose proof (length_encode_hdr (mkHdr 0 CODE_R (to_uint c))) as Hel.
  case_bool_decide as Hroom.
  - destruct (stream_flush_returns s) as (b & s1 & Hfl); [left; exact Hi|].
    rewrite Hfl. cbn [mbind res_mbind res_bind].
    apply stream_flush_idle in Hfl as [_ Hfl]; [|exact Hi].
    destruct b; cbn [negb]; [|eauto].
    destruct Hfl as ((Hlen1 & _ & _) & Hz & _).
    destruct (store_is_Some (data (output s1)) (ready (output s1))
                (encode_hdr (mkHdr 0 CODE_R (to_uint c)))) as [d ->]; [lia|lia|].
    cbn [access]. cbn [mbind res_mbind res_bind]. eauto.
  - cbn [mbind res_mbind res_bind negb].
    destruct (store_is_Some (data (output s)) (ready (output s))
                (encode_hdr (mkHdr 0 CODE_R (to_uint c)))) as [d ->]; [lia|lia|].
    cbn [access]. cbn [mbind res_mbind res_bind]. eauto.
Qed.

Lemma stream_message_finish_returns s :
  out_inv s → ∃ r, stream_message_finish s = Ok r.
Proof.
  intros [Hi|(c & p & Hb)].
  - rewrite stream_message_finish_none by apply Hi. eauto.
  - destruct (stream_message_finish_spec _ _ _ Hb) as (s' & -> & _). eauto.
Qed.

Lemma stream_message_append_returns s len src :
  2 * BUFFER_SIZE ≤ INT_MAX →
  out_inv s → 0 ≤ len ≤ Z.of_nat (length src) → len ≤ INT_MAX - BUFFER_SIZE →
  ∃ r, stream_message_append s len src = Ok r.
Proof.
  intros Hbig [Hi|(c & p & Hb)] Hlen Hmax.
  { rewrite stream_message_append_none by apply Hi. eauto. }
  pose proof (building_bounds _ _ _ Hb) as (Hr & Hfit & Hdl).
  pose proof (building_read_hdr _ _ _ Hb) as Hh.
  pose proof Hb as (_ & _ & Hcur & _).
  unfold stream_message_append. rewrite Hcur, Hh.
  cbn [mbind res_mbind res_bind msg_size]. unfold append_newsize.
  rewrite (to_int_id (Z.of_nat (length p) + HDR + len))
    by (unfold INT_MAX, HDR in *; lia).
  case_bool_decide as Hover; [eauto|].
  rewrite to_int_id by (unfold INT_MAX, HDR in *; lia).
  assert (Hnext : ∀ s1, building s1 c p →
            ready (output s1) + (Z.of_nat (length p) + HDR + len) ≤ BUFFER_SIZE →
            ∃ r, match curmessage (output s1) with
                 | None => Undefined
                 | Some msg =>
                     h ← read_hdr (data (output s1)) msg;
                     bytes ← access (load src 0 len);
                     d ← access (store (data (output s1)) (msg + msg_size h + HDR) bytes);
                     d ← access (store d msg (le32 (to_uint (msg_size h + len))));
                     Ok (true, set_output (mkBuffer (ready (output s1)) (Some msg) d) s1)
                 end = Ok r).
  { intros s1 Hb1 Hroom.
    pose proof (building_bounds _ _ _ Hb1) as (Hr1 & Hfit1 & Hdl1).
    pose proof (building_read_hdr _ _ _ Hb1) as Hh1.
    destruct Hb1 as (_ & _ & Hcur1 & _). rewrite Hcur1, Hh1.
    cbn [mbind res_mbind res_bind msg_size].
    destruct (load_is_Some src 0 len) as [bytes Hbytes]; [lia|lia|lia|].
    rewrite Hbytes. cbn [access]. cbn [mbind res_mbind res_bind].
    pose proof (load_length _ _ _ _ Hbytes) as Hbl.
    destruct (store_is_Some (data (output s1))
                (ready (output s1) + Z.of_nat (length p) + HDR) bytes) as [d Hd];
      [unfold HDR in *; lia|unfold HDR in *; lia|].
    rewrite Hd. cbn [access]. cbn [mbind res_mbind res_bind].
    pose proof (store_length _ _ _ _ Hd) as Hdl'.
    destruct (store_is_Some d (ready (output s1))
                (le32 (to_uint (Z.of_nat (length p) + len)))) as [d2 ->];
      [lia|rewrite length_le32; unfold HDR in *; lia|].
    cbn [access]. cbn [mbind res_mbind res_bind]. eauto. }
  case_bool_decide as Hfull.
  - destruct (stream_flush_returns s) as (b & s1 & Hfl); [right; eauto|].
    rewrite Hfl. cbn [mbind res_mbind res_bind].
    eapply stream_flush_building in Hfl as [_ Hfl]; [|exact Hb].
    destruct b; cbn [negb]; [|eauto].
    destruct Hfl as (Hb1 & Hz & _). apply Hnext; [exact Hb1|lia].
  - cbn [mbind res_mbind res_bind negb]. apply Hnext; [exact Hb|lia].
Qed.

(** X1. [stream_flush] on a well-formed output buffer returns, however the
    kernel splits the sends. When it returns true, exactly the committed
    bytes have gone to the wire, in order, nothing is left committed and
    the reply under construction is kept; when it returns false the stream
    is marked bad, the output buffer is as it was and a prefix of the
    committed bytes has gone to the wire. The input buffer and the channel
    table are not touched. *)
Theorem flush_sends_committed (s : stream_data_t) :
  out_inv s →
  (∃ b s', stream_flush s = Ok (b, s')) ∧
  ∀ b s', stream_flush s = Ok (b, s') →
    input s' = input s ∧ clients s' = clients s ∧
    if b then
      wire (fd s') = wire (fd s) ++ committed s ∧
      ready (output s') = 0 ∧ good s' = good s ∧
      inprogress s' = inprogress s ∧ out_inv s'
    else
      good s' = false ∧ output s' = output s ∧
      ∃ k, wire (fd s') = wire (fd s) ++ take k (committed s).
Proof.
  intros Hinv. split; [apply stream_flush_returns, Hinv|].
  intros b s' H. pose proof (stream_flush_keeps _ _ _ H) as [Hin Hcl].
  split; [exact Hin|]. split; [exact Hcl|].
  destruct Hinv as [Hi|(c & p & Hb)].
  - apply stream_flush_idle in H as [_ H]; [|exact Hi].
    destruct b; [|exact H]. destruct H as (Hi' & Hz & Hg & Hw).
    split; [exact Hw|]. split; [exact Hz|]. split; [exact Hg|].
    split; [rewrite !idle_inprogress by assumption; reflexivity|left; exact Hi'].
  - eapply stream_flush_building in H as [_ H]; [|exact Hb].
    destruct b; [|exact H]. destruct H as (Hb' & Hz & Hg & Hw).
    split; [exact Hw|]. split; [exact Hz|]. split; [exact Hg|].
    split; [|right; eauto].
    rewrite (building_inprogress _ _ _ Hb), (building_inprogress _ _ _ Hb').
    reflexivity.
Qed.

(** X2. On a well-formed output buffer of at most half the range of [int],
    the reply builder returns from every call: no assertion fails and no
    access leaves the buffer. [stream_message_append] needs the [len] bytes
    it is told to copy to be there, and [len] not to overflow the size
    computation. *)
Theorem reply_builder_returns (s : stream_data_t) (c len : Z) (src : list byte) :
  2 * BUFFER_SIZE ≤ INT_MAX →
  out_inv s →
  (∃ r, stream_message_start s c = Ok r) ∧
  (0 ≤ len ≤ Z.of_nat (length src) → len ≤ INT_MAX - BUFFER_SIZE →
   ∃ r, stream_message_append s len src = Ok r) ∧
  (∃ r, stream_message_finish s = Ok r).
Proof.
  intros Hbig Hinv. split; [apply stream_message_start_returns, Hinv|].
  split; [|apply stream_message_finish_returns, Hinv].
  intros Hlen Hmax. apply stream_message_append_returns; assumption.
Qed.

(** * Replies in sequence *)

Lemma replies_tracked os : ∀ cur s s',
  tracks cur s → run_ops os s = Some s' →
  wire (fd s') ++ committed s' = wire (fd s) ++ committed s ++ (replies os cur).1 ∧
  good s' = good s ∧ tracks (replies os cur).2 s'.
Proof.
  induction os as [|o os IH]; intros cur s s' Ht H; cbn [run_ops] in H.
  - injection H as <-. cbn. rewrite app_nil_r. auto.
  - destruct (run_op o s) as [[[] s1]| | |] eqn:E; try discriminate.
    destruct o as [c|len src| |]; cbn [run_op] in E.
    + destruct cur as [[c0 p0]|]; cbn [tracks] in Ht.
      { erewrite stream_message_start_busy in E by apply Ht. discriminate. }
      apply stream_message_start_spec in E as [_ (Hb & Hg & Hw)]; [|exact Ht].
      destruct (IH (Some (to_uint c, [])) s1 s' Hb H) as (Hw' & Hg' & Ht').
      cbn [replies]. rewrite Hw', !app_assoc, Hw. split; [reflexivity|].
      split; [congruence|exact Ht'].
    + destruct cur as [[c0 p0]|]; cbn [tracks] in Ht.
      2:{ rewrite stream_message_append_none in E by apply Ht. discriminate. }
      eapply stream_message_append_spec in E as [_ (bytes & Hbytes & Hb & Hg & Hw)];
        [|exact Ht].
      apply load_Some in Hbytes as (_ & _ & _ & Hbytes). rewrite drop_0 in Hbytes.
      subst bytes.
      destruct (IH (Some (c0, p0 ++ take (Z.to_nat len) src)) s1 s' Hb H)
        as (Hw' & Hg' & Ht').
      cbn [replies]. rewrite Hw', !app_assoc, Hw. split; [reflexivity|].
      split; [congruence|exact Ht'].
    + destruct cur as [[c0 p0]|]; cbn [tracks] in Ht.
      2:{ rewrite stream_message_finish_none in E by apply Ht. discriminate. }
      destruct (stream_message_finish_spec _ _ _ Ht)
        as (s3 & Hfin & _ & Hi & Hg & Hfd & _ & Hc).
      rewrite Hfin in E. injection E as <-.
      destruct (IH None s3 s' Hi H) as (Hw' & Hg' & Ht').
      cbn [replies]. destruct (replies os None) as [bs cur'] eqn:Er.
      cbn [fst snd] in *. rewrite Hw', Hc, Hfd, <- !app_assoc.
      split; [reflexivity|]. split; [congruence|exact Ht'].
    + assert (Hfl : tracks cur s1 ∧ ready (output s1) = 0 ∧ good s1 = good s ∧
                    wire (fd s1) = wire (fd s) ++ committed s).
      { destruct cur as [[c0 p0]|]; cbn [tracks] in *.
        - eapply stream_flush_building in E as [_ E]; [|exact Ht]. exact E.
        - eapply stream_flush_idle in E as [_ E]; [|exact Ht]. exact E. }
      destruct Hfl as (Ht1 & Hz & Hg & Hw).
      destruct (IH cur s1 s' Ht1 H) as (Hw' & Hg' & Ht').
      assert (replies (OpFlush :: os) cur = replies os cur) as ->
        by (destruct cur as [[? ?]|]; reflexivity).
      assert (committed s1 = []) as Hc1 by (unfold committed; rewrite Hz; reflexivity).
      rewrite Hw', Hc1, Hw, <- !app_assoc. split; [reflexivity|].
      split; [congruence|exact Ht'].
Qed.

(** X3. The output side is first in, first out. After any sequence of
    operations on an idle stream, each of which succeeded, the bytes sent
    followed by the bytes committed are the ones of before followed by the
    replies finished since, whole and in the order of their finish,
    wherever the flushes fell; the reply not yet finished is behind them,
    uncommitted. No successful operation changes [good]. *)
Theorem replies_leave_in_order (s : stream_data_t) (os : list out_op)
    (s' : stream_data_t) :
  idle s → run_ops os s = Some s' →
  wire (fd s') ++ committed s' =
    wire (fd s) ++ committed s ++ (replies os None).1 ∧
  good s' = good s ∧
  match (replies os None).2 with
  | None => idle s'
  | Some (c, p) => building s' c p
  end.
Proof. intros Hi H. exact (replies_tracked os None s s' Hi H). Qed.

(** * The shortcut reply *)

Lemma length_le64 z : length (le64 z) = 8%nat.
Proof. reflexivity. Qed.

(** X4. [client_message_shortcut] on a connected client of an idle stream
    returns. When it returns true, one frame has been committed behind what
    was there: the header with size 8, code ['r'] and the channel of the
    client, then the eight bytes of [arg] in host order; the stream is idle
    again. When it returns false the stream is marked bad. The input buffer
    and the channel table are not touched. *)
Theorem shortcut_commits_one_frame (s : stream_data_t) (client arg : Z)
    (cl : client_data_t) :
  2 * BUFFER_SIZE ≤ INT_MAX →
  idle s → clients s !! Z.to_nat client = Some cl → stream cl = true →
  (∃ b s', client_message_shortcut s client arg = Ok (b, s')) ∧
  ∀ b s', client_message_shortcut s client arg = Ok (b, s') →
    input s' = input s ∧ clients s' = clients s ∧
    if b then
      idle s' ∧ good s' = good s ∧
      wire (fd s') ++ committed s' =
        wire (fd s) ++ committed s ++
        encode_hdr (mkHdr 8 CODE_R (to_uint (chan cl))) ++ le64 arg
    else good s' = false.
Proof.
  intros Hbig Hi Hcl Hocc.
  assert (Hrun : ∀ b s', client_message_shortcut s client arg = Ok (b, s') →
            if b then
              idle s' ∧ good s' = good s ∧
              wire (fd s') ++ committed s' =
                wire (fd s) ++ committed s ++
                encode_hdr (mkHdr 8 CODE_R (to_uint (chan cl))) ++ le64 arg
            else good s' = false).
  { intros b s' H. unfold client_message_shortcut, client_stream in H.
    rewrite Hcl in H. cbn [access] in H. cbn [mbind res_mbind res_bind] in H.
    rewrite Hocc in H. cbn [mbind res_mbind res_bind] in H.
    apply bind_Ok in H as ([ok1 s1] & H1 & H).
    apply stream_message_start_spec in H1 as [_ H1]; [|exact Hi].
    destruct ok1; cbn [negb] in H; [|injection H as <- <-; apply H1].
    destruct H1 as (Hb1 & Hg1 & Hw1).
    apply bind_Ok in H as ([ok2 s2] & H2 & H).
    eapply stream_message_append_spec in H2 as [_ H2]; [|exact Hb1].
    destruct ok2; cbn [negb] in H; [|injection H as <- <-; apply H2].
    destruct H2 as (bytes & Hbytes & Hb2 & Hg2 & Hw2).
    apply load_Some in Hbytes as (_ & _ & _ & Hbytes). rewrite drop_0 in Hbytes.
    rewrite take_ge in Hbytes by (rewrite length_le64; lia). subst bytes.
    cbn [app] in Hb2.
    destruct (stream_message_finish_spec _ _ _ Hb2)
      as (s3 & Hfin & _ & Hi3 & Hg3 & Hfd3 & _ & Hc3).
    rewrite Hfin in H. cbn [mbind res_mbind res_bind negb] in H.
    injection H as <- <-. split; [exact Hi3|]. split; [congruence|].
    rewrite Hc3, Hfd3, length_le64, !app_assoc, Hw2, Hw1, <- !app_assoc.
    reflexivity. }
  split.
  - unfold client_message_shortcut, client_stream.
    rewrite Hcl. cbn [access]. cbn [mbind res_mbind res_bind].
    rewrite Hocc. cbn [mbind res_mbind res_bind].
    destruct (stream_message_start_returns s (chan cl)) as ([ok1 s1] & H1);
      [left; exact Hi|].
    rewrite H1. cbn [mbind res_mbind res_bind].
    apply stream_message_start_spec in H1 as [_ H1]; [|exact Hi].
    destruct ok1; cbn [negb]; [|eauto]. destruct H1 as (Hb1 & _).
    destruct (stream_message_append_returns s1 8 (le64 arg)) as ([ok2 s2] & H2);
      [exact Hbig|right; eauto|rewrite length_le64; lia|
       unfold INT_MAX, HDR in *; lia|].
    rewrite H2. cbn [mbind res_mbind res_bind].
    eapply stream_message_append_spec in H2 as [_ H2]; [|exact Hb1].
    destruct ok2; cbn [negb]; [|eauto]. destruct H2 as (bytes & _ & Hb2 & _).
    destruct (stream_message_finish_spec _ _ _ Hb2) as (s3 & -> & _).
    cbn [mbind res_mbind res_bind negb]. eauto.
  - intros b s' H.
    pose proof (client_message_shortcut_keeps _ _ _ _ _ H) as [Hin Hcs].
    split; [exact Hin|]. split; [exact Hcs|]. apply Hrun, H.
Qed.

(** * The user state of a client *)

(** X5. What [client_set_userdata] stores on a client is what
    [client_get_userdata] hands back for it; the user state of every other
    client, the occupancy of the channel table, the buffers and the socket
    are as before. *)
Theorem userdata_set_then_get (s : stream_data_t) (client v : Z)
    (s' : stream_data_t) :
  client_set_userdata s client v = Ok s' →
  client_get_userdata s' client = Ok v ∧
  (∀ other, Z.to_nat other ≠ Z.to_nat client →
            client_get_userdata s' other = client_get_userdata s other) ∧
  slots s' = slots s ∧
  input s' = input s ∧ output s' = output s ∧ fd s' = fd s ∧ good s' = good s.
Proof.
  unfold client_set_userdata. intros H.
  apply bind_Ok in H as (cl & Hcl & H). apply access_Ok in Hcl.
  injection H as <-. cbn [input output fd good set_clients].
  split.
  - unfold client_get_userdata. cbn [clients set_clients].
    rewrite list_lookup_insert_eq by (eapply lookup_lt_Some; exact Hcl).
    reflexivity.
  - split.
    + intros other Hne. unfold client_get_userdata. cbn [clients set_clients].
      rewrite list_lookup_insert_ne by auto. reflexivity.
    + split; [|auto]. unfold slots. cbn [clients set_clients].
      apply slots_insert_userdata. exact Hcl.
Qed.

(** * The flag [good] *)

Lemma stream_flush_good s b s' :
  stream_flush s = Ok (b, s') → if b then good s' = good s else good s' = false.
Proof.
  unfold stream_flush. case_bool_decide as Hdec; [intros [= <- <-]; auto|].
  intros H. apply bind_Ok in H as ([ok sk] & _ & H).
  destruct ok; cbn in H.
  - destruct (curmessage (output s)).
    + apply bind_Ok in H as (h & _ & H). apply bind_Ok in H as (m & _ & H).
      apply bind_Ok in H as (d & _ & H). injection H as <- <-. auto.
    + injection H as <- <-. auto.
  - injection H as <- <-. auto.
Qed.

Lemma stream_message_start_good s c b s' :
  stream_message_start s c = Ok (b, s') →
  if b then good s' = good s else good s' = false.
Proof.
  unfold stream_message_start. destruct (curmessage (output s)).
  { intros [= <- <-]. auto. }
  intros H. apply bind_Ok in H as ([flushed s1] & Hfl & H).
  assert (Hg : flushed = true → good s1 = good s).
  { intros ->. case_bool_decide as Hdec; [exact (stream_flush_good _ _ _ Hfl)|].
    injection Hfl as <-. reflexivity. }
  destruct flushed; cbn in H.
  - apply bind_Ok in H as (d & _ & H). injection H as <- <-. cbn. auto.
  - injection H as <- <-. auto.
Qed.

Lemma stream_message_append_good s len src b s' :
  stream_message_append s len src = Ok (b, s') →
  if b then good s' = good s else good s' = false.
Proof.
  unfold stream_message_append. destruct (curmessage (output s)).
  2:{ intros [= <- <-]. auto. }
  intros H. apply bind_Ok in H as (h & _ & H).
  case_bool_decide as Hbig; [injection H as <- <-; auto|].
  apply bind_Ok in H as ([flushed s1] & Hfl & H).
  assert (Hg : flushed = true → good s1 = good s).
  { intros ->. case_bool_decide as Hdec; [exact (stream_flush_good _ _ _ Hfl)|].
    injection Hfl as <-. reflexivity. }
  destruct flushed; cbn in H.
  - destruct (curmessage (output s1)); [|discriminate].
    apply bind_Ok in H as (h1 & _ & H). apply bind_Ok in H as (bytes & _ & H).
    apply bind_Ok in H as (d & _ & H). apply bind_Ok in H as (d2 & _ & H).
    injection H as <- <-. cbn. auto.
  - injection H as <- <-. auto.
Qed.

Lemma stream_message_finish_good s b s' :
  stream_message_finish s = Ok (b, s') →
  if b then good s' = good s else good s' = false.
Proof.
  unfold stream_message_finish. destruct (curmessage (output s)).
  2:{ intros [= <- <-]. auto. }
  intros H. apply bind_Ok in H as (h & _ & H). apply bind_Ok in H as (u & _ & H).
  injection H as <- <-. auto.
Qed.

Lemma run_op_good o s b s' :
  run_op o s = Ok (b, s') → if b then good s' = good s else good s' = false.
Proof.
  destruct o; cbn [run_op]; intros H.
  - exact (stream_message_start_good _ _ _ _ H).
  - exact (stream_message_append_good _ _ _ _ _ H).
  - exact (stream_message_finish_good _ _ _ H).
  - exact (stream_flush_good _ _ _ H).
Qed.

(** * What the handling of input preserves *)

Section StreamPreserved.

(** A property of a stream that depends on its output buffer and its flag
    only, that the marking of the stream as bad keeps and that every
    operation of the output side keeps. *)
Variable P : stream_data_t → Prop.
Hypothesis P_ext : ∀ s s',
  output s' = output s → good s' = good s ∨ good s' = false → P s → P s'.
Hypothesis P_op : ∀ o s b s', P s → run_op o s = Ok (b, s') → P s'.

Lemma client_message_shortcut_preserves s client arg b s' :
  P s → client_message_shortcut s client arg = Ok (b, s') → P s'.
Proof.
  unfold client_message_shortcut. intros HP H.
  apply bind_Ok in H as (cl & _ & H).
  apply bind_Ok in H as ([ok1 s1] & H1 & H).
  apply (P_op (OpStart (chan cl))) in H1; [|exact HP].
  destruct ok1; cbn in H; [|injection H as <- <-; exact H1].
  apply bind_Ok in H as ([ok2 s2] & H2 & H).
  apply (P_op (OpAppend 8 (le64 arg))) in H2; [|exact H1].
  destruct ok2; cbn in H; [|injection H as <- <-; exact H2].
  apply bind_Ok in H as ([ok3 s3] & H3 & H).
  apply (P_op OpFinish) in H3; [|exact H2].
  destruct ok3; cbn in H; injection H as <- <-; exact H3.
Qed.

Lemma do_call_preserves c client s r s' :
  P s → do_call c client s = Ok (r, s') → P s'.
Proof.
  intros HP. destruct c; cbn; intros H.
  - apply bind_Ok in H as (s1 & H1 & H). injection H as _ <-.
    unfold client_set_userdata in H1. apply bind_Ok in H1 as (cl & _ & H1).
    injection H1 as <-. eapply P_ext; [| |exact HP]; auto.
  - apply bind_Ok in H as (v & _ & H). injection H as _ <-. exact HP.
  - apply bind_Ok in H as ([ok s1] & H1 & H). injection H as _ <-.
    unfold client_message_start in H1. apply bind_Ok in H1 as (cl & _ & H1).
    exact (P_op (OpStart (chan cl)) _ _ _ HP H1).
  - apply bind_Ok in H as ([ok s1] & H1 & H). injection H as _ <-.
    unfold client_message_append in H1. apply bind_Ok in H1 as (cl & _ & H1).
    exact (P_op (OpAppend len src) _ _ _ HP H1).
  - apply bind_Ok in H as ([ok s1] & H1 & H). injection H as _ <-.
    unfold client_message_finish in H1. apply bind_Ok in H1 as (cl & _ & H1).
    exact (P_op OpFinish _ _ _ HP H1).
  - apply bind_Ok in H as ([ok s1] & H1 & H). injection H as _ <-.
    eapply client_message_shortcut_preserves; eauto.
Qed.

Lemma run_cb_preserves p : ∀ s u s', P s → run_cb p s = Ok (u, s') → P s'.
Proof.
  induction p as [u0|client c k IH]; intros s u s' HP H; cbn in H.
  - injection H as _ <-. exact HP.
  - apply bind_Ok in H as ([r s1] & H1 & H).
    eapply IH; [|exact H]. eapply do_call_preserves; eauto.
Qed.

Lemma invoke_preserves ev p w s w' s' :
  P s → invoke ev p w s = Ok (w', s') → P s'.
Proof.
  unfold invoke. intros HP H. apply bind_Ok in H as ([u s1] & H1 & H).
  injection H as <- <-. eapply run_cb_preserves; eauto.
Qed.

Lemma handle_message_preserves w s cursor msg w' s' :
  P s → handle_message w s cursor msg = Ok (w', s') → P s'.
Proof.
  unfold handle_message. intros HP H.
  apply bind_Ok in H as ([isnew s1] & Hget & H).
  apply stream_get_client_spec in Hget as (_ & cl & _ & -> & Hs1).
  assert (HP1 : P s1).
  { destruct (stream cl); [destruct Hs1 as [_ ->]; exact HP|].
    subst s1. eapply P_ext; [| |exact HP]; auto. }
  apply bind_Ok in H as ([w2 s2] & Hconn & H).
  assert (HP2 : P s2).
  { destruct (stream cl); cbn [negb] in Hconn.
    - injection Hconn as <- <-. exact HP1.
    - apply bind_Ok in Hconn as (ud & _ & Hconn).
      eapply invoke_preserves; eauto. }
  case_bool_decide as Hcode.
  - apply bind_Ok in H as (ud & _ & H). apply bind_Ok in H as ([w3 s3] & Hinv & H).
    apply bind_Ok in H as (cl3 & _ & H). injection H as <- <-.
    eapply P_ext; [| |eapply invoke_preserves; eauto]; auto.
  - apply bind_Ok in H as (ud & _ & H). eapply invoke_preserves; eauto.
Qed.

Lemma handle_loop_preserves fuel : ∀ w s cursor toprocess w' s' exit,
  P s → handle_loop fuel w s cursor toprocess = Ok (w', s', exit) → P s'.
Proof.
  induction fuel as [|fuel IH]; intros w s cursor toprocess w' s' exit HP H;
    cbn [handle_loop] in H.
  - case_bool_decide; [discriminate|]. injection H as <- <- <-. exact HP.
  - case_bool_decide as Hhdr; [|injection H as <- <- <-; exact HP].
    apply bind_Ok in H as (msg & _ & H).
    case_bool_decide as Hcomplete.
    + apply bind_Ok in H as ([w1 s1] & H1 & H).
      eapply IH; [|exact H]. eapply handle_message_preserves; eauto.
    + case_bool_decide as Hover; injection H as <- <- <-; [|exact HP].
      eapply P_ext; [| |exact HP]; auto.
Qed.

Lemma process_input_preserves fuel w s b w' s' :
  P s → process_input fuel w s = Ok (b, w', s') → P s'.
Proof.
  unfold process_input. intros HP H.
  apply bind_Ok in H as ([[w1 s1] exit] & H1 & H).
  apply handle_loop_preserves in H1; [|exact HP].
  destruct exit as [[cursor toprocess]|]; [|injection H as <- <- <-; exact H1].
  apply bind_Ok in H as (u & _ & H). apply bind_Ok in H as (d & _ & H).
  injection H as <- <- <-. eapply P_ext; [| |exact H1]; auto.
Qed.

Lemma server_stream_handle_preserves fuel w s b w' s' :
  P s → server_stream_handle fuel w s = Ok (b, w', s') → P s'.
Proof.
  unfold server_stream_handle. intros HP H.
  apply bind_Ok in H as (u & _ & H).
  destruct (recv (fd s) _) as [r sk].
  destruct r as [| |bs].
  - injection H as <- <- <-. eapply P_ext; [| |exact HP]; auto.
  - injection H as <- <- <-. eapply P_ext; [| |exact HP]; auto.
  - apply bind_Ok in H as (d & _ & H).
    eapply process_input_preserves; [|exact H].
    eapply P_ext; [| |exact HP]; auto.
Qed.

End StreamPreserved.

Lemma out_inv_ext s s' :
  output s' = output s → good s' = good s ∨ good s' = false → out_inv s → out_inv s'.
Proof. intros Ho _. apply out_inv_same_output, Ho. Qed.

Lemma out_inv_op o s b s' : out_inv s → run_op o s = Ok (b, s') → out_inv s'.
Proof. apply run_op_out_inv. Qed.

Lemma bad_ext s s' :
  output s' = output s → good s' = good s ∨ good s' = false →
  good s = false → good s' = false.
Proof. intros _ [Hg|Hg] Hb; congruence. Qed.

Lemma bad_op o s b s' : good s = false → run_op o s = Ok (b, s') → good s' = false.
Proof. intros Hb H. apply run_op_good in H. destruct b; congruence. Qed.

Lemma handle_loop_none fuel : ∀ w s cursor toprocess w' s',
  handle_loop fuel w s cursor toprocess = Ok (w', s', None) → good s' = false.
Proof.
  induction fuel as [|fuel IH]; intros w s cursor toprocess w' s' H;
    cbn [handle_loop] in H.
  - case_bool_decide; discriminate.
  - case_bool_decide as Hhdr; [|discriminate].
    apply bind_Ok in H as (msg & _ & H).
    case_bool_decide as Hcomplete.
    + apply bind_Ok in H as ([w1 s1] & _ & H). eapply IH; exact H.
    + case_bool_decide as Hover; [|discriminate]. injection H as <- <-. reflexivity.
Qed.

(** X6. A stream marked bad stays bad, and every failure marks it. No
    operation of the output side, no program of client calls run by a
    callback and no handling of received input sets [good] back to true;
    an operation of the output side that returns false, and a
    [server_stream_handle] that returns false, leave the stream marked
    bad, so the end of the tick reaps it. *)
Theorem bad_stream_stays_bad (s : stream_data_t) :
  (∀ o b s', run_op o s = Ok (b, s') →
     (b = false → good s' = false) ∧ (good s = false → good s' = false)) ∧
  (∀ p u s', run_cb p s = Ok (u, s') → good s = false → good s' = false) ∧
  (∀ fuel w b w' s', server_stream_handle fuel w s = Ok (b, w', s') →
     (b = false → good s' = false) ∧ (good s = false → good s' = false)).
Proof.
  split; [|split].
  - intros o b s' H. split.
    + intros ->. exact (run_op_good _ _ _ _ H).
    + intros Hb. exact (bad_op _ _ _ _ Hb H).
  - intros p u s' H Hb.
    exact (run_cb_preserves (λ s, good s = false) bad_ext bad_op p s u s' Hb H).
  - intros fuel w b w' s' H. split.
    + intros ->. unfold server_stream_handle in H.
      apply bind_Ok in H as (u & _ & H).
      destruct (recv (fd s) _) as [r sk].
      destruct r as [| |bs]; try (injection H as <- <-; reflexivity).
      apply bind_Ok in H as (d & _ & H). unfold process_input in H.
      apply bind_Ok in H as ([[w1 s1] exit] & H1 & H).
      destruct exit as [[cursor toprocess]|].
      * apply bind_Ok in H as (u' & _ & H). apply bind_Ok in H as (d' & _ & H).
        discriminate.
      * injection H as <- <-. eapply handle_loop_none; exact H1.
    + intros Hb.
      exact (server_stream_handle_preserves (λ s, good s = false) bad_ext bad_op
               fuel w s b w' s' Hb H).
Qed.

(** * The channel table stays free of collisions *)

Lemma keeps_sym s s' : keeps s s' → keeps s' s.
Proof. unfold keeps. intros [-> ->]. auto. Qed.

Lemma slots_lookup_inv s i b c :
  slots s !! i = Some (b, c) →
  ∃ cl, clients s !! i = Some cl ∧ stream cl = b ∧ chan cl = c.
Proof.
  unfold slots. rewrite list_lookup_fmap. intros H.
  destruct (clients s !! i) as [cl|]; [|discriminate].
  injection H as <- <-. eauto.
Qed.

Lemma table_ok_same_clients s s' : clients s' = clients s → table_ok s → table_ok s'.
Proof. unfold table_ok. intros ->. auto. Qed.

Lemma stream_init_table_ok sk : 0 ≤ MAX_TRANSACTIONS → table_ok (stream_init sk).
Proof.
  intros H0. unfold table_ok, stream_init. cbn [clients].
  rewrite length_replicate. split; [lia|].
  intros i cl Hcl Hst. apply lookup_replicate in Hcl as [-> _]. discriminate.
Qed.

Lemma stream_get_client_table_ok s c isnew s1 :
  table_ok s → 0 ≤ c → stream_get_client s c = Ok (isnew, s1) → table_ok s1.
Proof.
  intros [Hlen Hok] H0 H.
  apply stream_get_client_spec in H as (_ & cl & Hcl & _ & Hs1).
  destruct (stream cl); [destruct Hs1 as [_ ->]; split; assumption|].
  subst s1. split; cbn [clients set_clients]; [rewrite length_insert; exact Hlen|].
  intros i cl' Hcl' Hst. destruct (decide (i = Z.to_nat c)) as [->|Hne].
  - rewrite list_lookup_insert_eq in Hcl' by (eapply lookup_lt_Some; exact Hcl).
    injection Hcl' as <-. cbn. lia.
  - rewrite list_lookup_insert_ne in Hcl' by auto. eapply Hok; eauto.
Qed.

Lemma stream_get_client_returns s c :
  table_ok s → 0 ≤ c < MAX_TRANSACTIONS →
  ∃ isnew s1, stream_get_client s c = Ok (isnew, s1).
Proof.
  intros [Hlen Hok] Hc. unfold stream_get_client.
  rewrite bool_decide_true by lia. cbn [assert mbind res_mbind res_bind].
  destruct (lookup_lt_is_Some_2 (clients s) (Z.to_nat c)) as [cl Hcl]; [lia|].
  rewrite Hcl. cbn [access]. cbn [mbind res_mbind res_bind].
  destruct (stream cl) eqn:Est; [|eauto].
  rewrite bool_decide_true by (rewrite (Hok _ _ Hcl Est); lia).
  cbn [assert mbind res_mbind res_bind]. eauto.
Qed.

Lemma handle_message_table_ok w s cursor msg w' s' :
  table_ok s → 0 ≤ msg_chan msg →
  handle_message w s cursor msg = Ok (w', s') → table_ok s'.
Proof.
  intros [Hlen Hok] H0 H. apply handle_message_spec in H
    as (_ & cl & ud & cl' & Hcl & _ & _ & _ & Hlen' & Hcl' & Hch & _ & Hoth).
  split; [lia|]. intros i cl2 Hcl2 Hst.
  destruct (decide (i = Z.to_nat (msg_chan msg))) as [->|Hne].
  - rewrite Hcl' in Hcl2. injection Hcl2 as <-. lia.
  - pose proof (slots_lookup _ _ _ Hcl2) as Hs. rewrite (Hoth i Hne) in Hs.
    apply slots_lookup_inv in Hs as (cl0 & Hcl0 & Hst0 & Hch0).
    rewrite <- Hch0. apply (Hok _ _ Hcl0). congruence.
Qed.

Lemma handle_loop_table_ok fuel : ∀ w s cursor toprocess w' s' exit,
  table_ok s → handle_loop fuel w s cursor toprocess = Ok (w', s', exit) →
  table_ok s'.
Proof.
  induction fuel as [|fuel IH]; intros w s cursor toprocess w' s' exit Hok H;
    cbn [handle_loop] in H.
  - case_bool_decide; [discriminate|]. injection H as <- <- <-. exact Hok.
  - case_bool_decide as Hhdr; [|injection H as <- <- <-; exact Hok].
    apply bind_Ok in H as (msg & Hmsg & H).
    apply read_hdr_Ok in Hmsg as (bs & _ & ->).
    case_bool_decide as Hcomplete.
    + apply bind_Ok in H as ([w1 s1] & H1 & H).
      eapply IH; [|exact H]. eapply handle_message_table_ok; [exact Hok| |exact H1].
      apply decode_hdr_chan_range.
    + case_bool_decide as Hover; injection H as <- <- <-; exact Hok.
Qed.

Lemma server_stream_handle_table_ok fuel w s b w' s' :
  table_ok s → server_stream_handle fuel w s = Ok (b, w', s') → table_ok s'.
Proof.
  unfold server_stream_handle. intros Hok H.
  apply bind_Ok in H as (u & _ & H).
  destruct (recv (fd s) _) as [r sk].
  destruct r as [| |bs]; try (injection H as <- <- <-; exact Hok).
  apply bind_Ok in H as (d & _ & H). unfold process_input in H.
  apply bind_Ok in H as ([[w1 s1] exit] & H1 & H).
  apply handle_loop_table_ok in H1; [|exact Hok].
  destruct exit as [[cursor toprocess]|]; [|injection H as <- <- <-; exact H1].
  apply bind_Ok in H as (u' & _ & H). apply bind_Ok in H as (d' & _ & H).
  injection H as <- <- <-. exact H1.
Qed.

(** X8. Collisions do not happen. On a channel table in which every
    occupied slot holds the channel of its index, as [stream_init] leaves it,
    [stream_get_client] returns for every channel below [MAX_TRANSACTIONS]:
    neither of its assertions fails and the access is inside the table. The
    handling of a frame, callbacks included, and a whole
    [server_stream_handle] leave the table in that state. *)
Theorem collisions_do_not_happen (s : stream_data_t) :
  table_ok s →
  (∀ c, 0 ≤ c < MAX_TRANSACTIONS →
        ∃ isnew s1, stream_get_client s c = Ok (isnew, s1) ∧ table_ok s1) ∧
  (∀ w cursor msg w' s',
     0 ≤ msg_chan msg → handle_message w s cursor msg = Ok (w', s') → table_ok s') ∧
  (∀ fuel w b w' s',
     server_stream_handle fuel w s = Ok (b, w', s') → table_ok s').
Proof.
  intros Hok. split; [|split].
  - intros c Hc. destruct (stream_get_client_returns s c Hok Hc) as (isnew & s1 & H).
    exists isnew, s1. split; [exact H|].
    eapply stream_get_client_table_ok; [exact Hok| |exact H]. lia.
  - intros w cursor msg w' s' H0 H. eapply handle_message_table_ok; eauto.
  - intros fuel w b w' s' H. eapply server_stream_handle_table_ok; eauto.
Qed.

(** X9. A channel is reused after its disconnect. When a disconnect frame
    on a channel has been handled, the next frame on that channel finds the
    slot unoccupied: [onconnect] is invoked again, with the user state of
    the slot zeroed whatever the previous client left there, before the
    frame is delivered. *)
Theorem channel_reused_after_disconnect (w : world) (s : stream_data_t)
    (cursor : Z) (msg : ShubMessageHdr) (w1 : world) (s1 : stream_data_t)
    (cursor' : Z) (msg' : ShubMessageHdr) (w2 : world) (s2 : stream_data_t) :
  msg_code msg = MSG_DISCONNECT →
  handle_message w s cursor msg = Ok (w1, s1) →
  msg_chan msg' = msg_chan msg →
  handle_message w1 s1 cursor' msg' = Ok (w2, s2) →
  ∃ ud,
    trace w2 = trace w1 ++
      [EvConnect (msg_chan msg) 0;
       delivery (msg_chan msg) ud msg' (payload_at s1 cursor' msg')].
Proof.
  intros Hcode H1 Hchan H2.
  apply handle_message_spec in H1
    as (_ & cl & ud & cl' & _ & _ & _ & _ & _ & Hcl' & _ & Hst & _).
  rewrite bool_decide_true in Hst by exact Hcode. cbn [negb] in Hst.
  apply handle_message_spec in H2
    as (_ & cl2 & ud2 & cl2' & Hcl2 & _ & Htr & _).
  rewrite Hchan in *. rewrite Hcl' in Hcl2. injection Hcl2 as <-.
  rewrite Hst in Htr. exists ud2. exact Htr.
Qed.

(** * Well-formed streams *)

Lemma out_inv_handle fuel w s b w' s' :
  out_inv s → server_stream_handle fuel w s = Ok (b, w', s') → out_inv s'.
Proof. apply (server_stream_handle_preserves out_inv out_inv_ext out_inv_op). Qed.

Lemma out_inv_bad s : out_inv s → out_inv (set_good false s).
Proof. apply out_inv_same_output. reflexivity. Qed.

Lemma out_inv_flush s b s' : out_inv s → stream_flush s = Ok (b, s') → out_inv s'.
Proof. apply (run_op_out_inv OpFlush). Qed.

Lemma live_ok_handle fuel w s b w' s' :
  live_ok s → server_stream_handle fuel w s = Ok (b, w', s') → live_ok s'.
Proof.
  intros [Ho Ht] H. split; [eapply out_inv_handle; eauto|].
  eapply server_stream_handle_table_ok; eauto.
Qed.

Lemma live_ok_bad s : live_ok s → live_ok (set_good false s).
Proof. intros [Ho Ht]. split; [apply out_inv_bad, Ho|exact Ht]. Qed.

Lemma live_ok_flush s b s' : live_ok s → stream_flush s = Ok (b, s') → live_ok s'.
Proof.
  intros [Ho Ht] H. split; [eapply out_inv_flush; eauto|].
  apply stream_flush_keeps in H as [_ Hc]. eapply table_ok_same_clients; eauto.
Qed.

Lemma live_ok_init sk : 0 ≤ MAX_TRANSACTIONS → live_ok (stream_init sk).
Proof.
  intros H0. split; [left; apply stream_init_idle|apply stream_init_table_ok, H0].
Qed.

Lemma stream_flush_result s b s' :
  out_inv s → stream_flush s = Ok (b, s') →
  if b then ready (output s') = 0 else good s' = false.
Proof.
  intros [Hi|(c & p & Hb)] H.
  - apply stream_flush_idle in H as [_ H]; [|exact Hi]. destruct b; apply H.
  - eapply stream_flush_building in H as [_ H]; [|exact Hb]. destruct b; apply H.
Qed.

(** * Accepting *)

Lemma occupied_in_replicate n : ∀ c z,
  occupied_in (replicate n (false, z)) c = [].
Proof. induction n as [|n IH]; intros c z; cbn; [reflexivity|apply IH]. Qed.

(** X14. A failed [accept] leaves the chains as they are. A successful one
    puts a stream for the new socket at the head of the used chain, on a
    record taken from the free chain when there is one, and leaves the other
    streams alone. Nothing of an earlier connection shows in the new stream:
    it is good, both buffers are allocated and empty, no reply is under
    construction and no channel is connected. *)
Theorem accepted_stream_is_fresh (sk : socket_t) (server : server_data_t) :
  0 ≤ MAX_TRANSACTIONS →
  server_accept None server = server ∧
  ∃ s,
    used_chain (server_accept (Some sk) server) = s :: used_chain server ∧
    free_chain (server_accept (Some sk) server) = tail (free_chain server) ∧
    fd s = sk ∧ good s = true ∧
    idle s ∧ committed s = [] ∧
    in_inv s ∧ buffered s = [] ∧
    table_ok s ∧ occupied s = [].
Proof.
  intros H0. split; [reflexivity|]. exists (stream_init sk). cbn [server_accept used_chain free_chain].
  split; [reflexivity|]. split; [reflexivity|]. split; [reflexivity|].
  split; [reflexivity|]. split; [apply stream_init_idle|].
  split; [reflexivity|]. split.
  { unfold in_inv, stream_init. cbn [input data ready]. rewrite length_replicate.
    unfold HDR in *. lia. }
  split; [reflexivity|]. split; [apply stream_init_table_ok, H0|].
  unfold occupied, slots, stream_init. cbn [clients].
  rewrite fmap_replicate. apply occupied_in_replicate.
Qed.

(** * Receiving *)

Lemma process_input_spec fuel w s :
  Z.of_nat (length (data (input s))) = BUFFER_SIZE →
  0 ≤ ready (input s) ≤ BUFFER_SIZE →
  fits_int (leftover (buffered s)) →
  (length (buffered s) < fuel)%nat →
  terminates (process_input fuel w s) ∧
  ∀ b w' s',
    process_input fuel w s = Ok (b, w', s') →
    dispatched (trace w') =
      dispatched (trace w) ++ (dispatch_of_frame <$> frames (buffered s)) ∧
    if b then
      ¬ oversize (leftover (buffered s)) ∧
      buffered s' = leftover (buffered s) ∧
      ready (input s') = Z.of_nat (length (leftover (buffered s))) ∧
      length (data (input s')) = length (data (input s))
    else
      oversize (leftover (buffered s)) ∧ good s' = false ∧ input s' = input s.
Proof.
  intros Hlen Hr Hfit Hfuel.
  assert (Hbl : length (buffered s) = Z.to_nat (ready (input s))).
  { unfold buffered. rewrite length_take. lia. }
  assert (Hd : deframe fuel (buffered s) = deframe (length (buffered s)) (buffered s))
    by (apply deframe_fuel; lia).
  destruct (handle_loop_spec fuel w s 0 (ready (input s))) as [Hterm Hloop];
    try lia.
  { rewrite drop_0. fold (buffered s). rewrite Hd. exact Hfit. }
  rewrite drop_0 in Hloop. fold (buffered s) in Hloop. rewrite Hd in Hloop.
  cbn zeta in Hloop.
  change (deframe (length (buffered s)) (buffered s)).1
    with (frames (buffered s)) in Hloop.
  change (deframe (length (buffered s)) (buffered s)).2
    with (leftover (buffered s)) in Hloop.
  unfold process_input. split.
  - apply bind_terminates; [exact Hterm|]. intros [[w1 s1] exit] H1.
    destruct exit as [[cursor toprocess]|]; [|auto with term].
    apply bind_terminates; [auto with term|]. intros _ _.
    apply bind_terminates; [|intros; auto with term].
    case_bool_decide; [|auto with term].
    apply bind_terminates; intros; auto with term.
  - intros b w' s' H. apply bind_Ok in H as ([[w1 s1] exit] & H1 & H).
    apply Hloop in H1 as (Htr & Hin & Hexit).
    destruct exit as [[cursor toprocess]|].
    + destruct Hexit as (Hc & Ht & Hsum & Htl & Hnover).
      apply bind_Ok in H as (u & _ & H). apply bind_Ok in H as (d & Hd' & H).
      injection H as <- <- <-. split; [exact Htr|].
      split; [exact Hnover|].
      assert (Htll : Z.of_nat (length (leftover (buffered s))) = toprocess).
      { rewrite Htl, length_take, length_drop. lia. }
      unfold buffered at 2. cbn [input set_input ready data].
      rewrite Hin in Hd'.
      assert (Hgoal : take (Z.to_nat toprocess) d = leftover (buffered s) ∧
                      length d = length (data (input s))).
      { case_bool_decide as Hpos.
        - apply bind_Ok in Hd' as (m & Hm & Hd'). apply access_Ok in Hm, Hd'.
          apply load_Some in Hm as (_ & _ & _ & ->). rewrite <- Htl in Hd'.
          pose proof (load_store_same _ _ _ _ Hd') as Hl.
          apply load_Some in Hl as (_ & _ & _ & Hl). rewrite drop_0, Htll in Hl.
          split; [symmetry; exact Hl|]. apply (store_length _ _ _ _ Hd').
        - injection Hd' as <-. split; [|reflexivity].
          assert (toprocess = 0) as -> by lia. cbn [Z.to_nat take].
          destruct (leftover (buffered s)); [reflexivity|cbn in Htll; lia]. }
      destruct Hgoal as [Hg1 Hg2]. split; [exact Hg1|]. split; [lia|exact Hg2].
    + injection H as <- <- <-. split; [exact Htr|].
      destruct Hexit as [Hg Hover]. auto.
Qed.

Lemma deframe_partial n : ∀ bs,
  (length bs < n)%nat →
  Z.of_nat (length (deframe n bs).2) < HDR ∨
  Z.of_nat (length (deframe n bs).2) <
    HDR + msg_size (decode_hdr (take (Z.to_nat HDR) (deframe n bs).2)).
Proof.
  induction n as [|n IH]; intros bs Hn; [lia|]. cbn [deframe].
  case_bool_decide as H1; [|left; cbn [snd]; lia].
  case_bool_decide as H2; [|right; cbn [snd]; lia].
  pose proof (decode_hdr_size_range (take (Z.to_nat HDR) bs)) as Hsz.
  specialize (IH (drop (Z.to_nat (HDR + msg_size (decode_hdr (take (Z.to_nat HDR) bs)))) bs)).
  destruct (deframe n _) as [fs tl]. cbn [snd] in *. apply IH.
  rewrite length_drop. unfold HDR in *. lia.
Qed.

(** A tail that is not fatal leaves room in the buffer. *)
Lemma leftover_room bs :
  ¬ oversize (leftover bs) → Z.of_nat (length (leftover bs)) < BUFFER_SIZE.
Proof.
  intros Hnover. unfold leftover in *.
  rewrite (deframe_fuel (length bs) (S (length bs)) bs) in * by lia.
  destruct (deframe_partial (S (length bs)) bs) as [H|H]; [lia|lia|].
  unfold oversize in Hnover. lia.
Qed.

Lemma recv_data sk avail bs sk' :
  recv sk avail = (RecvData bs, sk') →
  0 < Z.of_nat (length bs) ≤ Z.max 0 avail ∧
  sock_fd sk' = sock_fd sk ∧ sock_out sk' = sock_out sk ∧ wire sk' = wire sk ∧
  closed sk' = closed sk.
Proof.
  unfold recv. destruct (sock_in sk) as [|[| |bs0] rest]; try discriminate.
  destruct (take (Z.to_nat avail) bs0) as [|b now] eqn:E; [discriminate|].
  intros [= <- <-]. cbn [sock_fd sock_out wire closed].
  split; [|auto]. rewrite <- E, length_take.
  destruct bs0; [rewrite take_nil in E; discriminate|].
  destruct (Z.to_nat avail) eqn:Ea; [discriminate|]. cbn [length]. lia.
Qed.

(** X7. What [server_stream_handle] does with a receive, on an input
    buffer with room left. A failed receive, or the end of the stream, makes
    it return false with the stream marked bad; no callback is invoked and
    the buffers stay as they are. Bytes received are put behind the bytes
    still unprocessed, inside the buffer, and the frames handed over are the
    complete frames of the two together: a frame that arrives in pieces is
    delivered once, when its last byte is there. When the handler returns
    true, what is kept is the partial tail and the buffer has room again, so
    that the assertion of the next call holds. *)
Theorem receive_then_deframe (fuel : nat) (w : world) (s : stream_data_t) :
  in_inv s →
  (∀ r sk,
     recv (fd s) (BUFFER_SIZE - ready (input s)) = (r, sk) →
     r = RecvError ∨ r = RecvEof →
     server_stream_handle fuel w s = Ok (false, w, set_good false (set_fd sk s))) ∧
  (∀ bs sk,
     recv (fd s) (BUFFER_SIZE - ready (input s)) = (RecvData bs, sk) →
     (∃ s1,
        server_stream_handle fuel w s = process_input fuel w s1 ∧
        buffered s1 = buffered s ++ bs ∧
        Z.of_nat (length (buffered s ++ bs)) ≤ BUFFER_SIZE ∧
        fd s1 = sk ∧ output s1 = output s ∧ clients s1 = clients s ∧
        good s1 = good s) ∧
     (fits_int (leftover (buffered s ++ bs)) →
      (length (buffered s ++ bs) < fuel)%nat →
      terminates (server_stream_handle fuel w s) ∧
      ∀ b w' s',
        server_stream_handle fuel w s = Ok (b, w', s') →
        dispatched (trace w') =
          dispatched (trace w) ++ (dispatch_of_frame <$> frames (buffered s ++ bs)) ∧
        if b then in_inv s' ∧ buffered s' = leftover (buffered s ++ bs)
        else oversize (leftover (buffered s ++ bs)) ∧ good s' = false)).
Proof.
  intros [Hlen Hr].
  assert (Havail : to_int (BUFFER_SIZE - ready (input s)) =
                   BUFFER_SIZE - ready (input s))
    by (apply to_int_id; unfold INT_MAX in *; lia).
  split.
  - intros r sk Hrecv Hfail. unfold server_stream_handle.
    rewrite Havail, bool_decide_true by lia.
    cbn [assert mbind res_mbind res_bind]. rewrite Hrecv.
    destruct Hfail as [-> | ->]; reflexivity.
  - intros bs sk Hrecv.
    pose proof (recv_data _ _ _ _ Hrecv) as [Hbs _].
    rewrite Z.max_r in Hbs by lia.
    destruct (store_is_Some (data (input s)) (ready (input s)) bs) as [d Hd];
      [lia|lia|].
    pose proof (store_length _ _ _ _ Hd) as Hdl.
    set (s1 := set_input
                 (mkBuffer (ready (input s) + Z.of_nat (length bs))
                           (curmessage (input s)) d) (set_fd sk s)).
    assert (Hrun : server_stream_handle fuel w s = process_input fuel w s1).
    { unfold server_stream_handle.
      rewrite Havail, bool_decide_true by lia.
      cbn [assert mbind res_mbind res_bind]. rewrite Hrecv.
      cbn [input set_fd]. rewrite Hd. cbn [access]. cbn [mbind res_mbind res_bind].
      rewrite to_int_id by (unfold INT_MAX in *; lia). reflexivity. }
    assert (Hbuf : buffered s1 = buffered s ++ bs).
    { unfold buffered, s1. cbn [input set_input ready data].
      apply store_Some in Hd as (_ & _ & ->).
      replace (Z.to_nat (ready (input s) + Z.of_nat (length bs)))
        with (length (take (Z.to_nat (ready (input s))) (data (input s)) ++ bs))
        by (rewrite length_app, length_take; lia).
      rewrite app_assoc. apply take_app_length. }
    split.
    { exists s1. split; [exact Hrun|]. split; [exact Hbuf|].
      split; [|repeat split].
      rewrite length_app. unfold buffered. rewrite length_take. lia. }
    intros Hfit Hfuel. rewrite Hrun.
    destruct (process_input_spec fuel w s1) as [Hterm Hret].
    + unfold s1. cbn [input set_input data]. lia.
    + unfold s1. cbn [input set_input ready]. lia.
    + rewrite Hbuf. exact Hfit.
    + rewrite Hbuf. exact Hfuel.
    + split; [exact Hterm|]. intros b w' s' H.
      apply Hret in H as [Htr H]. rewrite Hbuf in *. split; [exact Htr|].
      destruct b.
      * destruct H as (Hnover & Hb' & Hr' & Hl'). split; [|exact Hb'].
        pose proof (leftover_room _ Hnover) as Hroom.
        unfold in_inv. unfold s1 in Hl'. cbn [input set_input data] in Hl'. lia.
      * destruct H as (Hover & Hg & _). auto.
Qed.

(** * Frames written and frames read *)

Lemma deframe_enframe fs : ∀ n,
  Forall well_framed fs → (length fs ≤ n)%nat →
  deframe n (concat (enframe <$> fs)) = (fs, []).
Proof.
  induction fs as [|[h p] fs IH]; intros n Hwf Hn.
  - destruct n; reflexivity.
  - destruct n as [|n]; [cbn in Hn; lia|].
    inversion Hwf as [|? ? (Hsz & Hsr & Hcr & Hchr) Hwf']; subst.
    cbn [fst snd] in *. cbn [fmap list_fmap concat]. fold (fmap enframe fs).
    unfold enframe at 1. cbn [fst snd].
    set (rest := concat (enframe <$> fs)).
    pose proof (length_encode_hdr h) as Hel.
    assert (Hh : decode_hdr (take (Z.to_nat HDR) ((encode_hdr h ++ p) ++ rest)) = h).
    { rewrite <- app_assoc, take_app_length' by lia.
      rewrite <- (app_nil_r (encode_hdr h)), decode_encode_hdr.
      rewrite !to_uint_id, Z.mod_small by lia. destruct h; reflexivity. }
    cbn [deframe]. rewrite Hh.
    rewrite bool_decide_true by (rewrite !length_app; lia).
    rewrite bool_decide_true by (rewrite !length_app; lia).
    replace (drop (Z.to_nat (HDR + msg_size h)) ((encode_hdr h ++ p) ++ rest))
      with rest by (rewrite drop_app_length'; [reflexivity|rewrite length_app; lia]).
    unfold rest. rewrite (IH n Hwf') by (cbn in Hn; lia).
    f_equal. f_equal. f_equal.
    rewrite <- !app_assoc, drop_app_length' by lia.
    rewrite take_app_length' by lia. reflexivity.
Qed.

Lemma length_concat_enframe fs :
  (length fs ≤ length (concat (enframe <$> fs)))%nat.
Proof.
  induction fs as [|f fs IH]; [reflexivity|].
  cbn [fmap list_fmap concat length]. fold (fmap enframe fs).
  rewrite length_app. unfold enframe at 1. rewrite length_app.
  pose proof (length_encode_hdr (fst f)). unfold HDR in *. lia.
Qed.

(** X10. What the write path lays out, the read path parses back. An input
    buffer that holds frames laid out as the reply builder lays them out,
    each a header whose size field counts its payload, is consumed whole by
    the deframing loop: it terminates and, when the handler returns, it
    returns true, the frames handed to the upper layer are those frames, with
    their channels and payloads, in order, and no byte is left over. *)
Theorem laid_out_frames_parse_back (fuel : nat) (w : world) (s : stream_data_t)
    (fs : list (ShubMessageHdr * list byte)) :
  Z.of_nat (length (data (input s))) = BUFFER_SIZE →
  0 ≤ ready (input s) ≤ BUFFER_SIZE →
  Forall well_framed fs →
  buffered s = concat (enframe <$> fs) →
  (length (buffered s) < fuel)%nat →
  frames (buffered s) = fs ∧
  terminates (process_input fuel w s) ∧
  ∀ b w' s',
    process_input fuel w s = Ok (b, w', s') →
    b = true ∧
    dispatched (trace w') = dispatched (trace w) ++ (dispatch_of_frame <$> fs) ∧
    ready (input s') = 0.
Proof.
  intros Hlen Hr Hwf Hbuf Hfuel.
  assert (Hd : deframe (length (buffered s)) (buffered s) = (fs, [])).
  { rewrite Hbuf. apply deframe_enframe; [exact Hwf|apply length_concat_enframe]. }
  assert (Hfr : frames (buffered s) = fs) by (unfold frames; rewrite Hd; reflexivity).
  assert (Hlo : leftover (buffered s) = []) by (unfold leftover; rewrite Hd; reflexivity).
  split; [exact Hfr|].
  destruct (process_input_spec fuel w s Hlen Hr) as [Hterm Hret].
  - rewrite Hlo. unfold fits_int. cbn [length]. unfold HDR. lia.
  - exact Hfuel.
  - split; [exact Hterm|]. intros b w' s' H.
    apply Hret in H as [Htr H]. rewrite Hfr in Htr. rewrite Hlo in H.
    destruct b.
    + destruct H as (_ & _ & Hr' & _). auto.
    + destruct H as ((Hover & _) & _). cbn [length] in Hover. unfold HDR in Hover. lia.
Qed.

(** * What a frame and a callback cannot reach *)

(** X16. The handling of a frame on one channel leaves every other channel
    as it was: whatever the callbacks do, the slots of the other channels
    are occupied or free as before, the table keeps its size and the input
    buffer its content. *)
Theorem frame_touches_its_channel_only (w : world) (s : stream_data_t)
    (cursor : Z) (msg : ShubMessageHdr) (w' : world) (s' : stream_data_t) :
  handle_message w s cursor msg = Ok (w', s') →
  input s' = input s ∧
  length (clients s') = length (clients s) ∧
  ∀ i, i ≠ Z.to_nat (msg_chan msg) → slots s' !! i = slots s !! i.
Proof.
  intros H. apply handle_message_spec in H
    as (_ & cl & ud & cl' & _ & _ & _ & Hin & Hlen & _ & _ & _ & Hoth).
  auto.
Qed.

(** X17. A callback reaches the stream through the client interface only,
    and the client interface writes to the output side and to the user
    state of the clients, nothing else: after any program of client calls
    the input buffer, the occupancy of the channel table and the descriptor
    are as before, a well-formed output buffer is still well formed and a
    table free of collisions still is. *)
Theorem client_calls_leave_input_alone (p : cb U) (s : stream_data_t) (u : U)
    (s' : stream_data_t) :
  run_cb p s = Ok (u, s') →
  input s' = input s ∧ slots s' = slots s ∧
  sock_fd (fd s') = sock_fd (fd s) ∧
  (out_inv s → out_inv s') ∧
  (table_ok s → table_ok s').
Proof.
  intros H. pose proof (run_cb_keeps _ _ _ _ H) as Hk.
  split; [apply Hk|]. split; [apply Hk|].
  split; [eapply run_cb_fd; exact H|]. split.
  - intros Hinv. exact (run_cb_preserves out_inv out_inv_ext out_inv_op p s u s' Hinv H).
  - intros [Hlen Hok]. split; [rewrite (keeps_length _ _ Hk); exact Hlen|].
    intros i cl' Hcl' Hst.
    destruct (keeps_lookup _ _ _ _ (keeps_sym _ _ Hk) Hcl') as (cl & Hcl & Hst' & Hch').
    rewrite <- Hch'. apply (Hok _ _ Hcl). congruence.
Qed.

(** * The flush pass *)

(** X18. The flush pass of a tick returns on a used chain of streams with
    well-formed output buffers. It keeps every stream in the chain, in
    order, with its descriptor, input buffer and channel table; afterwards
    each stream has nothing committed left to send or is marked bad. The
    free chain is not touched. *)
Theorem server_flush_returns (server : server_data_t) :
  Forall out_inv (used_chain server) →
  ∃ server',
    server_flush server = Ok server' ∧
    free_chain server' = free_chain server ∧
    Forall2 (λ s s', sock_fd (fd s') = sock_fd (fd s) ∧
                     input s' = input s ∧ clients s' = clients s ∧
                     out_inv s' ∧
                     (ready (output s') = 0 ∨ good s' = false))
            (used_chain server) (used_chain server').
Proof.
  destruct server as [used free]. cbn [used_chain free_chain]. intros HP.
  unfold server_flush. cbn [used_chain free_chain].
  assert (H : ∃ used', flush_chain used = Ok used' ∧
            Forall2 (λ s s', sock_fd (fd s') = sock_fd (fd s) ∧
                             input s' = input s ∧ clients s' = clients s ∧
                             out_inv s' ∧
                             (ready (output s') = 0 ∨ good s' = false))
                    used used').
  { induction HP as [|s next Hs Hnext IH]; [exists []; split; [reflexivity|constructor]|].
    destruct (stream_flush_returns s Hs) as (b & s1 & H1).
    destruct IH as (next' & Hn & Hall). cbn [flush_chain]. rewrite H1.
    cbn [mbind res_mbind res_bind]. rewrite Hn.
    cbn [mbind res_mbind res_bind]. eexists. split; [reflexivity|].
    constructor; [|exact Hall].
    split; [eapply stream_flush_fd; exact H1|].
    pose proof (stream_flush_keeps _ _ _ H1) as [Hin Hcl].
    split; [exact Hin|]. split; [exact Hcl|].
    split; [eapply out_inv_flush; eauto|].
    apply stream_flush_result in H1; [|exact Hs]. destruct b; auto. }
  destruct H as (used' & -> & Hall). cbn [mbind res_mbind res_bind].
  eexists. split; [reflexivity|]. cbn [used_chain free_chain]. auto.
Qed.

(** * Room in the output buffer *)

(** X20. The capacity check of [stream_message_append], for lengths within
    the range of [int]. An append that would make the reply, header
    included, larger than the buffer is refused whatever is committed: it
    returns false, marks the stream bad and writes nothing. One that makes
    the reply exactly as large as the buffer is accepted when nothing is
    committed. *)
Theorem append_checks_capacity (s : stream_data_t) (c : Z) (p : list byte)
    (len : Z) (src : list byte) :
  building s c p → 0 ≤ len →
  Z.of_nat (length p) + HDR + len ≤ INT_MAX →
  (BUFFER_SIZE < Z.of_nat (length p) + HDR + len →
   stream_message_append s len src = Ok (false, set_good false s)) ∧
  (Z.of_nat (length p) + HDR + len = BUFFER_SIZE →
   ready (output s) = 0 → len ≤ Z.of_nat (length src) →
   ∃ s', stream_message_append s len src = Ok (true, s') ∧
         building s' c (p ++ take (Z.to_nat len) src) ∧
         inprogress s' = BUFFER_SIZE).
Proof.
  intros Hb Hlen Hint. split.
  - intros Hover. apply (stream_message_append_oversize s c p); [exact Hb|lia|lia].
  - intros Hfit Hz Hsrc.
    pose proof (building_bounds _ _ _ Hb) as (Hr & Hroom & Hdl).
    pose proof (building_read_hdr _ _ _ Hb) as Hh.
    pose proof Hb as (_ & _ & Hcur & _).
    assert (Hrun : ∃ r, stream_message_append s len src = Ok (true, r)).
    { unfold stream_message_append. rewrite Hcur, Hh.
      cbn [mbind res_mbind res_bind msg_size]. unfold append_newsize.
      rewrite (to_int_id (Z.of_nat (length p) + HDR + len))
        by (unfold INT_MAX, HDR in *; lia).
      rewrite bool_decide_false by lia.
      rewrite to_int_id by (unfold INT_MAX, HDR in *; lia).
      rewrite bool_decide_false by lia.
      cbn [mbind res_mbind res_bind negb]. rewrite Hcur, Hh.
      cbn [mbind res_mbind res_bind msg_size].
      destruct (load_is_Some src 0 len) as [bytes Hbytes]; [lia|lia|lia|].
      rewrite Hbytes. cbn [access]. cbn [mbind res_mbind res_bind].
      pose proof (load_length _ _ _ _ Hbytes) as Hbl.
      destruct (store_is_Some (data (output s))
                  (ready (output s) + Z.of_nat (length p) + HDR) bytes) as [d Hd];
        [unfold HDR in *; lia|unfold HDR in *; lia|].
      rewrite Hd. cbn [access]. cbn [mbind res_mbind res_bind].
      pose proof (store_length _ _ _ _ Hd) as Hdl'.
      destruct (store_is_Some d (ready (output s))
                  (le32 (to_uint (Z.of_nat (length p) + len)))) as [d2 ->];
        [lia|rewrite length_le32; unfold HDR in *; lia|].
      cbn [access]. cbn [mbind res_mbind res_bind]. eauto. }
    destruct Hrun as [s' Hrun]. exists s'. split; [exact Hrun|].
    eapply stream_message_append_spec in Hrun as [_ (bytes & Hbytes & Hb' & _)];
      [|exact Hb].
    pose proof (load_length _ _ _ _ Hbytes) as Hbl.
    apply load_Some in Hbytes as (_ & _ & _ & Hbytes). rewrite drop_0 in Hbytes.
    subst bytes. split; [exact Hb'|].
    rewrite (building_inprogress _ _ _ Hb'), length_app, Nat2Z.inj_add. lia.
Qed.

(** X21. Replies are batched: while there is room, the reply builder sends
    nothing. [stream_message_start] on an idle stream with room for a
    header, [stream_message_append] of bytes that fit behind what is
    committed, and [stream_message_finish] return true without a call of
    [send]: the socket is as before, and with it the bytes on the wire. *)
Theorem nothing_sent_while_room (s : stream_data_t) (c : Z) (p : list byte)
    (len : Z) (src : list byte) :
  (idle s → ready (output s) + HDR ≤ BUFFER_SIZE →
   ∃ s', stream_message_start s c = Ok (true, s') ∧
         fd s' = fd s ∧ ready (output s') = ready (output s) ∧
         building s' (to_uint c) []) ∧
  (building s c p → 0 ≤ len ≤ Z.of_nat (length src) →
   ready (output s) + Z.of_nat (length p) + HDR + len ≤ BUFFER_SIZE →
   ∃ s', stream_message_append s len src = Ok (true, s') ∧
         fd s' = fd s ∧ ready (output s') = ready (output s) ∧
         building s' c (p ++ take (Z.to_nat len) src)) ∧
  (building s c p →
   ∃ s', stream_message_finish s = Ok (true, s') ∧ fd s' = fd s ∧ idle s').
Proof.
  split; [|split].
  - intros Hi Hroom. pose proof Hi as (Hdl & Hr & Hcur).
    assert (Hrun : ∃ d, stream_message_start s c =
              Ok (true, set_output (mkBuffer (ready (output s))
                                             (Some (ready (output s))) d) s)).
    { unfold stream_message_start. rewrite Hcur.
      rewrite to_int_id, to_size_t_id by (unfold INT_MAX, HDR in *; lia).
      rewrite bool_decide_false by lia. cbn [mbind res_mbind res_bind negb].
      pose proof (length_encode_hdr (mkHdr 0 CODE_R (to_uint c))) as Hel.
      destruct (store_is_Some (data (output s)) (ready (output s))
                  (encode_hdr (mkHdr 0 CODE_R (to_uint c)))) as [d ->]; [lia|lia|].
      cbn [access]. cbn [mbind res_mbind res_bind]. eauto. }
    destruct Hrun as [d Hrun]. eexists. split; [exact Hrun|].
    split; [reflexivity|]. split; [reflexivity|].
    apply stream_message_start_spec in Hrun as [_ (Hb & _)]; [exact Hb|exact Hi].
  - intros Hb Hlen Hroom.
    pose proof (building_bounds _ _ _ Hb) as (Hr & _ & Hdl).
    pose proof (building_read_hdr _ _ _ Hb) as Hh.
    pose proof Hb as (_ & _ & Hcur & _).
    assert (Hrun : ∃ d, stream_message_append s len src =
              Ok (true, set_output (mkBuffer (ready (output s))
                                             (Some (ready (output s))) d) s)).
    { unfold stream_message_append. rewrite Hcur, Hh.
      cbn [mbind res_mbind res_bind msg_size]. unfold append_newsize.
      rewrite (to_int_id (Z.of_nat (length p) + HDR + len))
        by (unfold INT_MAX, HDR in *; lia).
      rewrite bool_decide_false by lia.
      rewrite to_int_id by (unfold INT_MAX, HDR in *; lia).
      rewrite bool_decide_false by lia.
      cbn [mbind res_mbind res_bind negb]. rewrite Hcur, Hh.
      cbn [mbind res_mbind res_bind msg_size].
      destruct (load_is_Some src 0 len) as [bytes Hbytes]; [lia|lia|lia|].
      rewrite Hbytes. cbn [access]. cbn [mbind res_mbind res_bind].
      pose proof (load_length _ _ _ _ Hbytes) as Hbl.
      destruct (store_is_Some (data (output s))
                  (ready (output s) + Z.of_nat (length p) + HDR) bytes) as [d Hd];
        [unfold HDR in *; lia|unfold HDR in *; lia|].
      rewrite Hd. cbn [access]. cbn [mbind res_mbind res_bind].
      pose proof (store_length _ _ _ _ Hd) as Hdl'.
      destruct (store_is_Some d (ready (output s))
                  (le32 (to_uint (Z.of_nat (length p) + len)))) as [d2 ->];
        [lia|rewrite length_le32; unfold HDR in *; lia|].
      cbn [access]. cbn [mbind res_mbind res_bind]. eauto. }
    destruct Hrun as [d Hrun]. eexists. split; [exact Hrun|].
    split; [reflexivity|]. split; [reflexivity|].
    eapply stream_message_append_spec in Hrun as [_ (bytes & Hbytes & Hb' & _)];
      [|exact Hb].
    apply load_Some in Hbytes as (_ & _ & _ & Hbytes). rewrite drop_0 in Hbytes.
    subst bytes. exact Hb'.
  - intros Hb.
    destruct (stream_message_finish_spec _ _ _ Hb) as (s' & Hfin & _ & Hi & _ & Hfd & _).
    exists s'. auto.
Qed.

End Dtmd.

Arguments mkWorld {U} upper trace.
Arguments upper {U} w.
Arguments trace {U} w.

(** * The server: stream records in memory *)

(** The stream records are allocated objects: the chains of the server, the
    events of epoll and the clients handed to the upper layer all point to
    them, and a callback may call the client interface on any client it
    holds, of whichever connection. Here the records live in a memory, a
    [stream_t] is the address of one, a [client_t] the address of a slot of
    the channel table of a stream, and the functions that run callbacks pass
    the whole memory along. The functions of a single stream are the ones
    above. *)
Module Server.

Definition stream_t : Type := nat.

(** [stream->clients + chan] *)
Record client_t : Type := mkClientPtr {
  owner : stream_t;          (* the stream whose channel table holds the slot *)
  slot : Z                   (* the index of the slot: the channel *)
}.

(** A callback: a program of calls of the client interface, each on a
    client of any stream, that ends with the new state of the upper layer. *)
Inductive cb (U : Type) : Type :=
| Return (u : U)
| Call (client : client_t) (c : api_call) (k : Z → cb U).

Arguments Return {U} u.
Arguments Call {U} client c k.

(** One entry of the array filled by [epoll_wait]; [data.ptr] is NULL for
    the listener and the stream otherwise. *)
Inductive epoll_event : Type :=
| OnListener (accepted : option socket_t)
| OnStream (stream : stream_t) (epollerr epollin : bool).

(** The server with the records allocated so far; the chains link
    addresses. *)
Record server_data_t : Type := mkServer {
  mem : list stream_data_t;
  used_chain : list stream_t;
  free_chain : list stream_t
}.

Section Loop.

Variable BUFFER_SIZE : Z.
Variable MAX_TRANSACTIONS : Z.
Variable MSG_DISCONNECT : Z.

Variable U : Type.
Variable onconnect : U → client_t → cb U.
Variable ondisconnect : U → client_t → cb U.
Variable onmessage : U → client_t → Z → list byte → cb U.

Record world : Type := mkWorld {
  upper : U;                            (* the state of the upper layer *)
  trace : list (stream_t * event)       (* the callbacks invoked so far *)
}.

Fixpoint run_cb (p : cb U) (m : list stream_data_t)
  : res (U * list stream_data_t) :=
  match p with
  | Return u => Ok (u, m)
  | Call client c k =>
      s ← access (m !! owner client);
      '(r, s) ← do_call BUFFER_SIZE c (slot client) s;
      run_cb (k r) (<[owner client := s]> m)
  end.

(** The call of a callback: it is recorded, then its program runs. *)
Definition invoke (ev : stream_t * event) (p : cb U) (w : world)
    (m : list stream_data_t) : res (world * list stream_data_t) :=
  '(u, m) ← run_cb p m;
  Ok (mkWorld u (trace w ++ [ev]), m).

(** The "handle message" block of [server_stream_handle]. *)
Definition handle_message (w : world) (m : list stream_data_t) (st : stream_t)
    (cursor : Z) (msg : ShubMessageHdr) : res (world * list stream_data_t) :=
  let client := mkClientPtr st (msg_chan msg) in
  s ← access (m !! st);
  '(isnew, s) ← stream_get_client MAX_TRANSACTIONS s (msg_chan msg);
  let m := <[st := s]> m in
  '(w, m) ←
    (if isnew : bool then
       ud ← client_get_userdata s (msg_chan msg);
       invoke (st, EvConnect (msg_chan msg) ud) (onconnect (upper w) client) w m
     else Ok (w, m));
  if bool_decide (msg_code msg = MSG_DISCONNECT) then
    s ← access (m !! st);
    ud ← client_get_userdata s (msg_chan msg);
    '(w, m) ← invoke (st, EvDisconnect (msg_chan msg) ud)
                      (ondisconnect (upper w) client) w m;
    s ← access (m !! st);
    cl ← access (clients s !! Z.to_nat (msg_chan msg));
    Ok (w, <[st := set_clients
                         (<[Z.to_nat (msg_chan msg) :=
                              mkClient false (userdata cl) (chan cl)]> (clients s)) s]> m)
  else
    s ← access (m !! st);
    let payload := payload_at s cursor msg in
    ud ← client_get_userdata s (msg_chan msg);
    invoke (st, EvMessage (msg_chan msg) ud (msg_size msg) payload)
           (onmessage (upper w) client (msg_size msg) payload) w m.

(** The deframing loop of [server_stream_handle]. *)
Fixpoint handle_loop (fuel : nat) (w : world) (m : list stream_data_t)
    (st : stream_t) (cursor toprocess : Z)
  : res (world * list stream_data_t * option (Z * Z)) :=
  if bool_decide (to_size_t toprocess >= HDR) then
    match fuel with
    | O => OutOfFuel
    | S fuel' =>
        s ← access (m !! st);
        msg ← read_hdr (data (input s)) cursor;
        let header_and_data := to_int (HDR + msg_size msg) in
        if bool_decide (header_and_data ≤ toprocess) then
          '(w, m) ← handle_message w m st cursor msg;
          handle_loop fuel' w m st (cursor + header_and_data)
                      (to_int (toprocess - header_and_data))
        else if bool_decide (header_and_data > BUFFER_SIZE) then
          Ok (w, <[st := set_good false s]> m, None)
        else Ok (w, m, Some (cursor, toprocess))
    end
  else Ok (w, m, Some (cursor, toprocess)).

Definition process_input (fuel : nat) (w : world) (m : list stream_data_t)
    (st : stream_t) : res (bool * world * list stream_data_t) :=
  s ← access (m !! st);
  '(w, m, exit) ← handle_loop fuel w m st 0 (ready (input s));
  match exit with
  | None => Ok (false, w, m)
  | Some (cursor, toprocess) =>
      _ ← assert (bool_decide (toprocess >= 0));
      s ← access (m !! st);
      d ← (if bool_decide (toprocess > 0) then
             bs ← access (load (data (input s)) cursor toprocess);
             access (store (data (input s)) 0 bs)
           else Ok (data (input s)));
      Ok (true, w,
          <[st := set_input (mkBuffer toprocess (curmessage (input s)) d) s]> m)
  end.

Definition server_stream_handle (fuel : nat) (w : world) (m : list stream_data_t)
    (st : stream_t) : res (bool * world * list stream_data_t) :=
  s ← access (m !! st);
  let avail := to_int (BUFFER_SIZE - ready (input s)) in
  _ ← assert (bool_decide (avail > 0));
  let '(r, sk) := recv (fd s) avail in
  let s := set_fd sk s in
  match r with
  | RecvError | RecvEof => Ok (false, w, <[st := set_good false s]> m)
  | RecvData bs =>
      d ← access (store (data (input s)) (ready (input s)) bs);
      let recved := Z.of_nat (length bs) in
      let s := set_input (mkBuffer (to_int (ready (input s) + recved))
                                   (curmessage (input s)) d) s in
      process_input fuel w (<[st := s]> m) st
  end.

Fixpoint disconnect_all (n : nat) (c : Z) (w : world) (m : list stream_data_t)
    (st : stream_t) : res (world * list stream_data_t) :=
  match n with
  | O => Ok (w, m)
  | S n' =>
      s ← access (m !! st);
      client ← access (clients s !! Z.to_nat c);
      '(w, m) ←
        (if stream client then
           invoke (st, EvDisconnect c (userdata client))
                  (ondisconnect (upper w) (mkClientPtr st c)) w m
         else Ok (w, m));
      disconnect_all n' (c + 1) w m st
  end.

(** What is left of a record when its socket is closed and its buffers and
    channel table are freed. *)
Definition release (s : stream_data_t) : stream_data_t :=
  {| fd := close (fd s);
     good := good s;
     input := mkBuffer (ready (input s)) (curmessage (input s)) [];
     output := mkBuffer (ready (output s)) (curmessage (output s)) [];
     clients := [] |}.

Definition server_stream_destroy (w : world) (m : list stream_data_t)
    (st : stream_t) : res (world * list stream_data_t) :=
  '(w, m) ← disconnect_all (Z.to_nat MAX_TRANSACTIONS) 0 w m st;
  s ← access (m !! st);
  Ok (w, <[st := release s]> m).

(** The walk of [server_close_bad_streams] over the used chain. *)
Fixpoint close_bad (w : world) (m : list stream_data_t) (chain free : list stream_t)
  : res (world * list stream_data_t * list stream_t * list stream_t) :=
  match chain with
  | [] => Ok (w, m, [], free)
  | s :: next =>
      sd ← access (m !! s);
      if good sd then
        '(w, m, chain', free') ← close_bad w m next free;
        Ok (w, m, s :: chain', free')
      else
        '(w, m) ← server_stream_destroy w m s;
        close_bad w m next (s :: free)
  end.

Definition server_close_bad_streams (w : world) (server : server_data_t)
  : res (world * server_data_t) :=
  '(w, m, used, free) ←
    close_bad w (mem server) (used_chain server) (free_chain server);
  Ok (w, mkServer m used free).

Fixpoint flush_chain (m : list stream_data_t) (chain : list stream_t)
  : res (list stream_data_t) :=
  match chain with
  | [] => Ok m
  | s :: next =>
      sd ← access (m !! s);
      '(_, sd) ← stream_flush sd;
      flush_chain (<[s := sd]> m) next
  end.

Definition server_flush (server : server_data_t) : res server_data_t :=
  m ← flush_chain (mem server) (used_chain server);
  Ok (mkServer m (used_chain server) (free_chain server)).

(** What [accept] hands back: a new socket, or nothing for -1. The record
    is the head of the free chain when there is one and comes from [malloc]
    otherwise. *)
Definition server_accept (accepted : option socket_t) (server : server_data_t)
  : server_data_t :=
  match accepted with
  | None => server
  | Some sk =>
      match free_chain server with
      | [] =>
          mkServer (mem server ++ [stream_init BUFFER_SIZE MAX_TRANSACTIONS sk])
                   (length (mem server) :: used_chain server) []
      | s :: rest =>
          mkServer (<[s := stream_init BUFFER_SIZE MAX_TRANSACTIONS sk]> (mem server))
                   (s :: used_chain server) rest
      end
  end.

Definition handle_event (fuel : nat) (e : epoll_event) (w : world)
    (server : server_data_t) : res (world * server_data_t) :=
  match e with
  | OnListener accepted => Ok (w, server_accept accepted server)
  | OnStream st epollerr epollin =>
      if epollerr then
        s ← access (mem server !! st);
        Ok (w, mkServer (<[st := set_good false s]> (mem server))
                        (used_chain server) (free_chain server))
      else if epollin then
        '(_, w, m) ← server_stream_handle fuel w (mem server) st;
        Ok (w, mkServer m (used_chain server) (free_chain server))
      else Ok (w, server)
  end.

Fixpoint handle_events (fuel : nat) (es : list epoll_event) (w : world)
    (server : server_data_t) : res (world * server_data_t) :=
  match es with
  | [] => Ok (w, server)
  | e :: es' =>
      '(w, server) ← handle_event fuel e w server;
      handle_events fuel es' w server
  end.

(** One turn of the loop of [server_loop] (the epoll branch), for the
    events [epoll_wait] reported: the events are handled, the bad streams
    are closed, the streams are flushed. *)
Definition server_tick (fuel : nat) (es : list epoll_event) (w : world)
    (server : server_data_t) : res (world * server_data_t) :=
  '(w, server) ← handle_events fuel es w server;
  '(w, server) ← server_close_bad_streams w server;
  server ← server_flush server;
  Ok (w, server).

(** [server_loop]: one turn per return of [epoll_wait], until it fails
    ([None]). *)
Fixpoint server_loop (fuel : nat) (turns : list (option (list epoll_event)))
    (w : world) (server : server_data_t) : res (world * server_data_t) :=
  match turns with
  | [] | None :: _ => Ok (w, server)
  | Some es :: turns' =>
      '(w, server) ← server_tick fuel es w server;
      server_loop fuel turns' w server
  end.

(** ** How one record changes *)

Hypothesis BUFFER_SIZE_lo : HDR ≤ BUFFER_SIZE.
Hypothesis BUFFER_SIZE_hi : BUFFER_SIZE ≤ INT_MAX.

(** What the handling of events does to a record, one change at a time: a
    call of the client interface by a callback, the resolution of a channel,
    the vacating of a slot, the marking as bad, the update of the input
    buffer and of the socket by a receive. *)
Inductive step : stream_data_t → stream_data_t → Prop :=
| step_call c client s r s' :
    do_call BUFFER_SIZE c client s = Ok (r, s') → step s s'
| step_resolve s channel isnew s' :
    0 ≤ channel →
    stream_get_client MAX_TRANSACTIONS s channel = Ok (isnew, s') → step s s'
| step_vacate s i cl :
    clients s !! i = Some cl →
    step s (set_clients (<[i := mkClient false (userdata cl) (chan cl)]> (clients s)) s)
| step_bad s : step s (set_good false s)
| step_input s i :
    length (data i) = length (data (input s)) → step s (set_input i s)
| step_socket s sk :
    sock_fd sk = sock_fd (fd s) → closed sk = closed (fd s) → step s (set_fd sk s).

(** A record after some steps. *)
Inductive evolves : stream_data_t → stream_data_t → Prop :=
| evolves_refl s : evolves s s
| evolves_step s1 s2 s3 : step s1 s2 → evolves s2 s3 → evolves s1 s3.

(** The records of a memory after some handling: none is added or lost and
    each has changed by such steps. *)
Definition mem_evolves (m m' : list stream_data_t) : Prop :=
  length m' = length m ∧
  ∀ a s, m !! a = Some s → ∃ s', m' !! a = Some s' ∧ evolves s s'.

(** The chains link distinct records of the memory. *)
Definition chains_ok (server : server_data_t) : Prop :=
  NoDup (used_chain server ++ free_chain server) ∧
  ∀ a, a ∈ used_chain server ++ free_chain server → (a < length (mem server))%nat.

(** Every stream of the used chain satisfies [Q]. *)
Definition served (Q : stream_data_t → Prop) (server : server_data_t) : Prop :=
  ∀ a, a ∈ used_chain server → ∃ s, mem server !! a = Some s ∧ Q s.

Lemma evolves_once s s' : step s s' → evolves s s'.
Proof. intros H. econstructor 2; [exact H|constructor]. Qed.

Lemma evolves_trans s1 s2 s3 : evolves s1 s2 → evolves s2 s3 → evolves s1 s3.
Proof. induction 1; [auto|]. intros H3. econstructor 2; eauto. Qed.

Lemma mem_evolves_refl m : mem_evolves m m.
Proof. split; [reflexivity|]. intros a s H. exists s. split; [exact H|constructor]. Qed.

Lemma mem_evolves_trans m1 m2 m3 :
  mem_evolves m1 m2 → mem_evolves m2 m3 → mem_evolves m1 m3.
Proof.
  intros [Hl1 H1] [Hl2 H2]. split; [congruence|]. intros a s Hs.
  destruct (H1 a s Hs) as (s2 & Hs2 & Hr1).
  destruct (H2 a s2 Hs2) as (s3 & Hs3 & Hr2).
  exists s3. split; [exact Hs3|]. eapply evolves_trans; eassumption.
Qed.

Lemma mem_evolves_insert m a s s' :
  m !! a = Some s → evolves s s' → mem_evolves m (<[a := s']> m).
Proof.
  intros Hs Hr. split; [apply length_insert|]. intros b sb Hb.
  destruct (decide (b = a)) as [->|Hne].
  - rewrite Hs in Hb. injection Hb as <-. exists s'.
    split; [|exact Hr]. apply list_lookup_insert_eq. eapply lookup_lt_Some; exact Hs.
  - exists sb. rewrite list_lookup_insert_ne by auto. split; [exact Hb|constructor].
Qed.

Lemma mem_evolves_step m a s s' :
  m !! a = Some s → step s s' → mem_evolves m (<[a := s']> m).
Proof. intros Hs Hst. eapply mem_evolves_insert; [exact Hs|]. apply evolves_once, Hst. Qed.

Lemma run_cb_evolves p : ∀ m u m', run_cb p m = Ok (u, m') → mem_evolves m m'.
Proof.
  induction p as [u0|client c k IH]; intros m u m' H; cbn [run_cb] in H.
  - injection H as _ <-. apply mem_evolves_refl.
  - apply bind_Ok in H as (s & Hs & H). apply access_Ok in Hs.
    apply bind_Ok in H as ([r s1] & H1 & H).
    eapply mem_evolves_trans; [|eapply IH; exact H].
    eapply mem_evolves_step; [exact Hs|]. econstructor 1. exact H1.
Qed.

Lemma invoke_evolves ev p w m w' m' :
  invoke ev p w m = Ok (w', m') → trace w' = trace w ++ [ev] ∧ mem_evolves m m'.
Proof.
  unfold invoke. intros H. apply bind_Ok in H as ([u m1] & H1 & H).
  injection H as <- <-. split; [reflexivity|]. eapply run_cb_evolves; exact H1.
Qed.

Lemma handle_message_evolves w m st cursor msg w' m' :
  0 ≤ msg_chan msg →
  handle_message w m st cursor msg = Ok (w', m') → mem_evolves m m'.
Proof.
  unfold handle_message. intros H0 H.
  apply bind_Ok in H as (s & Hs & H). apply access_Ok in Hs.
  apply bind_Ok in H as ([isnew s1] & Hget & H).
  assert (E1 : mem_evolves m (<[st := s1]> m)).
  { eapply mem_evolves_step; [exact Hs|]. econstructor 2; [exact H0|exact Hget]. }
  apply bind_Ok in H as ([w2 m2] & Hconn & H).
  assert (E2 : mem_evolves m m2).
  { destruct isnew.
    - apply bind_Ok in Hconn as (ud & _ & Hconn).
      apply invoke_evolves in Hconn as [_ Hconn].
      eapply mem_evolves_trans; eassumption.
    - injection Hconn as <- <-. exact E1. }
  case_bool_decide as Hcode.
  - apply bind_Ok in H as (s2 & _ & H). apply bind_Ok in H as (ud & _ & H).
    apply bind_Ok in H as ([w3 m3] & Hinv & H).
    apply invoke_evolves in Hinv as [_ Hinv].
    apply bind_Ok in H as (s3 & Hs3 & H). apply access_Ok in Hs3.
    apply bind_Ok in H as (cl & Hcl & H). apply access_Ok in Hcl.
    injection H as <- <-.
    eapply mem_evolves_trans; [exact E2|].
    eapply mem_evolves_trans; [exact Hinv|].
    eapply mem_evolves_step; [exact Hs3|]. econstructor 3. exact Hcl.
  - apply bind_Ok in H as (s2 & _ & H). apply bind_Ok in H as (ud & _ & H).
    apply invoke_evolves in H as [_ H].
    eapply mem_evolves_trans; eassumption.
Qed.

Lemma handle_loop_evolves fuel : ∀ w m st cursor toprocess w' m' exit,
  handle_loop fuel w m st cursor toprocess = Ok (w', m', exit) → mem_evolves m m'.
Proof.
  induction fuel as [|fuel IH]; intros w m st cursor toprocess w' m' exit H;
    cbn [handle_loop] in H.
  - case_bool_decide; [discriminate|]. injection H as <- <- <-. apply mem_evolves_refl.
  - case_bool_decide as Hhdr; [|injection H as <- <- <-; apply mem_evolves_refl].
    apply bind_Ok in H as (s & Hs & H). apply access_Ok in Hs.
    apply bind_Ok in H as (msg & Hmsg & H).
    apply read_hdr_Ok in Hmsg as (bs & _ & ->).
    case_bool_decide as Hcomplete.
    + apply bind_Ok in H as ([w1 m1] & H1 & H).
      eapply mem_evolves_trans; [|eapply IH; exact H].
      eapply handle_message_evolves; [|exact H1]. apply decode_hdr_chan_range.
    + case_bool_decide as Hover; injection H as <- <- <-; [|apply mem_evolves_refl].
      eapply mem_evolves_step; [exact Hs|constructor].
Qed.

Lemma process_input_evolves fuel w m st b w' m' :
  process_input fuel w m st = Ok (b, w', m') → mem_evolves m m'.
Proof.
  unfold process_input. intros H.
  apply bind_Ok in H as (s & _ & H).
  apply bind_Ok in H as ([[w1 m1] exit] & H1 & H).
  apply handle_loop_evolves in H1.
  destruct exit as [[cursor toprocess]|]; [|injection H as <- <- <-; exact H1].
  apply bind_Ok in H as (u & _ & H).
  apply bind_Ok in H as (s1 & Hs1 & H). apply access_Ok in Hs1.
  apply bind_Ok in H as (d & Hd & H). injection H as <- <- <-.
  eapply mem_evolves_trans; [exact H1|].
  eapply mem_evolves_step; [exact Hs1|]. constructor. cbn [data].
  case_bool_decide.
  - apply bind_Ok in Hd as (bs & _ & Hd). apply access_Ok in Hd.
    eapply store_length; exact Hd.
  - injection Hd as <-. reflexivity.
Qed.

Lemma recv_fd sk avail r sk' :
  recv sk avail = (r, sk') → sock_fd sk' = sock_fd sk ∧ closed sk' = closed sk.
Proof.
  unfold recv. destruct (sock_in sk) as [|[| |bs] rest]; intros [= <- <-]; auto.
Qed.

Lemma server_stream_handle_evolves fuel w m st b w' m' :
  server_stream_handle fuel w m st = Ok (b, w', m') → mem_evolves m m'.
Proof.
  unfold server_stream_handle. intros H.
  apply bind_Ok in H as (s & Hs & H). apply access_Ok in Hs.
  apply bind_Ok in H as (u & _ & H).
  destruct (recv (fd s) _) as [r sk] eqn:Er. apply recv_fd in Er as [Hfd Hcl].
  assert (E1 : evolves s (set_fd sk s)) by (apply evolves_once; constructor; assumption).
  destruct r as [| |bs].
  - injection H as <- <- <-. eapply mem_evolves_insert; [exact Hs|].
    eapply evolves_trans; [exact E1|]. apply evolves_once. constructor.
  - injection H as <- <- <-. eapply mem_evolves_insert; [exact Hs|].
    eapply evolves_trans; [exact E1|]. apply evolves_once. constructor.
  - apply bind_Ok in H as (d & Hd & H). apply access_Ok in Hd.
    eapply mem_evolves_trans; [|eapply process_input_evolves; exact H].
    eapply mem_evolves_insert; [exact Hs|].
    eapply evolves_trans; [exact E1|]. apply evolves_once. constructor. cbn [data input set_fd].
    eapply store_length; exact Hd.
Qed.

Lemma disconnect_all_evolves n : ∀ c w m st w' m',
  disconnect_all n c w m st = Ok (w', m') → mem_evolves m m'.
Proof.
  induction n as [|n IH]; intros c w m st w' m' H; cbn [disconnect_all] in H.
  - injection H as <- <-. apply mem_evolves_refl.
  - apply bind_Ok in H as (s & _ & H). apply bind_Ok in H as (cl & _ & H).
    apply bind_Ok in H as ([w1 m1] & H1 & H).
    eapply mem_evolves_trans; [|eapply IH; exact H].
    destruct (stream cl).
    + eapply invoke_evolves; exact H1.
    + injection H1 as <- <-. apply mem_evolves_refl.
Qed.

Lemma server_stream_destroy_releases w m st w' m' :
  server_stream_destroy w m st = Ok (w', m') →
  ∃ m1 s1, mem_evolves m m1 ∧ m1 !! st = Some s1 ∧ m' = <[st := release s1]> m1.
Proof.
  unfold server_stream_destroy. intros H.
  apply bind_Ok in H as ([w1 m1] & H1 & H).
  apply bind_Ok in H as (s1 & Hs1 & H). apply access_Ok in Hs1.
  injection H as <- <-. exists m1, s1.
  split; [eapply disconnect_all_evolves; exact H1|auto].
Qed.

(** ** What the steps keep *)

Lemma step_keeps_bad s s' : step s s' → good s = false → good s' = false.
Proof.
  intros Hst Hb. destruct Hst as [c client s r s' H|s ch isnew s' _ H|s i cl _|s|s i _|s sk _ _];
    try exact Hb; try reflexivity.
  - exact (do_call_preserves BUFFER_SIZE (λ s, good s = false) bad_ext
             (bad_op BUFFER_SIZE) c client s r s' Hb H).
  - apply stream_get_client_spec in H as (_ & cl & _ & _ & H).
    destruct (stream cl); [destruct H as [_ ->]; exact Hb|subst s'; exact Hb].
Qed.

Lemma evolves_keeps_bad s s' : evolves s s' → good s = false → good s' = false.
Proof. induction 1; eauto using step_keeps_bad. Qed.

Lemma table_ok_keeps s s' :
  keeps s s' → table_ok MAX_TRANSACTIONS s → table_ok MAX_TRANSACTIONS s'.
Proof.
  intros Hk [Hlen Hok]. split; [rewrite (keeps_length _ _ Hk); exact Hlen|].
  intros i cl' Hcl' Hst.
  destruct (keeps_lookup _ _ _ _ (keeps_sym _ _ Hk) Hcl') as (cl & Hcl & Hst' & Hch').
  rewrite <- Hch'. apply (Hok _ _ Hcl). congruence.
Qed.

Lemma step_keeps_live s s' :
  step s s' →
  live_ok BUFFER_SIZE MAX_TRANSACTIONS s → live_ok BUFFER_SIZE MAX_TRANSACTIONS s'.
Proof.
  intros Hst [Ho Ht].
  destruct Hst as [c client s r s' H|s ch isnew s' H0 H|s i cl Hcl|s|s i _|s sk _ _].
  - split.
    + exact (do_call_preserves BUFFER_SIZE (out_inv BUFFER_SIZE)
               (out_inv_ext BUFFER_SIZE)
               (out_inv_op BUFFER_SIZE BUFFER_SIZE_lo BUFFER_SIZE_hi)
               c client s r s' Ho H).
    + eapply table_ok_keeps; [|exact Ht]. eapply do_call_keeps; exact H.
  - split; [|eapply stream_get_client_table_ok; eauto].
    apply stream_get_client_spec in H as (_ & cl & _ & _ & H).
    destruct (stream cl); [destruct H as [_ ->]; exact Ho|subst s'].
    eapply out_inv_same_output; [|exact Ho]. reflexivity.
  - split; [eapply out_inv_same_output; [|exact Ho]; reflexivity|].
    destruct Ht as [Hlen Hok]. split; cbn [clients set_clients].
    + rewrite length_insert. exact Hlen.
    + intros j cl' Hcl' Hst. destruct (decide (j = i)) as [->|Hne].
      * rewrite list_lookup_insert_eq in Hcl' by (eapply lookup_lt_Some; exact Hcl).
        injection Hcl' as <-. discriminate.
      * rewrite list_lookup_insert_ne in Hcl' by auto. eapply Hok; eauto.
  - apply live_ok_bad. split; assumption.
  - split; [eapply out_inv_same_output; [|exact Ho]; reflexivity|exact Ht].
  - split; [eapply out_inv_same_output; [|exact Ho]; reflexivity|exact Ht].
Qed.

Lemma evolves_keeps_live s s' :
  evolves s s' →
  live_ok BUFFER_SIZE MAX_TRANSACTIONS s → live_ok BUFFER_SIZE MAX_TRANSACTIONS s'.
Proof. induction 1; eauto using step_keeps_live. Qed.

Lemma do_call_freed c client s r s' :
  clients s = [] → do_call BUFFER_SIZE c client s = Ok (r, s') → False.
Proof.
  intros Hfree H. destruct c; cbn [do_call] in H;
    unfold client_set_userdata, client_get_userdata, client_message_start,
      client_message_append, client_message_finish, client_message_shortcut,
      client_stream in H;
    rewrite Hfree in H; cbn in H; discriminate H.
Qed.

Lemma step_keeps_destroyed s s' : step s s' → destroyed s → destroyed s'.
Proof.
  intros Hst (Hcl & Hfree & Hin & Hout).
  destruct Hst as [c client s r s' H|s ch isnew s' _ H|s i cl Hi|s|s i Hlen|s sk _ Hsk].
  - destruct (do_call_freed _ _ _ _ _ Hfree H).
  - apply stream_get_client_spec in H as (_ & cl & Hi & _). rewrite Hfree in Hi.
    discriminate.
  - rewrite Hfree in Hi. discriminate.
  - repeat split; assumption.
  - repeat split; try assumption. cbn [input set_input].
    rewrite Hin in Hlen. destruct (data i); [reflexivity|discriminate].
  - repeat split; try assumption. cbn [fd set_fd]. congruence.
Qed.

Lemma evolves_keeps_destroyed s s' : evolves s s' → destroyed s → destroyed s'.
Proof. induction 1; eauto using step_keeps_destroyed. Qed.

Lemma release_destroyed s : destroyed (release s).
Proof. repeat split. Qed.

(** ** The walks over the used chain *)

Lemma filter_ext_in {A} (P Q : A → Prop) `{∀ x, Decision (P x)} `{∀ x, Decision (Q x)}
    (l : list A) :
  (∀ x, x ∈ l → P x ↔ Q x) → filter P l = filter Q l.
Proof.
  induction l as [|x l IH]; intros Hext; [reflexivity|].
  rewrite !filter_cons.
  assert (Hx : P x ↔ Q x) by (apply Hext; left).
  rewrite IH by (intros y Hy; apply Hext; right; exact Hy).
  destruct (decide (P x)), (decide (Q x)); tauto.
Qed.

Lemma close_bad_spec chain : ∀ w m free w' m' chain' free',
  NoDup chain →
  close_bad w m chain free = Ok (w', m', chain', free') →
  ∃ ds,
    NoDup ds ∧ (∀ a, a ∈ ds → a ∈ chain) ∧
    free' = reverse ds ++ free ∧
    chain' = filter (λ a, a ∉ ds) chain ∧
    length m' = length m ∧
    (∀ a, a ∈ ds → ∃ s', m' !! a = Some s' ∧ destroyed s') ∧
    (∀ a s, a ∉ ds → m !! a = Some s → ∃ s', m' !! a = Some s' ∧ evolves s s') ∧
    (∀ a s, a ∈ chain → m !! a = Some s → good s = false → a ∈ ds) ∧
    (∀ a, a ∈ chain' → ∃ s, m !! a = Some s ∧ good s = true).
Proof.
  induction chain as [|st next IH]; intros w m free w' m' chain' free' Hnd H;
    cbn [close_bad] in H.
  - injection H as <- <- <- <-. exists []. cbn.
    split; [constructor|]. split; [auto|]. split; [reflexivity|].
    split; [reflexivity|]. split; [reflexivity|].
    split; [intros a Ha; inversion Ha|].
    split; [intros a s _ Hs; exists s; split; [exact Hs|constructor]|].
    split; [intros a s Ha; inversion Ha|intros a Ha; inversion Ha].
  - apply list.NoDup_cons in Hnd as [Hst Hnd].
    apply bind_Ok in H as (sd & Hsd & H). apply access_Ok in Hsd.
    destruct (good sd) eqn:Eg.
    + apply bind_Ok in H as ([[[w1 m1] chain1] free1] & H1 & H).
      injection H as <- <- <- <-.
      destruct (IH _ _ _ _ _ _ _ Hnd H1)
        as (ds & Hds & Hsub & Hfree & Hchain & Hlen & Hdead & Hrest & Hbad & Hkept).
      assert (Hnot : st ∉ ds) by (intros Hin; apply Hst, Hsub, Hin).
      exists ds. split; [exact Hds|].
      split; [intros a Ha; right; apply Hsub, Ha|]. split; [exact Hfree|].
      split; [rewrite filter_cons, decide_True by exact Hnot; congruence|].
      split; [exact Hlen|]. split; [exact Hdead|]. split; [exact Hrest|]. split.
      * intros a s Ha Hs Hb. apply elem_of_cons in Ha as [->|Ha]; [congruence|].
        eapply Hbad; eauto.
      * intros a Ha. apply elem_of_cons in Ha as [->|Ha]; [eauto|].
        apply Hkept. exact Ha.
    + apply bind_Ok in H as ([w1 m1] & H1 & H).
      apply server_stream_destroy_releases in H1 as (m0 & s1 & [Hl0 Hev0] & Hs1 & ->).
      destruct (IH _ _ _ _ _ _ _ Hnd H)
        as (ds & Hds & Hsub & Hfree & Hchain & Hlen & Hdead & Hrest & Hbad & Hkept).
      assert (Hnot : st ∉ ds) by (intros Hin; apply Hst, Hsub, Hin).
      assert (Hlt : (st < length m0)%nat) by (eapply lookup_lt_Some; exact Hs1).
      exists (st :: ds). split; [constructor; assumption|].
      split; [intros a Ha; apply elem_of_cons in Ha as [->|Ha];
              [left|right; apply Hsub, Ha]|].
      split; [rewrite Hfree, reverse_cons, <- app_assoc; reflexivity|].
      split.
      { rewrite filter_cons, decide_False by (intros Hn; apply Hn; left).
        rewrite Hchain. apply filter_ext_in. intros a Ha.
        rewrite not_elem_of_cons. split; [|tauto]. intros Hn. split; [|exact Hn].
        intros ->. contradiction. }
      split; [rewrite Hlen, length_insert; exact Hl0|].
      split.
      { intros a Ha. apply elem_of_cons in Ha as [->|Ha]; [|apply Hdead, Ha].
        destruct (Hrest st (release s1) Hnot) as (s' & Hs' & He).
        - apply list_lookup_insert_eq. exact Hlt.
        - exists s'. split; [exact Hs'|].
          eapply evolves_keeps_destroyed; [exact He|apply release_destroyed]. }
      split.
      { intros a s Ha Hs. apply not_elem_of_cons in Ha as [Hne Ha].
        destruct (Hev0 a s Hs) as (s0 & Hs0 & He0).
        destruct (Hrest a s0 Ha) as (s' & Hs' & He).
        - rewrite list_lookup_insert_ne by auto. exact Hs0.
        - exists s'. split; [exact Hs'|]. eapply evolves_trans; eassumption. }
      split.
      { intros a s Ha Hs Hb. apply elem_of_cons in Ha as [->|Ha]; [left|].
        assert (Hne : a ≠ st) by (intros ->; contradiction).
        right. destruct (Hev0 a s Hs) as (s0 & Hs0 & He0).
        eapply (Hbad a s0); [exact Ha| |eapply evolves_keeps_bad; eassumption].
        rewrite list_lookup_insert_ne by auto. exact Hs0. }
      intros a Ha. destruct (Hkept a Ha) as (s0 & Hs0 & Hg0).
      assert (Hne : a ≠ st).
      { intros ->. apply Hst. rewrite Hchain in Ha.
        apply list_elem_of_filter in Ha as [_ Ha]. exact Ha. }
      rewrite list_lookup_insert_ne in Hs0 by auto.
      destruct (lookup_lt_is_Some_2 m a) as [s Hs].
      { rewrite <- Hl0. eapply lookup_lt_Some; exact Hs0. }
      exists s. split; [exact Hs|].
      destruct (Hev0 a s Hs) as (s0' & Hs0' & He0).
      rewrite Hs0 in Hs0'. injection Hs0' as <-.
      destruct (good s) eqn:Egs; [reflexivity|].
      rewrite (evolves_keeps_bad _ _ He0 Egs) in Hg0. discriminate.
Qed.

Lemma close_bad_all_good chain : ∀ w m free,
  (∀ a, a ∈ chain → ∃ s, m !! a = Some s ∧ good s = true) →
  close_bad w m chain free = Ok (w, m, chain, free).
Proof.
  induction chain as [|st next IH]; intros w m free Hgood; cbn [close_bad];
    [reflexivity|].
  destruct (Hgood st) as (s & Hs & Hg); [left|].
  rewrite Hs. cbn [access]. cbn [mbind res_mbind res_bind]. rewrite Hg.
  rewrite IH by (intros a Ha; apply Hgood; right; exact Ha). reflexivity.
Qed.

Lemma flush_chain_spec chain : ∀ m m',
  NoDup chain → flush_chain m chain = Ok m' →
  length m' = length m ∧
  (∀ a, a ∉ chain → m' !! a = m !! a) ∧
  (∀ a, a ∈ chain →
        ∃ s b s', m !! a = Some s ∧ stream_flush s = Ok (b, s') ∧ m' !! a = Some s').
Proof.
  induction chain as [|st next IH]; intros m m' Hnd H; cbn [flush_chain] in H.
  - injection H as <-. split; [reflexivity|]. split; [reflexivity|].
    intros a Ha. inversion Ha.
  - apply list.NoDup_cons in Hnd as [Hst Hnd].
    apply bind_Ok in H as (sd & Hsd & H). apply access_Ok in Hsd.
    apply bind_Ok in H as ([b sd'] & Hfl & H).
    destruct (IH _ _ Hnd H) as (Hlen & Hout & Hin).
    assert (Hlt : (st < length m)%nat) by (eapply lookup_lt_Some; exact Hsd).
    split; [rewrite Hlen; apply length_insert|]. split.
    + intros a Ha. apply not_elem_of_cons in Ha as [Hne Ha].
      rewrite (Hout a Ha). apply list_lookup_insert_ne. auto.
    + intros a Ha. apply elem_of_cons in Ha as [->|Ha].
      * exists sd, b, sd'. split; [exact Hsd|]. split; [exact Hfl|].
        rewrite (Hout st Hst). apply list_lookup_insert_eq. exact Hlt.
      * destruct (Hin a Ha) as (s & b' & s' & Hs & Hfl' & Hs').
        assert (Hne : a ≠ st) by (intros ->; contradiction).
        rewrite list_lookup_insert_ne in Hs by auto. eauto 6.
Qed.

(** ** The chains *)

Lemma chains_ok_same_chains server m :
  length m = length (mem server) → chains_ok server →
  chains_ok (mkServer m (used_chain server) (free_chain server)).
Proof. intros Hlen [Hnd Hin]. split; cbn; [exact Hnd|]. rewrite Hlen. exact Hin. Qed.

Lemma server_accept_chains_ok accepted server :
  chains_ok server → chains_ok (server_accept accepted server).
Proof.
  intros [Hnd Hin]. destruct accepted as [sk|]; cbn [server_accept]; [|split; auto].
  destruct (free_chain server) as [|st rest] eqn:Ef.
  - rewrite app_nil_r in *. split; cbn [used_chain free_chain mem].
    + rewrite app_nil_r. constructor; [|exact Hnd].
      intros Ha. apply Hin in Ha. lia.
    + intros a Ha. rewrite app_nil_r in Ha. rewrite length_app. cbn.
      apply elem_of_cons in Ha as [->|Ha]; [lia|]. apply Hin in Ha. lia.
  - split; cbn [used_chain free_chain mem].
    + change ((st :: used_chain server) ++ rest)
        with (st :: (used_chain server ++ rest)).
      apply list.NoDup_app in Hnd as (Hu & Hdisj & Hf).
      apply list.NoDup_cons in Hf as [Hst Hrest].
      constructor.
      * rewrite elem_of_app. intros [Ha|Ha]; [|contradiction].
        apply (Hdisj st Ha). left.
      * apply list.NoDup_app. split; [exact Hu|]. split; [|exact Hrest].
        intros a Ha Hr. apply (Hdisj a Ha). right. exact Hr.
    + intros a Ha. rewrite length_insert. apply Hin.
      change ((st :: used_chain server) ++ rest)
        with (st :: (used_chain server ++ rest)) in Ha.
      rewrite elem_of_app. rewrite elem_of_cons, elem_of_app in Ha.
      destruct Ha as [->|[Ha|Ha]]; [right; left|left; exact Ha|right; right; exact Ha].
Qed.

Lemma handle_event_chains_ok fuel e w server w' server' :
  chains_ok server → handle_event fuel e w server = Ok (w', server') →
  chains_ok server'.
Proof.
  intros Hok H. destruct e as [accepted|st epollerr epollin]; cbn [handle_event] in H.
  - injection H as <- <-. apply server_accept_chains_ok, Hok.
  - destruct epollerr.
    + apply bind_Ok in H as (s & _ & H). injection H as <- <-.
      apply chains_ok_same_chains; [apply length_insert|exact Hok].
    + destruct epollin; [|injection H as <- <-; exact Hok].
      apply bind_Ok in H as ([[b w1] m1] & H1 & H). injection H as <- <-.
      apply server_stream_handle_evolves in H1 as [Hlen _].
      apply chains_ok_same_chains; [exact Hlen|exact Hok].
Qed.

Lemma handle_events_chains_ok fuel es : ∀ w server w' server',
  chains_ok server → handle_events fuel es w server = Ok (w', server') →
  chains_ok server'.
Proof.
  induction es as [|e es IH]; intros w server w' server' Hok H; cbn [handle_events] in H.
  - injection H as <- <-. exact Hok.
  - apply bind_Ok in H as ([w1 server1] & H1 & H).
    eapply IH; [|exact H]. eapply handle_event_chains_ok; eauto.
Qed.

Lemma server_close_bad_streams_chains_ok w server w' server' :
  chains_ok server → server_close_bad_streams w server = Ok (w', server') →
  chains_ok server' ∧
  ∀ a, a ∈ used_chain server' ++ free_chain server' ↔
       a ∈ used_chain server ++ free_chain server.
Proof.
  intros [Hnd Hin] H. unfold server_close_bad_streams in H.
  apply bind_Ok in H as ([[[w1 m1] used] free] & H1 & H). injection H as <- <-.
  apply list.NoDup_app in Hnd as (Hu & Hdisj & Hf).
  apply close_bad_spec in H1
    as (ds & Hds & Hsub & -> & -> & Hlen & _); [|exact Hu].
  cbn [used_chain free_chain mem].
  assert (Hsame : ∀ a,
            a ∈ filter (λ a, a ∉ ds) (used_chain server) ++ reverse ds ++ free_chain server ↔
            a ∈ used_chain server ++ free_chain server).
  { intros a. rewrite !elem_of_app, list_elem_of_filter, elem_of_reverse.
    destruct (decide (a ∈ ds)) as [Hd|Hd]; [|tauto].
    pose proof (Hsub a Hd). tauto. }
  split; [|exact Hsame]. split; cbn [used_chain free_chain mem].
  - apply list.NoDup_app. split; [apply list.NoDup_filter, Hu|]. split.
    + intros a Ha Hb. apply list_elem_of_filter in Ha as [Hnot Ha].
      apply elem_of_app in Hb as [Hb|Hb].
      * rewrite elem_of_reverse in Hb. contradiction.
      * exact (Hdisj a Ha Hb).
    + apply list.NoDup_app. split; [rewrite reverse_Permutation; exact Hds|]. split; [|exact Hf].
      intros a Ha Hb. rewrite elem_of_reverse in Ha. exact (Hdisj a (Hsub a Ha) Hb).
  - intros a Ha. rewrite Hlen. apply Hin, Hsame, Ha.
Qed.

Lemma server_flush_chains_ok server server' :
  chains_ok server → server_flush server = Ok server' → chains_ok server'.
Proof.
  intros Hok H. unfold server_flush in H.
  apply bind_Ok in H as (m1 & H1 & H). injection H as <-.
  pose proof Hok as [Hnd _]. apply list.NoDup_app in Hnd as (Hu & _).
  apply flush_chain_spec in H1 as (Hlen & _); [|exact Hu].
  apply chains_ok_same_chains; [exact Hlen|exact Hok].
Qed.

(** ** Well-formed streams in the used chain *)

Lemma served_Forall Q server :
  Forall (λ a, ∃ s, mem server !! a = Some s ∧ Q s) (used_chain server) →
  served Q server.
Proof. intros H a Ha. exact (proj1 (list.Forall_forall _ _) H a Ha). Qed.

Lemma served_evolves server m :
  mem_evolves (mem server) m →
  served (live_ok BUFFER_SIZE MAX_TRANSACTIONS) server →
  served (live_ok BUFFER_SIZE MAX_TRANSACTIONS)
         (mkServer m (used_chain server) (free_chain server)).
Proof.
  intros [_ Hev] Hs a Ha. cbn [used_chain mem] in *.
  destruct (Hs a Ha) as (s & Hsa & Hq). destruct (Hev a s Hsa) as (s' & Hs' & He).
  exists s'. split; [exact Hs'|]. eapply evolves_keeps_live; eassumption.
Qed.

Lemma server_accept_served accepted server :
  0 ≤ MAX_TRANSACTIONS → chains_ok server →
  served (live_ok BUFFER_SIZE MAX_TRANSACTIONS) server →
  served (live_ok BUFFER_SIZE MAX_TRANSACTIONS) (server_accept accepted server).
Proof.
  intros H0 [Hnd Hin] Hs. destruct accepted as [sk|]; cbn [server_accept]; [|exact Hs].
  pose proof (live_ok_init BUFFER_SIZE MAX_TRANSACTIONS BUFFER_SIZE_lo sk H0) as Hnew.
  destruct (free_chain server) as [|st rest] eqn:Ef; intros a Ha;
    cbn [used_chain mem] in *; apply elem_of_cons in Ha as [->|Ha].
  - exists (stream_init BUFFER_SIZE MAX_TRANSACTIONS sk). split; [|exact Hnew].
    apply list_lookup_middle. reflexivity.
  - destruct (Hs a Ha) as (s & Hsa & Hq). exists s. split; [|exact Hq].
    rewrite lookup_app_l by (eapply lookup_lt_Some; exact Hsa). exact Hsa.
  - exists (stream_init BUFFER_SIZE MAX_TRANSACTIONS sk). split; [|exact Hnew].
    apply list_lookup_insert_eq. apply Hin. rewrite elem_of_app. right. left.
  - destruct (Hs a Ha) as (s & Hsa & Hq). exists s. split; [|exact Hq].
    rewrite list_lookup_insert_ne; [exact Hsa|].
    intros ->. apply list.NoDup_app in Hnd as (_ & Hdisj & _).
    apply (Hdisj a Ha). left.
Qed.

Lemma handle_event_served fuel e w server w' server' :
  0 ≤ MAX_TRANSACTIONS → chains_ok server →
  served (live_ok BUFFER_SIZE MAX_TRANSACTIONS) server →
  handle_event fuel e w server = Ok (w', server') →
  served (live_ok BUFFER_SIZE MAX_TRANSACTIONS) server'.
Proof.
  intros H0 Hok Hs H. destruct e as [accepted|st epollerr epollin];
    cbn [handle_event] in H.
  - injection H as <- <-. apply server_accept_served; assumption.
  - destruct epollerr.
    + apply bind_Ok in H as (s & Hsd & H). apply access_Ok in Hsd.
      injection H as <- <-. apply served_evolves; [|exact Hs].
      eapply mem_evolves_step; [exact Hsd|constructor].
    + destruct epollin; [|injection H as <- <-; exact Hs].
      apply bind_Ok in H as ([[b w1] m1] & H1 & H). injection H as <- <-.
      apply served_evolves; [|exact Hs].
      eapply server_stream_handle_evolves; exact H1.
Qed.

Lemma handle_events_served fuel es : ∀ w server w' server',
  0 ≤ MAX_TRANSACTIONS → chains_ok server →
  served (live_ok BUFFER_SIZE MAX_TRANSACTIONS) server →
  handle_events fuel es w server = Ok (w', server') →
  served (live_ok BUFFER_SIZE MAX_TRANSACTIONS) server'.
Proof.
  induction es as [|e es IH]; intros w server w' server' H0 Hok Hs H;
    cbn [handle_events] in H.
  - injection H as <- <-. exact Hs.
  - apply bind_Ok in H as ([w1 server1] & H1 & H).
    eapply IH; [exact H0| | |exact H].
    + eapply handle_event_chains_ok; eauto.
    + eapply handle_event_served; eauto.
Qed.

Lemma server_close_bad_streams_served w server w' server' :
  chains_ok server →
  served (live_ok BUFFER_SIZE MAX_TRANSACTIONS) server →
  server_close_bad_streams w server = Ok (w', server') →
  served (live_ok BUFFER_SIZE MAX_TRANSACTIONS) server'.
Proof.
  intros [Hnd _] Hs H. unfold server_close_bad_streams in H.
  apply bind_Ok in H as ([[[w1 m1] used] free] & H1 & H). injection H as <- <-.
  apply list.NoDup_app in Hnd as (Hu & _).
  apply close_bad_spec in H1
    as (ds & _ & _ & _ & -> & _ & _ & Hrest & _); [|exact Hu].
  intros a Ha. cbn [used_chain mem] in *.
  apply list_elem_of_filter in Ha as [Hnot Ha].
  destruct (Hs a Ha) as (s & Hsa & Hq).
  destruct (Hrest a s Hnot Hsa) as (s' & Hs' & He).
  exists s'. split; [exact Hs'|]. eapply evolves_keeps_live; eassumption.
Qed.

Lemma server_flush_served server server' :
  chains_ok server →
  served (live_ok BUFFER_SIZE MAX_TRANSACTIONS) server →
  server_flush server = Ok server' →
  served (live_ok BUFFER_SIZE MAX_TRANSACTIONS) server' ∧
  ∀ a, a ∈ used_chain server' →
       ∃ s, mem server' !! a = Some s ∧ (ready (output s) = 0 ∨ good s = false).
Proof.
  intros [Hnd _] Hs H. unfold server_flush in H.
  apply bind_Ok in H as (m1 & H1 & H). injection H as <-.
  apply list.NoDup_app in Hnd as (Hu & _).
  apply flush_chain_spec in H1 as (_ & _ & Hin); [|exact Hu].
  cbn [used_chain mem].
  assert (Hall : ∀ a, a ∈ used_chain server →
            ∃ s, m1 !! a = Some s ∧ live_ok BUFFER_SIZE MAX_TRANSACTIONS s ∧
                 (ready (output s) = 0 ∨ good s = false)).
  { intros a Ha. destruct (Hin a Ha) as (s & b & s' & Hsa & Hfl & Hs').
    destruct (Hs a Ha) as (s0 & Hs0 & Hq). rewrite Hsa in Hs0. injection Hs0 as <-.
    exists s'. split; [exact Hs'|].
    split; [eapply live_ok_flush; eauto|].
    destruct Hq as [Ho _].
    assert (Hr : if b then ready (output s') = 0 else good s' = false)
      by (eapply stream_flush_result; eauto).
    destruct b; auto. }
  split; intros a Ha; destruct (Hall a Ha) as (s & Hsa & Hq & Hr); eauto.
Qed.

(** ** The descriptor of a record *)

Lemma step_keeps_fd s s' : step s s' → sock_fd (fd s') = sock_fd (fd s).
Proof.
  intros Hst.
  destruct Hst as [c client s r s' H|s ch isnew s' _ H|s i cl Hi|s|s i Hlen|s sk Hfd _].
  - eapply do_call_fd; exact H.
  - apply stream_get_client_spec in H as (_ & cl & _ & _ & Hs1).
    destruct (stream cl); [destruct Hs1 as [_ ->]|subst s']; reflexivity.
  - reflexivity.
  - reflexivity.
  - reflexivity.
  - exact Hfd.
Qed.

Lemma evolves_keeps_fd s s' : evolves s s' → sock_fd (fd s') = sock_fd (fd s).
Proof.
  induction 1 as [|s1 s2 s3 Hst _ IH]; [reflexivity|].
  rewrite IH. apply step_keeps_fd, Hst.
Qed.

(** ** The turn of the loop *)


(** X11. [server_close_bad_streams] leaves a used chain of good streams
    as it is, and invokes no callback. In general it moves records between
    the two chains and loses none: when it returns, the chains still hold
    distinct allocated records, the memory has as many records as before,
    and a record is in one of the chains exactly if it was before. The
    callbacks it runs may act on the clients of any stream. *)
Theorem reaping_keeps_the_records w server :
  (served (λ s, good s = true) server →
   server_close_bad_streams w server = Ok (w, server)) ∧
  ∀ w' server',
    chains_ok server →
    server_close_bad_streams w server = Ok (w', server') →
    chains_ok server' ∧
    length (mem server') = length (mem server) ∧
    ∀ a, a ∈ used_chain server' ++ free_chain server' ↔
         a ∈ used_chain server ++ free_chain server.
Proof.
  split.
  - intros Hgood. unfold server_close_bad_streams.
    rewrite close_bad_all_good by exact Hgood.
    destruct server. reflexivity.
  - intros w' server' Hok H.
    destruct (server_close_bad_streams_chains_ok _ _ _ _ Hok H) as [Hok' Hsame].
    split; [exact Hok'|]. split; [|exact Hsame].
    destruct Hok as [Hnd _]. apply list.NoDup_app in Hnd as (Hu & _).
    unfold server_close_bad_streams in H.
    apply bind_Ok in H as ([[[w1 m1] used] free] & H1 & H). injection H as <- <-.
    apply close_bad_spec in H1 as (ds & _ & _ & _ & _ & Hlen & _); [|exact Hu].
    exact Hlen.
Qed.

(** X12. Across the turns of [server_loop], every stream of the used chain
    stays well formed (its output is idle or holds one message in
    progress within the capacity, and its channel table has
    MAX_TRANSACTIONS filled-in entries) and the chains keep holding
    distinct allocated records, whatever clients of whatever streams the
    callbacks act on. *)
Theorem served_streams_stay_well_formed fuel turns : ∀ w server w' server',
  0 ≤ MAX_TRANSACTIONS →
  chains_ok server →
  served (live_ok BUFFER_SIZE MAX_TRANSACTIONS) server →
  server_loop fuel turns w server = Ok (w', server') →
  chains_ok server' ∧ served (live_ok BUFFER_SIZE MAX_TRANSACTIONS) server'.
Proof.
  induction turns as [|[es|] turns IH]; intros w server w' server' H0 Hok Hs H;
    cbn [server_loop] in H; try (injection H as <- <-; split; assumption).
  apply bind_Ok in H as ([w3 server3] & Ht & H).
  unfold server_tick in Ht.
  apply bind_Ok in Ht as ([w1 server1] & H1 & Ht).
  apply bind_Ok in Ht as ([w2 server2] & H2 & Ht).
  apply bind_Ok in Ht as (server4 & H3 & Ht). injection Ht as <- <-.
  pose proof (handle_events_chains_ok _ _ _ _ _ _ Hok H1) as Hok1.
  pose proof (handle_events_served _ _ _ _ _ _ H0 Hok Hs H1) as Hs1.
  destruct (server_close_bad_streams_chains_ok _ _ _ _ Hok1 H2) as [Hok2 _].
  pose proof (server_close_bad_streams_served _ _ _ _ Hok1 Hs1 H2) as Hs2.
  pose proof (server_flush_chains_ok _ _ Hok2 H3) as Hok3.
  destruct (server_flush_served _ _ Hok2 Hs2 H3) as [Hs3 _].
  eapply IH; eassumption.
Qed.

(** X13. At the end of a turn of [server_loop] that starts from well-formed
    streams, every stream of the used chain has no committed output left
    or is marked bad. *)
Theorem tick_ends_flushed fuel es w server w' server' :
  0 ≤ MAX_TRANSACTIONS →
  chains_ok server →
  served (live_ok BUFFER_SIZE MAX_TRANSACTIONS) server →
  server_tick fuel es w server = Ok (w', server') →
  ∀ a, a ∈ used_chain server' →
       ∃ s, mem server' !! a = Some s ∧ (ready (output s) = 0 ∨ good s = false).
Proof.
  intros H0 Hok Hs Ht. unfold server_tick in Ht.
  apply bind_Ok in Ht as ([w1 server1] & H1 & Ht).
  apply bind_Ok in Ht as ([w2 server2] & H2 & Ht).
  apply bind_Ok in Ht as (server4 & H3 & Ht). injection Ht as <- <-.
  pose proof (handle_events_chains_ok _ _ _ _ _ _ Hok H1) as Hok1.
  pose proof (handle_events_served _ _ _ _ _ _ H0 Hok Hs H1) as Hs1.
  destruct (server_close_bad_streams_chains_ok _ _ _ _ Hok1 H2) as [Hok2 _].
  pose proof (server_close_bad_streams_served _ _ _ _ Hok1 Hs1 H2) as Hs2.
  destruct (server_flush_served _ _ Hok2 Hs2 H3) as [_ Hfl]. exact Hfl.
Qed.

(** X19. An epoll event for a stream (EPOLLERR or EPOLLIN) moves no
    record: both chains and the number of records are as before. The
    callbacks it runs may change the records of other streams through the
    client interface, but every record keeps its descriptor, no stream
    that is marked bad becomes good again, and a destroyed record stays
    destroyed. *)
Theorem event_moves_no_record fuel st epollerr epollin w server w' server' :
  handle_event fuel (OnStream st epollerr epollin) w server = Ok (w', server') →
  used_chain server' = used_chain server ∧
  free_chain server' = free_chain server ∧
  length (mem server') = length (mem server) ∧
  ∀ a s, mem server !! a = Some s →
         ∃ s', mem server' !! a = Some s' ∧
               sock_fd (fd s') = sock_fd (fd s) ∧
               (good s = false → good s' = false) ∧
               (destroyed s → destroyed s').
Proof.
  intros H.
  assert (Hev : used_chain server' = used_chain server ∧
                free_chain server' = free_chain server ∧
                mem_evolves (mem server) (mem server')).
  { cbn [handle_event] in H. destruct epollerr.
    - apply bind_Ok in H as (s & Hsd & H). apply access_Ok in Hsd.
      injection H as <- <-. cbn [used_chain free_chain mem].
      split; [reflexivity|]. split; [reflexivity|].
      eapply mem_evolves_step; [exact Hsd|constructor].
    - destruct epollin.
      + apply bind_Ok in H as ([[b w1] m1] & H1 & H). injection H as <- <-.
        cbn [used_chain free_chain mem].
        split; [reflexivity|]. split; [reflexivity|].
        eapply server_stream_handle_evolves; exact H1.
      + injection H as <- <-.
        split; [reflexivity|]. split; [reflexivity|]. apply mem_evolves_refl. }
  destruct Hev as (Hu & Hf & Hlen & Hrec).
  split; [exact Hu|]. split; [exact Hf|]. split; [exact Hlen|].
  intros a s Hs. destruct (Hrec a s Hs) as (s' & Hs' & He).
  exists s'. split; [exact Hs'|].
  split; [apply evolves_keeps_fd, He|].
  split; [intros Hb; eapply evolves_keeps_bad; eassumption|].
  intros Hd. eapply evolves_keeps_destroyed; eassumption.
Qed.

End Loop.

Arguments mkWorld {U} upper trace.
Arguments upper {U} w.
Arguments trace {U} w.

End Server.

(** * An upper layer that answers on the connection it is called on *)

(** The first part follows one stream, with callbacks that call the client
    interface on the clients of the stream being served. Such an upper
    layer is one case of the callbacks of [Server]: its programs are run
    at the address of the stream, and the functions of [Server] then do to
    the record at this address what the functions of the first part do to
    the stream, and leave the other records as they are. *)
Section Confined.

Variable BUFFER_SIZE : Z.
Variable MAX_TRANSACTIONS : Z.
Variable MSG_DISCONNECT : Z.

Variable U : Type.
Variable onconnect : U → Z → cb U.
Variable ondisconnect : U → Z → cb U.
Variable onmessage : U → Z → Z → list byte → cb U.

(** A program of calls on the slots of one stream, as a program of calls on
    the clients of the stream at [st]. *)
Fixpoint at_stream (st : Server.stream_t) (p : cb U) : Server.cb U :=
  match p with
  | Return u => Server.Return u
  | Call client c k =>
      Server.Call (Server.mkClientPtr st client) c (λ r, at_stream st (k r))
  end.

Definition onconnect_at (u : U) (client : Server.client_t) : Server.cb U :=
  at_stream (Server.owner client) (onconnect u (Server.slot client)).
Definition ondisconnect_at (u : U) (client : Server.client_t) : Server.cb U :=
  at_stream (Server.owner client) (ondisconnect u (Server.slot client)).
Definition onmessage_at (u : U) (client : Server.client_t) (len : Z)
    (payload : list byte) : Server.cb U :=
  at_stream (Server.owner client) (onmessage u (Server.slot client) len payload).

(** The callbacks of the stream at [st] recorded in [w], behind the
    callbacks [pre] recorded before. *)
Definition at_world (st : Server.stream_t) (pre : list (Server.stream_t * event))
    (w : world U) : Server.world U :=
  Server.mkWorld (upper w) (pre ++ map (pair st) (trace w)).

Ltac res_case r pat :=
  destruct r as pat; cbn [mbind res_mbind res_bind access]; try reflexivity.

Lemma run_cb_at st p : ∀ s m,
  (st < length m)%nat →
  Server.run_cb BUFFER_SIZE U (at_stream st p) (<[st := s]> m) =
  '(u, s') ← run_cb BUFFER_SIZE U p s; Ok (u, <[st := s']> m).
Proof.
  induction p as [u|client c k IH]; intros s m Hlt;
    cbn [at_stream Server.run_cb run_cb]; [reflexivity|].
  cbn [Server.owner Server.slot]. rewrite list_lookup_insert_eq by exact Hlt.
  cbn [mbind res_mbind res_bind access].
  res_case (do_call BUFFER_SIZE c client s) ipattern:([[r s1]| | |]).
  rewrite list_insert_insert_eq. apply IH. exact Hlt.
Qed.

Lemma invoke_at st pre ev p w s m :
  (st < length m)%nat →
  Server.invoke BUFFER_SIZE U (st, ev) (at_stream st p) (at_world st pre w)
    (<[st := s]> m) =
  '(w', s') ← invoke BUFFER_SIZE U ev p w s; Ok (at_world st pre w', <[st := s']> m).
Proof.
  intros Hlt. unfold Server.invoke, invoke. rewrite run_cb_at by exact Hlt.
  res_case (run_cb BUFFER_SIZE U p s) ipattern:([[u s1]| | |]).
  unfold at_world. cbn [upper trace Server.trace].
  rewrite List.map_app, app_assoc. reflexivity.
Qed.

Lemma handle_message_at st pre w s m cursor msg :
  (st < length m)%nat →
  Server.handle_message BUFFER_SIZE MAX_TRANSACTIONS MSG_DISCONNECT U
    onconnect_at ondisconnect_at onmessage_at (at_world st pre w) (<[st := s]> m)
    st cursor msg =
  '(w', s') ← handle_message BUFFER_SIZE MAX_TRANSACTIONS MSG_DISCONNECT U
                onconnect ondisconnect onmessage w s cursor msg;
  Ok (at_world st pre w', <[st := s']> m).
Proof.
  intros Hlt. unfold Server.handle_message, handle_message.
  rewrite list_lookup_insert_eq by exact Hlt.
  cbn [mbind res_mbind res_bind access].
  res_case (stream_get_client MAX_TRANSACTIONS s (msg_chan msg))
    ipattern:([[isnew s1]| | |]).
  rewrite list_insert_insert_eq.
  assert (Htail : ∀ w1 s2,
    (if bool_decide (msg_code msg = MSG_DISCONNECT)
     then s0 ← access (<[st := s2]> m !! st);
          ud ← client_get_userdata s0 (msg_chan msg);
          '(w2, m1) ← Server.invoke BUFFER_SIZE U (st, EvDisconnect (msg_chan msg) ud)
                        (ondisconnect_at (Server.upper (at_world st pre w1))
                           (Server.mkClientPtr st (msg_chan msg)))
                        (at_world st pre w1) (<[st := s2]> m);
          s3 ← access (m1 !! st);
          cl ← access (clients s3 !! Z.to_nat (msg_chan msg));
          Ok (w2, <[st := set_clients
                            (<[Z.to_nat (msg_chan msg) :=
                                 mkClient false (userdata cl) (chan cl)]> (clients s3))
                            s3]> m1)
     else s0 ← access (<[st := s2]> m !! st);
          ud ← client_get_userdata s0 (msg_chan msg);
          Server.invoke BUFFER_SIZE U
            (st, EvMessage (msg_chan msg) ud (msg_size msg) (payload_at s0 cursor msg))
            (onmessage_at (Server.upper (at_world st pre w1))
               (Server.mkClientPtr st (msg_chan msg))
               (msg_size msg) (payload_at s0 cursor msg))
            (at_world st pre w1) (<[st := s2]> m)) =
    '(w', s') ← (if bool_decide (msg_code msg = MSG_DISCONNECT)
                 then ud ← client_get_userdata s2 (msg_chan msg);
                      '(w2, s3) ← invoke BUFFER_SIZE U (EvDisconnect (msg_chan msg) ud)
                                    (ondisconnect (upper w1) (msg_chan msg)) w1 s2;
                      cl ← access (clients s3 !! Z.to_nat (msg_chan msg));
                      Ok (w2, set_clients
                                (<[Z.to_nat (msg_chan msg) :=
                                     mkClient false (userdata cl) (chan cl)]> (clients s3))
                                s3)
                 else ud ← client_get_userdata s2 (msg_chan msg);
                      invoke BUFFER_SIZE U
                        (EvMessage (msg_chan msg) ud (msg_size msg)
                           (payload_at s2 cursor msg))
                        (onmessage (upper w1) (msg_chan msg) (msg_size msg)
                           (payload_at s2 cursor msg)) w1 s2);
    Ok (at_world st pre w', <[st := s']> m)).
  { intros w1 s2. rewrite list_lookup_insert_eq by exact Hlt.
    cbn [mbind res_mbind res_bind access].
    change (Server.upper (at_world st pre w1)) with (upper w1).
    unfold ondisconnect_at, onmessage_at. cbn [Server.owner Server.slot].
    destruct (bool_decide (msg_code msg = MSG_DISCONNECT)).
    - res_case (client_get_userdata s2 (msg_chan msg)) ipattern:([ud| | |]).
      rewrite (invoke_at st pre _ _ w1 s2 m Hlt).
      res_case (invoke BUFFER_SIZE U (EvDisconnect (msg_chan msg) ud)
                  (ondisconnect (upper w1) (msg_chan msg)) w1 s2)
        ipattern:([[w2 s3]| | |]).
      rewrite list_lookup_insert_eq by exact Hlt.
      cbn [mbind res_mbind res_bind access].
      res_case (clients s3 !! Z.to_nat (msg_chan msg)) ipattern:([cl|]).
      rewrite list_insert_insert_eq. reflexivity.
    - res_case (client_get_userdata s2 (msg_chan msg)) ipattern:([ud| | |]).
      apply (invoke_at st pre _ _ w1 s2 m Hlt). }
  change (Server.upper (at_world st pre w)) with (upper w).
  unfold onconnect_at at 1. cbn [Server.owner Server.slot].
  destruct isnew; cbn [mbind res_mbind res_bind].
  - res_case (client_get_userdata s1 (msg_chan msg)) ipattern:([ud| | |]).
    rewrite (invoke_at st pre _ _ w s1 m Hlt).
    res_case (invoke BUFFER_SIZE U (EvConnect (msg_chan msg) ud)
                (onconnect (upper w) (msg_chan msg)) w s1)
      ipattern:([[w1 s2]| | |]).
    apply Htail.
  - apply Htail.
Qed.

Lemma handle_loop_at st pre fuel : ∀ w s m cursor toprocess,
  (st < length m)%nat →
  Server.handle_loop BUFFER_SIZE MAX_TRANSACTIONS MSG_DISCONNECT U
    onconnect_at ondisconnect_at onmessage_at fuel (at_world st pre w)
    (<[st := s]> m) st cursor toprocess =
  '(w', s', exit) ← handle_loop BUFFER_SIZE MAX_TRANSACTIONS MSG_DISCONNECT U
                      onconnect ondisconnect onmessage fuel w s cursor toprocess;
  Ok (at_world st pre w', <[st := s']> m, exit).
Proof.
  induction fuel as [|fuel IH]; intros w s m cursor toprocess Hlt;
    cbn [Server.handle_loop handle_loop];
    destruct (bool_decide (to_size_t toprocess >= HDR)); try reflexivity.
  rewrite list_lookup_insert_eq by exact Hlt.
  cbn [mbind res_mbind res_bind access].
  res_case (read_hdr (data (input s)) cursor) ipattern:([msg| | |]).
  destruct (bool_decide (to_int (HDR + msg_size msg) ≤ toprocess)).
  - rewrite handle_message_at by exact Hlt.
    res_case (handle_message BUFFER_SIZE MAX_TRANSACTIONS MSG_DISCONNECT U
                onconnect ondisconnect onmessage w s cursor msg)
      ipattern:([[w1 s1]| | |]).
    apply IH. exact Hlt.
  - destruct (bool_decide (to_int (HDR + msg_size msg) > BUFFER_SIZE));
      cbn [mbind res_mbind res_bind]; [|reflexivity].
    rewrite list_insert_insert_eq. reflexivity.
Qed.

Lemma process_input_at st pre fuel w s m :
  (st < length m)%nat →
  Server.process_input BUFFER_SIZE MAX_TRANSACTIONS MSG_DISCONNECT U
    onconnect_at ondisconnect_at onmessage_at fuel (at_world st pre w)
    (<[st := s]> m) st =
  '(b, w', s') ← process_input BUFFER_SIZE MAX_TRANSACTIONS MSG_DISCONNECT U
                   onconnect ondisconnect onmessage fuel w s;
  Ok (b, at_world st pre w', <[st := s']> m).
Proof.
  intros Hlt. unfold Server.process_input, process_input.
  rewrite list_lookup_insert_eq by exact Hlt.
  cbn [mbind res_mbind res_bind access].
  rewrite handle_loop_at by exact Hlt.
  res_case (handle_loop BUFFER_SIZE MAX_TRANSACTIONS MSG_DISCONNECT U
              onconnect ondisconnect onmessage fuel w s 0 (ready (input s)))
    ipattern:([[[w1 s1] [[cursor toprocess]|]]| | |]).
  res_case (assert (bool_decide (toprocess >= 0))) ipattern:([[]| | |]).
  rewrite list_lookup_insert_eq by exact Hlt.
  cbn [mbind res_mbind res_bind access].
  res_case (if bool_decide (toprocess > 0)
            then bs ← access (load (data (input s1)) cursor toprocess);
                 access (store (data (input s1)) 0 bs)
            else Ok (data (input s1))) ipattern:([d| | |]).
  rewrite list_insert_insert_eq. reflexivity.
Qed.

Lemma disconnect_all_at st pre n : ∀ c w s m,
  (st < length m)%nat →
  Server.disconnect_all BUFFER_SIZE U ondisconnect_at n c (at_world st pre w)
    (<[st := s]> m) st =
  '(w', s') ← disconnect_all BUFFER_SIZE U ondisconnect n c w s;
  Ok (at_world st pre w', <[st := s']> m).
Proof.
  induction n as [|n IH]; intros c w s m Hlt;
    cbn [Server.disconnect_all disconnect_all]; [reflexivity|].
  rewrite list_lookup_insert_eq by exact Hlt.
  cbn [mbind res_mbind res_bind access].
  res_case (clients s !! Z.to_nat c) ipattern:([client|]).
  destruct (stream client); cbn [mbind res_mbind res_bind].
  - unfold ondisconnect_at. cbn [Server.owner Server.slot Server.upper at_world].
    rewrite (invoke_at st pre _ _ w s m Hlt).
    res_case (invoke BUFFER_SIZE U (EvDisconnect c (userdata client))
                (ondisconnect (upper w) c) w s) ipattern:([[w1 s1]| | |]).
    apply IH. exact Hlt.
  - apply IH. exact Hlt.
Qed.

(** X15. For an upper layer whose callbacks call the client interface on
    the clients of the stream they are called for, [server_stream_handle]
    and [server_stream_destroy] on the records in memory do to the record
    of the stream what the functions of one stream do to it, with the same
    result and the same callbacks in the same order, and leave every other
    record as it is. *)
Theorem confined_callbacks_touch_one_record st pre fuel w s m :
  m !! st = Some s →
  Server.server_stream_handle BUFFER_SIZE MAX_TRANSACTIONS MSG_DISCONNECT U
    onconnect_at ondisconnect_at onmessage_at fuel (at_world st pre w) m st =
    ('(b, w', s') ← server_stream_handle BUFFER_SIZE MAX_TRANSACTIONS MSG_DISCONNECT U
                      onconnect ondisconnect onmessage fuel w s;
     Ok (b, at_world st pre w', <[st := s']> m)) ∧
  Server.server_stream_destroy BUFFER_SIZE MAX_TRANSACTIONS U ondisconnect_at
    (at_world st pre w) m st =
    ('(w', s') ← server_stream_destroy BUFFER_SIZE MAX_TRANSACTIONS U ondisconnect w s;
     Ok (at_world st pre w', <[st := s']> m)).
Proof.
  intros Hs. assert (Hlt : (st < length m)%nat) by (eapply lookup_lt_Some; exact Hs).
  assert (Hm : m = <[st := s]> m) by (symmetry; apply list_insert_id; exact Hs).
  split.
  - unfold Server.server_stream_handle, server_stream_handle. rewrite Hs.
    cbn [mbind res_mbind res_bind access].
    res_case (assert (bool_decide (to_int (BUFFER_SIZE - ready (input s)) > 0)))
      ipattern:([[]| | |]).
    destruct (recv (fd s) (to_int (BUFFER_SIZE - ready (input s)))) as [r sk].
    destruct r as [| |bs]; try reflexivity.
    res_case (store (data (input (set_fd sk s))) (ready (input (set_fd sk s))) bs)
      ipattern:([d|]).
    apply process_input_at. exact Hlt.
  - unfold Server.server_stream_destroy, server_stream_destroy.
    rewrite Hm at 1. rewrite disconnect_all_at by exact Hlt.
    res_case (disconnect_all BUFFER_SIZE U ondisconnect (Z.to_nat MAX_TRANSACTIONS) 0 w s)
      ipattern:([[w1 s1]| | |]).
    rewrite list_lookup_insert_eq by exact Hlt.
    cbn [mbind res_mbind res_bind access].
    rewrite list_insert_insert_eq. reflexivity.
Qed.

End Confined.

(** * Concrete instances *)

Module Demo.

Definition BUF : Z := 32.
Definition CHANS : Z := 4.

(** A socket whose kernel takes whatever it is offered, four times. *)
Definition sock : socket_t := mkSocket 3 [] [100; 100; 100; 100] [] false.

Definition fresh : stream_data_t := stream_init BUF CHANS sock.

(** [fresh] after [stream_message_start] on channel 7. *)
Definition started : stream_data_t :=
  match stream_message_start BUF fresh 7 with
  | Ok (_, s) => s
  | _ => fresh
  end.

(** A reply of 22 payload bytes that fills the buffer but for one byte, with
    a flush in its middle, then a reply without payload. *)
Definition two_replies : list out_op :=
  [OpStart 1; OpAppend 2 [x01; x02]; OpFlush; OpAppend 20 (replicate 20 x07);
   OpFinish; OpStart 2; OpFlush; OpFinish].

Lemma BUF_lo : HDR ≤ BUF.
Proof. vm_compute. discriminate. Defined.

Lemma BUF_hi : BUF ≤ INT_MAX.
Proof. vm_compute. discriminate. Defined.

Lemma fresh_idle : idle BUF fresh.
Proof. apply stream_init_idle. exact BUF_lo. Defined.

Lemma fresh_started : stream_message_start BUF fresh 7 = Ok (true, started).
Proof. vm_compute. reflexivity. Defined.

End Demo.

Lemma misuse_rejected_witness :
  (∃ s', stream_message_start Demo.BUF Demo.started 7 = Ok (false, s') ∧
         good s' = false ∧ output s' = output Demo.started ∧
         ready (output s') = ready (output Demo.started)) ∧
  (∃ s', stream_message_finish Demo.BUF Demo.fresh = Ok (false, s') ∧
         good s' = false ∧ output s' = output Demo.fresh ∧
         ready (output s') = ready (output Demo.fresh)).
Proof.
  split.
  - apply (misuse_rejected Demo.BUF Demo.started 7 0 []). exists 0. vm_compute. reflexivity.
  - apply (misuse_rejected Demo.BUF Demo.fresh 7 0 []). reflexivity.
Defined.

Lemma reply_committed_at_finish_witness :
  ∃ s2 s3,
    run_ops Demo.BUF [OpAppend 2 [x01; x02]; OpFlush; OpAppend 1 [x03]] Demo.started
      = Some s2 ∧
    stream_message_finish Demo.BUF s2 = Ok (true, s3) ∧
    wire (fd s2) ++ committed s2 = wire (fd Demo.fresh) ++ committed Demo.fresh ∧
    committed s3 =
      committed s2 ++ encode_hdr (mkHdr 3 CODE_R 7) ++ [x01; x02; x03].
Proof.
  assert (Hrun : ∃ s2, run_ops Demo.BUF
            [OpAppend 2 [x01; x02]; OpFlush; OpAppend 1 [x03]] Demo.started = Some s2)
    by (vm_compute; eexists; reflexivity).
  destruct Hrun as [s2 Hrun]. exists s2.
  destruct (reply_committed_at_finish Demo.BUF Demo.BUF_lo Demo.BUF_hi Demo.fresh 7
              [OpAppend 2 [x01; x02]; OpFlush; OpAppend 1 [x03]]
              Demo.started s2 Demo.fresh_idle Demo.fresh_started
              ltac:(repeat constructor) Hrun)
    as (_ & Hw & _ & s3 & Hfin & _ & _ & _ & Hc).
  exists s3. split; [exact Hrun|]. split; [exact Hfin|]. split; [exact Hw|exact Hc].
Defined.

Lemma reply_frame_code_witness :
  ∃ s3 frame,
    stream_message_finish Demo.BUF Demo.started = Ok (true, s3) ∧
    committed s3 = committed Demo.started ++ frame ∧
    msg_code (decode_hdr frame) = CODE_R.
Proof.
  assert (Hfin : ∃ s3, stream_message_finish Demo.BUF Demo.started = Ok (true, s3))
    by (vm_compute; eexists; reflexivity).
  destruct Hfin as [s3 Hfin]. exists s3.
  destruct (reply_frame_code Demo.BUF Demo.BUF_lo Demo.BUF_hi Demo.fresh 7 []
              Demo.started Demo.started s3
              Demo.fresh_idle Demo.fresh_started ltac:(constructor) eq_refl Hfin)
    as (frame & Hc & Hcode & _).
  exists frame. split; [exact Hfin|]. split; [exact Hc|exact Hcode].
Defined.

(** C8, as stated, fails: the error reply built through the client
    interface for error kind 1 on channel 7 carries the code byte 0x72,
    not 0xFF. *)
Lemma error_reply_code_not_ff :
  ∃ s', run_ops Demo.BUF [OpStart 7; OpAppend 1 [x01]; OpFinish] Demo.fresh = Some s' ∧
        committed s' = [x01; x00; x00; x00; x72; x07; x00; x00; x00; x01] ∧
        msg_code (decode_hdr (committed s')) = 114 ∧
        msg_code (decode_hdr (committed s')) ≠ 255.
Proof.
  eexists. split; [vm_compute; reflexivity|]. cbn [committed].
  split; [vm_compute; reflexivity|]. split; [vm_compute; reflexivity|].
  vm_compute. discriminate.
Qed.

(** C2 at the failing input: on a message just started, an append of
    2^32 bytes passes the size check, for [newsize] is computed as 9, and
    runs into the copy instead of returning false. *)
Lemma append_length_truncated (src : list byte) :
  append_newsize 0 4294967296 = 9 ∧
  stream_message_append Demo.BUF Demo.started 4294967296 src = Undefined.
Proof.
  split; [reflexivity|].
  destruct (stream_message_start_spec Demo.BUF Demo.BUF_lo Demo.BUF_hi _ _ _ _
              Demo.fresh_idle Demo.fresh_started) as (_ & Hb & _).
  eapply (stream_message_append_unchecked Demo.BUF);
    first [exact Demo.BUF_lo | exact Demo.BUF_hi | exact Hb | vm_compute; congruence].
Qed.

(** C10 at the failing input: on a reply just started, an append of
    2^31 - 9 bytes passes the size check, for [newsize] is computed as
    -2^31, and asks for no flush; the copy of the payload then runs past
    the 32 bytes of the buffer, and the size the message is given, header
    included, is 2^31. This is the narrowing to [int] of C2. *)
Lemma append_overruns_capacity (src : list byte) :
  append_newsize 0 2147483639 = -2147483648 ∧
  to_int (ready (output Demo.started) + append_newsize 0 2147483639) ≤ Demo.BUF ∧
  stream_message_append Demo.BUF Demo.started 2147483639 src = Undefined ∧
  Demo.BUF < ready (output Demo.started) + (HDR + to_uint (0 + 2147483639)).
Proof.
  split; [reflexivity|]. split; [vm_compute; discriminate|].
  split; [|vm_compute; reflexivity].
  destruct (stream_message_start_spec Demo.BUF Demo.BUF_lo Demo.BUF_hi _ _ _ _
              Demo.fresh_idle Demo.fresh_started) as (_ & Hb & _).
  eapply (stream_message_append_unchecked Demo.BUF);
    first [exact Demo.BUF_lo | exact Demo.BUF_hi | exact Hb | vm_compute; congruence].
Qed.

(** * Concrete instances on the read path *)

Module DemoIn.

Definition DISC : Z := 0.

(** An upper layer that counts the messages: it tags a channel on
    connection, clears the tag on disconnection and answers every message
    with the shortcut reply. *)
Definition on_connect (u : Z) (c : Z) : cb Z :=
  Call c (CallSetUserdata 5) (λ _, Return u).
Definition on_disconnect (u : Z) (c : Z) : cb Z :=
  Call c (CallSetUserdata 0) (λ _, Return u).
Definition on_message (u : Z) (c : Z) (len : Z) (payload : list byte) : cb Z :=
  Call c (CallMessageShortcut 42) (λ _, Return (u + 1)).

Definition w0 : world Z := mkWorld 0 [].

Definition frame (c code : Z) (payload : list byte) : list byte :=
  encode_hdr (mkHdr (Z.of_nat (length payload)) code c) ++ payload.

(** A fresh stream whose input buffer holds the bytes [bs]. *)
Definition holding (bs : list byte) : stream_data_t :=
  set_input
    (mkBuffer (Z.of_nat (length bs)) None
       (bs ++ replicate (Z.to_nat Demo.BUF - length bs) x00))
    Demo.fresh.

Abbreviation handle_message' :=
  (handle_message Demo.BUF Demo.CHANS DISC Z on_connect on_disconnect on_message).
Abbreviation process_input' :=
  (process_input Demo.BUF Demo.CHANS DISC Z on_connect on_disconnect on_message).
Abbreviation server_stream_destroy' :=
  (server_stream_destroy Demo.BUF Demo.CHANS Z on_disconnect).

(** A message on channel 1, a disconnect on channel 1, three stray bytes. *)
Definition two_frames : list byte :=
  frame 1 1 [x0a] ++ frame 1 DISC [] ++ [x05; x00; x00].

(** The state after the first frame of [two_frames] is handled. *)
Definition after_first : world Z * stream_data_t :=
  match handle_message' w0 (holding two_frames) 0 (mkHdr 1 1 1) with
  | Ok p => p
  | _ => (w0, Demo.fresh)
  end.

(** A message on channel 0, then the header of a frame of 100 bytes. *)
Definition fatal : list byte :=
  frame 0 1 [] ++ encode_hdr (mkHdr 100 1 0).


End DemoIn.

Lemma deframing_on_return_witness :
  terminates (DemoIn.process_input' 23 DemoIn.w0 (DemoIn.holding DemoIn.two_frames)) ∧
  ∃ w' s',
    DemoIn.process_input' 23 DemoIn.w0 (DemoIn.holding DemoIn.two_frames)
      = Ok (true, w', s') ∧
    dispatched (trace w') = [Message 1 1 [x0a]; Disconnect 1] ∧
    ready (input s') = 3 ∧
    take 3 (data (input s')) = [x05; x00; x00].
Proof.
  destruct (deframing_on_return Demo.BUF Demo.CHANS DemoIn.DISC Z
              DemoIn.on_connect DemoIn.on_disconnect DemoIn.on_message
              Demo.BUF_hi 23 DemoIn.w0 (DemoIn.holding DemoIn.two_frames))
    as [Hterm Hret].
  - reflexivity.
  - vm_compute. split; discriminate.
  - intros Hlen. vm_compute in Hlen. exfalso. apply Hlen. reflexivity.
  - vm_compute. lia.
  - split; [exact Hterm|].
    assert (Hrun : ∃ w' s',
              DemoIn.process_input' 23 DemoIn.w0 (DemoIn.holding DemoIn.two_frames)
                = Ok (true, w', s'))
      by (vm_compute; do 2 eexists; reflexivity).
    destruct Hrun as (w' & s' & Hrun). exists w', s'. split; [exact Hrun|].
    destruct (Hret _ _ _ Hrun) as (Htr & _ & Hr & Htl & _).
    split; [exact Htr|]. split; [exact Hr|exact Htl].
Defined.

(** C1, as stated, fails: after a first frame is handed over, the header of
    a frame too long for the buffer makes the handler return false; nine
    bytes are left over, yet eighteen are still counted ready and the tail
    has not been moved to the start of the buffer. *)
Lemma fatal_frame_keeps_buffer :
  ∃ w' s',
    DemoIn.process_input' 19 DemoIn.w0 (DemoIn.holding DemoIn.fatal)
      = Ok (false, w', s') ∧
    dispatched (trace w') = [Message 0 0 []] ∧
    length (leftover (take 18 (data (input (DemoIn.holding DemoIn.fatal))))) = 9%nat ∧
    ready (input s') = 18 ∧
    take 9 (data (input s')) ≠
      leftover (take 18 (data (input (DemoIn.holding DemoIn.fatal)))).
Proof.
  do 2 eexists. split; [vm_compute; reflexivity|].
  split; [vm_compute; reflexivity|]. split; [vm_compute; reflexivity|].
  split; [vm_compute; reflexivity|]. vm_compute. discriminate.
Qed.

Lemma onconnect_on_first_sight_witness :
  ∃ w2 s2,
    (* the first frame on channel 1 *)
    DemoIn.handle_message' DemoIn.w0 (DemoIn.holding DemoIn.two_frames) 0
      (mkHdr 1 1 1) = Ok DemoIn.after_first ∧
    trace (DemoIn.after_first).1 = [EvConnect 1 0; EvMessage 1 5 1 [x0a]] ∧
    (* a second frame on channel 1 *)
    DemoIn.handle_message' (DemoIn.after_first).1 (DemoIn.after_first).2 0
      (mkHdr 1 1 1) = Ok (w2, s2) ∧
    trace w2 = trace (DemoIn.after_first).1 ++ [EvMessage 1 5 1 [x0a]].
Proof.
  assert (H1 : DemoIn.handle_message' DemoIn.w0 (DemoIn.holding DemoIn.two_frames) 0
                 (mkHdr 1 1 1) = Ok ((DemoIn.after_first).1, (DemoIn.after_first).2))
    by (vm_compute; reflexivity).
  destruct (onconnect_on_first_sight _ _ _ _ _ _ _ _ _ _ _ _ _ H1)
    as (cl & ud & Hcl & Hfree & _ & _).
  assert (Hcl0 : cl = mkClient false 0 0).
  { vm_compute in Hcl. injection Hcl as <-. reflexivity. }
  subst cl. specialize (Hfree eq_refl).
  assert (H2 : ∃ w2 s2,
            DemoIn.handle_message' (DemoIn.after_first).1 (DemoIn.after_first).2 0
              (mkHdr 1 1 1) = Ok (w2, s2))
    by (vm_compute; do 2 eexists; reflexivity).
  destruct H2 as (w2 & s2 & H2). exists w2, s2.
  destruct (onconnect_on_first_sight _ _ _ _ _ _ _ _ _ _ _ _ _ H2)
    as (cl' & ud' & Hcl' & _ & Hbusy & _).
  assert (Hcl1 : cl' = mkClient true 5 1).
  { vm_compute in Hcl'. injection Hcl' as <-. reflexivity. }
  subst cl'. specialize (Hbusy eq_refl).
  split; [vm_compute; reflexivity|]. split; [vm_compute; reflexivity|].
  split; [exact H2|]. rewrite Hbusy. vm_compute. reflexivity.
Defined.

Lemma ondisconnect_then_cleared_witness :
  (∃ w2 s2 cl',
     DemoIn.handle_message' (DemoIn.after_first).1 (DemoIn.after_first).2 10
       (mkHdr 0 DemoIn.DISC 1) = Ok (w2, s2) ∧
     trace w2 = trace (DemoIn.after_first).1 ++ [EvDisconnect 1 5] ∧
     clients s2 !! 1%nat = Some cl' ∧ stream cl' = false) ∧
  (∃ w2 s2,
     DemoIn.server_stream_destroy' (DemoIn.after_first).1 (DemoIn.after_first).2
       = Ok (w2, s2) ∧
     occupied (DemoIn.after_first).2 = [1] ∧
     (∃ uds, length uds = 1%nat ∧
             trace w2 = trace (DemoIn.after_first).1 ++ zip_with EvDisconnect [1] uds) ∧
     occupied s2 = [] ∧ closed (fd s2) = true).
Proof.
  destruct (ondisconnect_then_cleared Demo.BUF Demo.CHANS DemoIn.DISC Z
              DemoIn.on_connect DemoIn.on_disconnect DemoIn.on_message)
    as [Hdisc Hdie].
  split.
  - assert (H2 : ∃ w2 s2,
              DemoIn.handle_message' (DemoIn.after_first).1 (DemoIn.after_first).2 10
                (mkHdr 0 DemoIn.DISC 1) = Ok (w2, s2))
      by (vm_compute; do 2 eexists; reflexivity).
    destruct H2 as (w2 & s2 & H2).
    destruct (Hdisc _ _ _ (mkHdr 0 DemoIn.DISC 1) _ _ eq_refl H2)
      as (cl & ud & cl' & Hcl & Hud & Htr & Hcl' & Hst).
    assert (Hcl1 : cl = mkClient true 5 1).
    { vm_compute in Hcl. injection Hcl as <-. reflexivity. }
    subst cl. specialize (Hud eq_refl). subst ud.
    exists w2, s2, cl'. auto.
  - assert (H2 : ∃ w2 s2,
              DemoIn.server_stream_destroy' (DemoIn.after_first).1
                (DemoIn.after_first).2 = Ok (w2, s2))
      by (vm_compute; do 2 eexists; reflexivity).
    destruct H2 as (w2 & s2 & H2).
    destruct (Hdie (DemoIn.after_first).1 (DemoIn.after_first).2 w2 s2
                ltac:(vm_compute; reflexivity) H2)
      as (Hev & Hocc2 & _ & Hclosed).
    assert (Hocc1 : occupied (DemoIn.after_first).2 = [1]) by (vm_compute; reflexivity).
    rewrite Hocc1 in Hev.
    exists w2, s2. auto.
Defined.

(** The read path at a length beyond the range of [int]: a header that
    announces 2^32 - 1 payload bytes is taken for a complete frame of eight
    bytes and handed to [onmessage]; the stream is not marked bad. *)
Lemma inbound_length_truncated :
  ∃ w' s',
    DemoIn.process_input' 19 DemoIn.w0
      (DemoIn.holding (encode_hdr (mkHdr 4294967295 1 0) ++ replicate 9 x00))
      = Ok (true, w', s') ∧
    head (dispatched (trace w')) = Some (Message 0 4294967295 (replicate 23 x00)) ∧
    good s' = true.
Proof.
  do 2 eexists. split; [lazy; reflexivity|].
  split; lazy; reflexivity.
Qed.

(** C6 at the failing input: a complete frame on channel 4 reaches
    [stream_get_client] on a table of four entries. The stream is not
    marked bad: the assertion fails and the daemon is aborted. The entry
    the resolution goes on to address where the assertion is compiled
    out, [clients + 4], lies outside the table. *)
Lemma channel_out_of_range_not_marked_bad :
  DemoIn.process_input' 10 DemoIn.w0 (DemoIn.holding (DemoIn.frame 4 1 []))
    = AssertFail ∧
  (∀ b w' s',
     DemoIn.process_input' 10 DemoIn.w0 (DemoIn.holding (DemoIn.frame 4 1 []))
       ≠ Ok (b, w', s')) ∧
  length (clients (DemoIn.holding (DemoIn.frame 4 1 []))) = 4%nat ∧
  clients (DemoIn.holding (DemoIn.frame 4 1 [])) !! Z.to_nat 4 = None.
Proof.
  assert (H : DemoIn.process_input' 10 DemoIn.w0 (DemoIn.holding (DemoIn.frame 4 1 []))
              = AssertFail) by (vm_compute; reflexivity).
  split; [exact H|]. split; [intros b w' s'; rewrite H; discriminate|].
  split; vm_compute; reflexivity.
Qed.

(** * Concrete instances of the further properties *)

Module DemoMore.

(** A fresh stream after one reply of one byte on channel 7. *)
Definition replied : stream_data_t :=
  match run_ops Demo.BUF [OpStart 7; OpAppend 1 [x01]; OpFinish] Demo.fresh with
  | Some s => s
  | None => Demo.fresh
  end.

(** A stream that holds the first five bytes of a frame of ten, on a socket
    about to deliver the other five. *)
Definition half : stream_data_t :=
  set_fd (mkSocket 5 [RecvData (drop 5 (DemoIn.frame 1 1 [x0a]))] [100; 100] [] false)
         (DemoIn.holding (take 5 (DemoIn.frame 1 1 [x0a]))).

(** The state after the disconnect of channel 1 is handled in
    [DemoIn.after_first]. *)
Definition after_disconnect : world Z * stream_data_t :=
  match DemoIn.handle_message' (DemoIn.after_first).1 (DemoIn.after_first).2 10
          (mkHdr 0 DemoIn.DISC 1) with
  | Ok p => p
  | _ => DemoIn.after_first
  end.

Abbreviation server_stream_handle' :=
  (server_stream_handle Demo.BUF Demo.CHANS DemoIn.DISC Z
     DemoIn.on_connect DemoIn.on_disconnect DemoIn.on_message).

Lemma BUF_half : 2 * Demo.BUF ≤ INT_MAX.
Proof. vm_compute. discriminate. Defined.

Lemma CHANS_pos : 0 ≤ Demo.CHANS.
Proof. vm_compute. discriminate. Defined.

Lemma replied_idle : idle Demo.BUF replied.
Proof. vm_compute. repeat split; first [reflexivity | discriminate]. Defined.

Lemma after_first_idle : idle Demo.BUF (DemoIn.after_first).2.
Proof. vm_compute. repeat split; first [reflexivity | discriminate]. Defined.

End DemoMore.

Lemma flush_sends_committed_witness :
  ∃ s', stream_flush DemoMore.replied = Ok (true, s') ∧
        wire (fd s') = wire (fd DemoMore.replied) ++ committed DemoMore.replied ∧
        ready (output s') = 0.
Proof.
  destruct (flush_sends_committed Demo.BUF Demo.BUF_hi DemoMore.replied
              (or_introl DemoMore.replied_idle)) as [_ Hret].
  assert (Hrun : ∃ s', stream_flush DemoMore.replied = Ok (true, s'))
    by (vm_compute; eexists; reflexivity).
  destruct Hrun as [s' Hrun]. exists s'. split; [exact Hrun|].
  destruct (Hret true s' Hrun) as (_ & _ & Hw & Hz & _). split; [exact Hw|exact Hz].
Defined.

Lemma reply_builder_returns_witness :
  (∃ r, stream_message_start Demo.BUF Demo.started 7 = Ok r) ∧
  (∃ r, stream_message_append Demo.BUF Demo.started 2 [x01; x02] = Ok r) ∧
  (∃ r, stream_message_finish Demo.BUF Demo.started = Ok r).
Proof.
  destruct (stream_message_start_spec Demo.BUF Demo.BUF_lo Demo.BUF_hi _ _ _ _
              Demo.fresh_idle Demo.fresh_started) as (_ & Hb & _).
  destruct (reply_builder_returns Demo.BUF Demo.BUF_lo Demo.BUF_hi Demo.started 7 2
              [x01; x02] DemoMore.BUF_half
              (or_intror (ex_intro _ _ (ex_intro _ _ Hb))))
    as (H1 & H2 & H3).
  split; [exact H1|]. split; [|exact H3].
  apply H2; [cbn; lia|vm_compute; discriminate].
Defined.

Lemma replies_leave_in_order_witness :
  ∃ s', run_ops Demo.BUF Demo.two_replies Demo.fresh = Some s' ∧
        wire (fd s') ++ committed s' =
          encode_hdr (mkHdr 22 CODE_R 1) ++ [x01; x02] ++ replicate 20 x07 ++
          encode_hdr (mkHdr 0 CODE_R 2) ∧
        idle Demo.BUF s'.
Proof.
  assert (Hrun : ∃ s', run_ops Demo.BUF Demo.two_replies Demo.fresh = Some s')
    by (vm_compute; eexists; reflexivity).
  destruct Hrun as [s' Hrun]. exists s'. split; [exact Hrun|].
  destruct (replies_leave_in_order Demo.BUF Demo.BUF_lo Demo.BUF_hi Demo.fresh
              Demo.two_replies s' Demo.fresh_idle Hrun) as (Hw & _ & Ht).
  split; [rewrite Hw; vm_compute; reflexivity|exact Ht].
Defined.

Lemma shortcut_commits_one_frame_witness :
  ∃ s', client_message_shortcut Demo.BUF (DemoIn.after_first).2 1 42 = Ok (true, s') ∧
        idle Demo.BUF s' ∧
        wire (fd s') ++ committed s' =
          wire (fd (DemoIn.after_first).2) ++ committed (DemoIn.after_first).2 ++
          encode_hdr (mkHdr 8 CODE_R 1) ++ le64 42.
Proof.
  destruct (shortcut_commits_one_frame Demo.BUF Demo.BUF_lo Demo.BUF_hi
              (DemoIn.after_first).2 1 42 (mkClient true 5 1)
              DemoMore.BUF_half DemoMore.after_first_idle
              ltac:(vm_compute; reflexivity) eq_refl) as [_ Hret].
  assert (Hrun : ∃ s', client_message_shortcut Demo.BUF (DemoIn.after_first).2 1 42
                       = Ok (true, s'))
    by (vm_compute; eexists; reflexivity).
  destruct Hrun as [s' Hrun]. exists s'. split; [exact Hrun|].
  destruct (Hret true s' Hrun) as (_ & _ & Hi & _ & Hw). split; [exact Hi|exact Hw].
Defined.

Lemma userdata_set_then_get_witness :
  ∃ s', client_set_userdata Demo.fresh 2 9 = Ok s' ∧
        client_get_userdata s' 2 = Ok 9 ∧
        client_get_userdata s' 1 = client_get_userdata Demo.fresh 1.
Proof.
  assert (Hrun : ∃ s', client_set_userdata Demo.fresh 2 9 = Ok s')
    by (vm_compute; eexists; reflexivity).
  destruct Hrun as [s' Hrun]. exists s'. split; [exact Hrun|].
  destruct (userdata_set_then_get Demo.fresh 2 9 s' Hrun) as (Hget & Hoth & _).
  split; [exact Hget|]. apply Hoth. vm_compute. discriminate.
Defined.

Lemma bad_stream_stays_bad_witness :
  ∃ s', stream_message_finish Demo.BUF Demo.fresh = Ok (false, s') ∧ good s' = false.
Proof.
  destruct (bad_stream_stays_bad Demo.BUF Demo.CHANS DemoIn.DISC Z DemoIn.on_connect
              DemoIn.on_disconnect DemoIn.on_message Demo.fresh) as (Hop & _ & _).
  assert (Hrun : ∃ s', run_op Demo.BUF OpFinish Demo.fresh = Ok (false, s'))
    by (vm_compute; eexists; reflexivity).
  destruct Hrun as [s' Hrun]. exists s'. split; [exact Hrun|].
  destruct (Hop OpFinish false s' Hrun) as [Hfail _]. apply Hfail. reflexivity.
Defined.

Lemma receive_then_deframe_witness :
  terminates (DemoMore.server_stream_handle' 11 DemoIn.w0 DemoMore.half) ∧
  ∃ w' s',
    DemoMore.server_stream_handle' 11 DemoIn.w0 DemoMore.half = Ok (true, w', s') ∧
    dispatched (trace w') = [Message 1 1 [x0a]] ∧
    buffered s' = [].
Proof.
  destruct (receive_then_deframe Demo.BUF Demo.CHANS DemoIn.DISC Z DemoIn.on_connect
              DemoIn.on_disconnect DemoIn.on_message Demo.BUF_lo Demo.BUF_hi
              11 DemoIn.w0 DemoMore.half) as [_ Hdata].
  { vm_compute. repeat split; first [reflexivity | discriminate]. }
  destruct (Hdata (drop 5 (DemoIn.frame 1 1 [x0a]))
              (mkSocket 5 [] [100; 100] [] false)) as [_ Hdone].
  { vm_compute. reflexivity. }
  destruct Hdone as [Hterm Hret].
  - intros Hlen. vm_compute in Hlen. exfalso. apply Hlen. reflexivity.
  - vm_compute. lia.
  - split; [exact Hterm|].
    assert (Hrun : ∃ w' s',
              DemoMore.server_stream_handle' 11 DemoIn.w0 DemoMore.half
                = Ok (true, w', s'))
      by (vm_compute; do 2 eexists; reflexivity).
    destruct Hrun as (w' & s' & Hrun). exists w', s'. split; [exact Hrun|].
    destruct (Hret _ _ _ Hrun) as (Htr & _ & Hb). split; [exact Htr|exact Hb].
Defined.

Lemma collisions_do_not_happen_witness :
  ∃ isnew s1, stream_get_client Demo.CHANS Demo.fresh 2 = Ok (isnew, s1) ∧
              table_ok Demo.CHANS s1.
Proof.
  destruct (collisions_do_not_happen Demo.BUF Demo.CHANS DemoIn.DISC Z
              DemoIn.on_connect DemoIn.on_disconnect DemoIn.on_message Demo.fresh
              (stream_init_table_ok Demo.BUF Demo.CHANS Demo.sock DemoMore.CHANS_pos))
    as (Hget & _ & _).
  apply Hget. vm_compute. split; [discriminate|reflexivity].
Defined.

Lemma channel_reused_after_disconnect_witness :
  ∃ w2 s2 ud,
    DemoIn.handle_message' (DemoMore.after_disconnect).1 (DemoMore.after_disconnect).2
      0 (mkHdr 1 1 1) = Ok (w2, s2) ∧
    trace w2 = trace (DemoMore.after_disconnect).1 ++
      [EvConnect 1 0; EvMessage 1 ud 1 [x0a]].
Proof.
  assert (H1 : DemoIn.handle_message' (DemoIn.after_first).1 (DemoIn.after_first).2 10
                 (mkHdr 0 DemoIn.DISC 1)
               = Ok ((DemoMore.after_disconnect).1, (DemoMore.after_disconnect).2))
    by (vm_compute; reflexivity).
  assert (H2 : ∃ w2 s2,
            DemoIn.handle_message' (DemoMore.after_disconnect).1
              (DemoMore.after_disconnect).2 0 (mkHdr 1 1 1) = Ok (w2, s2))
    by (vm_compute; do 2 eexists; reflexivity).
  destruct H2 as (w2 & s2 & H2). exists w2, s2.
  destruct (channel_reused_after_disconnect Demo.BUF Demo.CHANS DemoIn.DISC Z
              DemoIn.on_connect DemoIn.on_disconnect DemoIn.on_message
              _ _ _ (mkHdr 0 DemoIn.DISC 1) _ _ _ (mkHdr 1 1 1) _ _
              eq_refl H1 eq_refl H2) as [ud Htr].
  exists ud. split; [exact H2|]. rewrite Htr. reflexivity.
Defined.

Lemma laid_out_frames_parse_back_witness :
  ∃ w' s',
    DemoIn.process_input' 20 DemoIn.w0
      (DemoIn.holding (DemoIn.frame 1 1 [x0a] ++ DemoIn.frame 2 1 []))
      = Ok (true, w', s') ∧
    dispatched (trace w') = [Message 1 1 [x0a]; Message 2 0 []] ∧
    ready (input s') = 0.
Proof.
  destruct (laid_out_frames_parse_back Demo.BUF Demo.CHANS DemoIn.DISC Z
              DemoIn.on_connect DemoIn.on_disconnect DemoIn.on_message Demo.BUF_hi
              20 DemoIn.w0
              (DemoIn.holding (DemoIn.frame 1 1 [x0a] ++ DemoIn.frame 2 1 []))
              [(mkHdr 1 1 1, [x0a]); (mkHdr 0 1 2, [])])
    as (_ & _ & Hret).
  - reflexivity.
  - vm_compute. split; discriminate.
  - repeat (constructor; [vm_compute; repeat split; first [reflexivity | discriminate]|]).
    constructor.
  - vm_compute. reflexivity.
  - vm_compute. lia.
  - assert (Hrun : ∃ b w' s',
              DemoIn.process_input' 20 DemoIn.w0
                (DemoIn.holding (DemoIn.frame 1 1 [x0a] ++ DemoIn.frame 2 1 []))
                = Ok (b, w', s'))
      by (vm_compute; do 3 eexists; reflexivity).
    destruct Hrun as (b & w' & s' & Hrun).
    destruct (Hret _ _ _ Hrun) as (-> & Htr & Hr).
    exists w', s'. split; [exact Hrun|]. split; [exact Htr|exact Hr].
Defined.

Lemma accepted_stream_is_fresh_witness :
  ∃ s, used_chain (server_accept Demo.BUF Demo.CHANS (Some Demo.sock)
                     (mkServer [DemoMore.replied] [])) = [s; DemoMore.replied] ∧
       good s = true ∧ committed s = [] ∧ occupied s = [].
Proof.
  destruct (accepted_stream_is_fresh Demo.BUF Demo.CHANS Demo.BUF_lo Demo.sock
              (mkServer [DemoMore.replied] []) DemoMore.CHANS_pos)
    as (_ & s & Hused & _ & _ & Hg & _ & Hc & _ & _ & _ & Hocc).
  exists s. split; [exact Hused|]. split; [exact Hg|]. split; [exact Hc|exact Hocc].
Defined.

Lemma frame_touches_its_channel_only_witness :
  input (DemoIn.after_first).2 = input (DemoIn.holding DemoIn.two_frames) ∧
  slots (DemoIn.after_first).2 !! 2%nat = slots (DemoIn.holding DemoIn.two_frames) !! 2%nat.
Proof.
  assert (H1 : DemoIn.handle_message' DemoIn.w0 (DemoIn.holding DemoIn.two_frames) 0
                 (mkHdr 1 1 1) = Ok ((DemoIn.after_first).1, (DemoIn.after_first).2))
    by (vm_compute; reflexivity).
  destruct (frame_touches_its_channel_only Demo.BUF Demo.CHANS DemoIn.DISC Z
              DemoIn.on_connect DemoIn.on_disconnect DemoIn.on_message
              _ _ _ _ _ _ H1) as (Hin & _ & Hoth).
  split; [exact Hin|]. apply Hoth. vm_compute. discriminate.
Defined.

Lemma client_calls_leave_input_alone_witness :
  ∃ u s',
    run_cb Demo.BUF Z (DemoIn.on_message 0 1 1 [x0a]) (DemoIn.after_first).2
      = Ok (u, s') ∧
    input s' = input (DemoIn.after_first).2 ∧
    slots s' = slots (DemoIn.after_first).2 ∧
    out_inv Demo.BUF s'.
Proof.
  assert (Hrun : ∃ u s',
            run_cb Demo.BUF Z (DemoIn.on_message 0 1 1 [x0a]) (DemoIn.after_first).2
              = Ok (u, s'))
    by (vm_compute; do 2 eexists; reflexivity).
  destruct Hrun as (u & s' & Hrun). exists u, s'. split; [exact Hrun|].
  destruct (client_calls_leave_input_alone Demo.BUF Demo.CHANS Z
              Demo.BUF_lo Demo.BUF_hi _ _ _ _ Hrun) as (Hin & Hsl & _ & Hinv & _).
  split; [exact Hin|]. split; [exact Hsl|].
  apply Hinv. left. exact DemoMore.after_first_idle.
Defined.

Lemma server_flush_returns_witness :
  ∃ server',
    server_flush (mkServer [DemoMore.replied] []) = Ok server' ∧
    Forall2 (λ s s', ready (output s') = 0 ∨ good s' = false)
            [DemoMore.replied] (used_chain server').
Proof.
  destruct (server_flush_returns Demo.BUF Demo.BUF_lo Demo.BUF_hi (mkServer [DemoMore.replied] [])
              (Forall_cons_2 _ _ _ (or_introl DemoMore.replied_idle) (Forall_nil_2 _)))
    as (server' & Hrun & _ & Hall).
  exists server'. split; [exact Hrun|].
  cbn [used_chain] in Hall. revert Hall. apply Forall2_impl.
  intros s s' (_ & _ & _ & _ & H). exact H.
Defined.

Lemma append_checks_capacity_witness :
  stream_message_append Demo.BUF Demo.started 24 (replicate 24 x07)
    = Ok (false, set_good false Demo.started) ∧
  ∃ s', stream_message_append Demo.BUF Demo.started 23 (replicate 24 x07)
          = Ok (true, s') ∧
        inprogress s' = Demo.BUF.
Proof.
  destruct (stream_message_start_spec Demo.BUF Demo.BUF_lo Demo.BUF_hi _ _ _ _
              Demo.fresh_idle Demo.fresh_started) as (_ & Hb & _).
  split.
  - destruct (append_checks_capacity Demo.BUF Demo.BUF_lo Demo.BUF_hi Demo.started
                _ _ 24 (replicate 24 x07) Hb) as [Hover _];
      [vm_compute; discriminate|vm_compute; discriminate|].
    apply Hover. vm_compute. reflexivity.
  - destruct (append_checks_capacity Demo.BUF Demo.BUF_lo Demo.BUF_hi Demo.started
                _ _ 23 (replicate 24 x07) Hb) as [_ Hfit];
      [vm_compute; discriminate|vm_compute; discriminate|].
    destruct Hfit as (s' & Hrun & _ & Hin);
      [vm_compute; reflexivity|vm_compute; reflexivity|vm_compute; discriminate|].
    exists s'. split; [exact Hrun|exact Hin].
Defined.

Lemma nothing_sent_while_room_witness :
  (∃ s', stream_message_start Demo.BUF DemoMore.replied 3 = Ok (true, s') ∧
         fd s' = fd DemoMore.replied) ∧
  (∃ s', stream_message_append Demo.BUF Demo.started 2 [x01; x02] = Ok (true, s') ∧
         fd s' = fd Demo.started) ∧
  (∃ s', stream_message_finish Demo.BUF Demo.started = Ok (true, s') ∧
         fd s' = fd Demo.started).
Proof.
  destruct (stream_message_start_spec Demo.BUF Demo.BUF_lo Demo.BUF_hi _ _ _ _
              Demo.fresh_idle Demo.fresh_started) as (_ & Hb & _).
  split; [|split].
  - destruct (nothing_sent_while_room Demo.BUF Demo.BUF_lo Demo.BUF_hi
                DemoMore.replied 3 [] 0 []) as (Hstart & _ & _).
    destruct (Hstart DemoMore.replied_idle) as (s' & Hrun & Hfd & _);
      [vm_compute; discriminate|].
    exists s'. split; [exact Hrun|exact Hfd].
  - destruct (nothing_sent_while_room Demo.BUF Demo.BUF_lo Demo.BUF_hi
                Demo.started 7 [] 2 [x01; x02]) as (_ & Happend & _).
    destruct (Happend Hb) as (s' & Hrun & Hfd & _);
      [vm_compute; split; discriminate|vm_compute; discriminate|].
    exists s'. split; [exact Hrun|exact Hfd].
  - destruct (nothing_sent_while_room Demo.BUF Demo.BUF_lo Demo.BUF_hi
                Demo.started 7 [] 0 []) as (_ & _ & Hfinish).
    destruct (Hfinish Hb) as (s' & Hrun & Hfd & _).
    exists s'. split; [exact Hrun|exact Hfd].
Defined.

(** * Concrete instances with several connections *)

Module DemoServer.

(** An upper layer that pairs callers: a message that finds nobody waiting
    parks its client; the next message, on whatever connection it comes,
    is answered to the parked client, on the connection of the parked
    client. *)
Definition U : Type := option Server.client_t.

Definition on_connect (u : U) (c : Server.client_t) : Server.cb U :=
  Server.Call c (CallSetUserdata 5) (λ _, Server.Return u).
Definition on_disconnect (u : U) (c : Server.client_t) : Server.cb U :=
  Server.Call c (CallSetUserdata 0) (λ _, Server.Return u).
Definition on_message (u : U) (c : Server.client_t) (len : Z) (payload : list byte)
  : Server.cb U :=
  match u with
  | None => Server.Return (Some c)
  | Some waiting =>
      Server.Call waiting (CallMessageShortcut 42) (λ _, Server.Return None)
  end.

Definition w0 : Server.world U := Server.mkWorld None [].

(** The server as [server_start] leaves it: no record, both chains empty. *)
Definition empty : Server.server_data_t := Server.mkServer [] [] [].

(** Three sockets: on the first two a message is waiting, on channel 1 and
    on channel 2; the third has nothing to deliver. *)
Definition first : socket_t :=
  mkSocket 6 [RecvData (DemoIn.frame 1 1 [x0a])] [100] [] false.
Definition second : socket_t :=
  mkSocket 7 [RecvData (DemoIn.frame 2 1 [x0b])] [100] [] false.
Definition third : socket_t := mkSocket 8 [] [] [] false.

(** What one return of [epoll_wait] reports: three connections to accept
    (their records get the addresses 0, 1 and 2), input on the first two,
    an error on the third. *)
Definition turn : list Server.epoll_event :=
  [Server.OnListener (Some first); Server.OnListener (Some second);
   Server.OnListener (Some third);
   Server.OnStream 0%nat false true; Server.OnStream 1%nat false true;
   Server.OnStream 2%nat true false].

Abbreviation handle_event' :=
  (Server.handle_event Demo.BUF Demo.CHANS DemoIn.DISC U
     on_connect on_disconnect on_message).
Abbreviation handle_events' :=
  (Server.handle_events Demo.BUF Demo.CHANS DemoIn.DISC U
     on_connect on_disconnect on_message).
Abbreviation server_close_bad_streams' :=
  (Server.server_close_bad_streams Demo.BUF Demo.CHANS U on_disconnect).
Abbreviation server_tick' :=
  (Server.server_tick Demo.BUF Demo.CHANS DemoIn.DISC U
     on_connect on_disconnect on_message).
Abbreviation server_loop' :=
  (Server.server_loop Demo.BUF Demo.CHANS DemoIn.DISC U
     on_connect on_disconnect on_message).

(** The state when the first four events of [turn] are handled: the client
    of channel 1 of the first connection is parked. *)
Definition parked : Server.world U * Server.server_data_t :=
  match handle_events' 10 (take 4 turn) w0 empty with
  | Ok p => p
  | _ => (w0, empty)
  end.

(** The state when all events of [turn] are handled. *)
Definition handled : Server.world U * Server.server_data_t :=
  match handle_events' 10 turn w0 empty with
  | Ok p => p
  | _ => (w0, empty)
  end.

Lemma empty_ok : Server.chains_ok empty.
Proof. split; [constructor|]. intros a Ha. inversion Ha. Defined.

Lemma empty_served Q : Server.served Q empty.
Proof. intros a Ha. inversion Ha. Defined.

Lemma turn_handled :
  handle_events' 10 turn w0 empty = Ok ((handled).1, (handled).2).
Proof. vm_compute. reflexivity. Defined.


Lemma handled_ok : Server.chains_ok (handled).2.
Proof.
  eapply (Server.handle_events_chains_ok Demo.BUF Demo.CHANS DemoIn.DISC U
            on_connect on_disconnect on_message 10 turn w0 empty (handled).1);
    [exact empty_ok|exact turn_handled].
Defined.

(** Every stream of the used chain of [parked] is good. *)
Lemma parked_good : Server.served (λ s, good s = true) (parked).2.
Proof.
  apply Server.served_Forall. vm_compute.
  repeat (constructor; [eexists; split; reflexivity|]). constructor.
Defined.


End DemoServer.



Lemma reaping_keeps_the_records_witness :
  DemoServer.server_close_bad_streams' (DemoServer.parked).1 (DemoServer.parked).2
    = Ok DemoServer.parked ∧
  ∃ w' server',
    DemoServer.server_close_bad_streams' (DemoServer.handled).1 (DemoServer.handled).2
      = Ok (w', server') ∧
    Server.chains_ok server' ∧
    length (Server.mem server') = length (Server.mem (DemoServer.handled).2) ∧
    ∀ a, a ∈ Server.used_chain server' ++ Server.free_chain server' ↔
         a ∈ Server.used_chain (DemoServer.handled).2 ++
             Server.free_chain (DemoServer.handled).2.
Proof.
  split.
  - exact (proj1 (Server.reaping_keeps_the_records Demo.BUF Demo.CHANS _
                    DemoServer.on_disconnect (DemoServer.parked).1
                    (DemoServer.parked).2) DemoServer.parked_good).
  - assert (H : ∃ w' server',
              DemoServer.server_close_bad_streams' (DemoServer.handled).1
                (DemoServer.handled).2 = Ok (w', server'))
      by (vm_compute; do 2 eexists; reflexivity).
    destruct H as (w' & server' & H). exists w', server'. split; [exact H|].
    exact (proj2 (Server.reaping_keeps_the_records _ _ _ _ _ _) _ _
             DemoServer.handled_ok H).
Defined.

Lemma served_streams_stay_well_formed_witness :
  ∃ w' server',
    DemoServer.server_loop' 10 [Some DemoServer.turn; Some []] DemoServer.w0
      DemoServer.empty = Ok (w', server') ∧
    Server.chains_ok server' ∧
    Server.served (live_ok Demo.BUF Demo.CHANS) server'.
Proof.
  assert (H : ∃ w' server',
            DemoServer.server_loop' 10 [Some DemoServer.turn; Some []] DemoServer.w0
              DemoServer.empty = Ok (w', server'))
    by (vm_compute; do 2 eexists; reflexivity).
  destruct H as (w' & server' & H). exists w', server'. split; [exact H|].
  exact (Server.served_streams_stay_well_formed _ _ _ _ _ _ _
           Demo.BUF_lo Demo.BUF_hi _ _ _ _ _ _
           DemoMore.CHANS_pos DemoServer.empty_ok (DemoServer.empty_served _) H).
Defined.

Lemma tick_ends_flushed_witness :
  ∃ w' server',
    DemoServer.server_tick' 10 DemoServer.turn DemoServer.w0 DemoServer.empty
      = Ok (w', server') ∧
    ∀ a, a ∈ Server.used_chain server' →
         ∃ s, Server.mem server' !! a = Some s ∧
              (ready (output s) = 0 ∨ good s = false).
Proof.
  assert (H : ∃ w' server',
            DemoServer.server_tick' 10 DemoServer.turn DemoServer.w0 DemoServer.empty
              = Ok (w', server'))
    by (vm_compute; do 2 eexists; reflexivity).
  destruct H as (w' & server' & H). exists w', server'. split; [exact H|].
  exact (Server.tick_ends_flushed _ _ _ _ _ _ _
           Demo.BUF_lo Demo.BUF_hi _ _ _ _ _ _
           DemoMore.CHANS_pos DemoServer.empty_ok (DemoServer.empty_served _) H).
Defined.

Lemma event_moves_no_record_witness :
  ∃ w' server',
    DemoServer.handle_event' 10 (Server.OnStream 1%nat false true)
      (DemoServer.parked).1 (DemoServer.parked).2 = Ok (w', server') ∧
    Server.used_chain server' = Server.used_chain (DemoServer.parked).2 ∧
    Server.free_chain server' = Server.free_chain (DemoServer.parked).2 ∧
    length (Server.mem server') = length (Server.mem (DemoServer.parked).2) ∧
    ∀ a s, Server.mem (DemoServer.parked).2 !! a = Some s →
           ∃ s', Server.mem server' !! a = Some s' ∧
                 sock_fd (fd s') = sock_fd (fd s) ∧
                 (good s = false → good s' = false) ∧
                 (destroyed s → destroyed s').
Proof.
  assert (H : ∃ w' server',
            DemoServer.handle_event' 10 (Server.OnStream 1%nat false true)
              (DemoServer.parked).1 (DemoServer.parked).2 = Ok (w', server'))
    by (vm_compute; do 2 eexists; reflexivity).
  destruct H as (w' & server' & H). exists w', server'. split; [exact H|].
  exact (Server.event_moves_no_record _ _ _ _ _ _ _ _ _ _ _ _ _ _ _ H).
Defined.

Lemma confined_callbacks_touch_one_record_witness :
  Server.server_stream_handle Demo.BUF Demo.CHANS DemoIn.DISC Z
    (onconnect_at Z DemoIn.on_connect) (ondisconnect_at Z DemoIn.on_disconnect)
    (onmessage_at Z DemoIn.on_message) 11 (at_world Z 1%nat [] DemoIn.w0)
    [Demo.fresh; DemoMore.half] 1%nat =
    ('(b, w', s') ← DemoMore.server_stream_handle' 11 DemoIn.w0 DemoMore.half;
     Ok (b, at_world Z 1%nat [] w', [Demo.fresh; s'])) ∧
  Server.server_stream_destroy Demo.BUF Demo.CHANS Z
    (ondisconnect_at Z DemoIn.on_disconnect) (at_world Z 1%nat [] DemoIn.w0)
    [Demo.fresh; DemoMore.half] 1%nat =
    ('(w', s') ← DemoIn.server_stream_destroy' DemoIn.w0 DemoMore.half;
     Ok (at_world Z 1%nat [] w', [Demo.fresh; s'])).
Proof.
  exact (confined_callbacks_touch_one_record Demo.BUF Demo.CHANS DemoIn.DISC Z
           DemoIn.on_connect DemoIn.on_disconnect DemoIn.on_message
           1%nat [] 11%nat DemoIn.w0 DemoMore.half [Demo.fresh; DemoMore.half] eq_refl).
Defined.
